(** * Semantic comparison engine of the SAP documentation monitor

    Shallow embedding of [comparator/compare_content.py] and proofs of
    the properties its specification states about [compare].

    Python [str] values are sequences of Unicode code points; they are
    modelled as [list N].  Dictionaries are [gmap]s, sets are [gset]s and
    [collections.Counter] is a [gmultiset].

    The module catches no exception, and [int] raises [ValueError]
    for a step number of more digits than the interpreter converts.
    The functions that reach [int] are given twice: as they run when
    no conversion is refused, and in [Raising] with the exception;
    [Raising_compare] relates the two. *)

From stdpp Require Import gmap gmultiset list sorting strings.
From Stdlib Require Import NArith.

Open Scope N_scope.
#[local] Set Warnings "-clear-no-such-hyp".

(** ** Python string primitives *)

Module Text.

Abbreviation char := N (only parsing).
Abbreviation str := (list N) (only parsing).

(** An ASCII literal as a Python string. *)
Definition u (s : string) : str :=
  List.map Ascii.N_of_ascii (String.list_ascii_of_string s).

Definition in_chars (cs : str) (c : char) : bool :=
  bool_decide (c ∈ cs).

(** [str.isspace] on one code point, which is also the class [\s] of
    [re] on [str] patterns and the default of [str.strip]. *)
Definition isspace (c : char) : bool :=
  ((9 <=? c) && (c <=? 13)) || ((28 <=? c) && (c <=? 32))
  || (c =? 133) || (c =? 160) || (c =? 5760)
  || ((8192 <=? c) && (c <=? 8202))
  || (c =? 8232) || (c =? 8233) || (c =? 8239) || (c =? 8287)
  || (c =? 12288).

Fixpoint take_while (p : char → bool) (s : str) : str :=
  match s with
  | c :: s' => if p c then c :: take_while p s' else []
  | [] => []
  end.

Fixpoint drop_while (p : char → bool) (s : str) : str :=
  match s with
  | c :: s' => if p c then drop_while p s' else s
  | [] => []
  end.

Definition lstrip_by (p : char → bool) (s : str) : str := drop_while p s.
Definition rstrip_by (p : char → bool) (s : str) : str :=
  reverse (drop_while p (reverse s)).

(** [s.strip()] *)
Definition strip (s : str) : str := rstrip_by isspace (lstrip_by isspace s).
(** [s.lstrip(cs)] and [s.rstrip(cs)] *)
Definition lstrip_chars (cs s : str) : str := lstrip_by (in_chars cs) s.
Definition rstrip_chars (cs s : str) : str := rstrip_by (in_chars cs) s.

(** [s.startswith(p)] *)
Fixpoint startswith (s p : str) : bool :=
  match p, s with
  | [], _ => true
  | a :: p', b :: s' => (a =? b) && startswith s' p'
  | _ :: _, [] => false
  end.

(** [p in s] for strings. *)
Fixpoint contains (s p : str) : bool :=
  startswith s p ||
  match s with
  | [] => false
  | _ :: s' => contains s' p
  end.

(** The line boundaries of [str.splitlines]. *)
Definition is_linebreak (c : char) : bool :=
  ((10 <=? c) && (c <=? 13)) || ((28 <=? c) && (c <=? 30))
  || (c =? 133) || (c =? 8232) || (c =? 8233).

(** [s.splitlines()]: [cur] holds the current line reversed.  A
    carriage return followed by a line feed is one boundary, and no
    empty line is produced after a final boundary. *)
Fixpoint splitlines_go (cur : str) (s : str) : list str :=
  match s with
  | [] => match cur with [] => [] | _ => [reverse cur] end
  | c :: s' =>
      if is_linebreak c then
        reverse cur ::
          match s' with
          | c' :: s'' =>
              if (c =? 13) && (c' =? 10) then splitlines_go [] s''
              else splitlines_go [] s'
          | [] => splitlines_go [] s'
          end
      else splitlines_go (c :: cur) s'
  end.

Definition splitlines (s : str) : list str := splitlines_go [] s.

(** [s.split()[0] if s.split() else ''] *)
Definition first_word (s : str) : str :=
  take_while (λ c, negb (isspace c)) (drop_while isspace s).

(** [re.sub(r'\s+', ' ', s)] *)
Fixpoint collapse_ws (s : str) : str :=
  match s with
  | [] => []
  | c :: s' =>
      if isspace c then
        match s' with
        | c' :: _ => if isspace c' then collapse_ws s' else 32 :: collapse_ws s'
        | [] => [32]
        end
      else c :: collapse_ws s'
  end.

(** Comparison of strings by code points, as [<=] on [str]. *)
Fixpoint str_leb (a b : str) : bool :=
  match a, b with
  | [], _ => true
  | _ :: _, [] => false
  | x :: a', y :: b' => (x <? y) || ((x =? y) && str_leb a' b')
  end.

(** [str(n)] for a non-negative [int]. *)
Fixpoint digits_of_uint (d : Decimal.uint) : str :=
  match d with
  | Decimal.Nil => []
  | Decimal.D0 d => 48 :: digits_of_uint d
  | Decimal.D1 d => 49 :: digits_of_uint d
  | Decimal.D2 d => 50 :: digits_of_uint d
  | Decimal.D3 d => 51 :: digits_of_uint d
  | Decimal.D4 d => 52 :: digits_of_uint d
  | Decimal.D5 d => 53 :: digits_of_uint d
  | Decimal.D6 d => 54 :: digits_of_uint d
  | Decimal.D7 d => 55 :: digits_of_uint d
  | Decimal.D8 d => 56 :: digits_of_uint d
  | Decimal.D9 d => 57 :: digits_of_uint d
  end.

Definition str_of_int (n : N) : str := digits_of_uint (N.to_uint n).

Definition is_ascii (c : char) : bool := c <? 128.

Definition ascii_lower_char (c : char) : char :=
  if (65 <=? c) && (c <=? 90) then c + 32 else c.

Definition ascii_decimal (c : char) : option N :=
  if (48 <=? c) && (c <=? 57) then Some (c - 48) else None.

End Text.
Import Text.


(** ** The parts of the Unicode database the module relies on

    [str.lower] and the decimal-digit property (the class [\d] of [re]
    and the digits [int] accepts) are tables of the interpreter.  They
    are taken as parameters; what is fixed is their behaviour on ASCII. *)

Class UnicodeDB := {
  lower : str → str;
  decimal : char → option N;
  lower_ascii : ∀ s, forallb is_ascii s = true →
                     lower s = List.map ascii_lower_char s;
  decimal_ascii : ∀ c, is_ascii c = true → decimal c = ascii_decimal c;
}.

(** Iteration over a [set] visits every element once, in an order
    that depends on the hashes of the elements. *)
Class SetOrder := {
  set_iter : gset str → list str;
  set_iter_perm : ∀ X, set_iter X ≡ₚ elements X;
}.

(** ** Generic Python built-ins *)

Section Builtins.
Context {A : Type}.

(** Stable sort, the result of [sorted] and [list.sort]. *)
Fixpoint stable_insert (le : A → A → bool) (x : A) (l : list A) : list A :=
  match l with
  | [] => [x]
  | y :: l' => if le x y then x :: l else y :: stable_insert le x l'
  end.

Definition stable_sort (le : A → A → bool) (l : list A) : list A :=
  foldr (stable_insert le) [] l.

(** [l.sort(key=key)] *)
Definition sort_by_key (key : A → Z) (l : list A) : list A :=
  stable_sort (λ x y, (key x <=? key y)%Z) l.

(** [max(l, key=key)] on a non-empty list: the first maximal element. *)
Definition max_by_key (key : A → Z) (x : A) (l : list A) : A :=
  foldl (λ best y, if (key best <? key y)%Z then y else best) x l.

End Builtins.

(** [range(a, b)] *)
Definition range (a b : N) : list N :=
  List.map (λ i, a + N.of_nat i) (seq 0 (N.to_nat (b - a))).

(** [sorted(X)] for a set of strings. *)
Definition sorted `{SetOrder} (X : gset str) : list str :=
  stable_sort str_leb (set_iter X).

(** [d.setdefault(k, v)] *)
Definition setdefault (k v : str) (d : gmap str str) : gmap str str :=
  match d !! k with
  | Some _ => d
  | None => <[k := v]> d
  end.

(** ** Data model *)

Inductive Category :=
  section_header | instruction | prerequisite | note | content | noise.

Inductive Severity := HIGH | MEDIUM | LOW.

Inductive WarningType := NUMBERING_GAP | MISSING_SECTION | MISSING_PREREQUISITE.

Record ChangeEntry := {
  text : str;
  severity : Severity;
  category : Category;
}.

Record StructuralWarning := {
  type : WarningType;
  wseverity : Severity;
  message : str;
}.

Record ComparisonResult := {
  has_changes : bool;
  added : list ChangeEntry;
  removed : list ChangeEntry;
  structural_warnings : list StructuralWarning;
  max_severity : option Severity;
}.

#[global] Instance Category_eq_dec : EqDecision Category.
Proof. solve_decision. Defined.
#[global] Instance Severity_eq_dec : EqDecision Severity.
Proof. solve_decision. Defined.
#[global] Instance WarningType_eq_dec : EqDecision WarningType.
Proof. solve_decision. Defined.
#[global] Instance ChangeEntry_eq_dec : EqDecision ChangeEntry.
Proof. solve_decision. Defined.
#[global] Instance StructuralWarning_eq_dec : EqDecision StructuralWarning.
Proof. solve_decision. Defined.

(** ** Normalization helpers *)

Section Normalizer.
Context {db : UnicodeDB}.

Definition is_digit (c : char) : bool :=
  match decimal c with Some _ => true | None => false end.

(** The integer that a run of decimal digits denotes: the value of
    [int(ds)] whenever [int] returns one.  Python integers are
    unbounded, but [int] refuses a string of more digits than the
    interpreter's limit (4300 unless configured otherwise) with a
    [ValueError].  The functions that call [int] are therefore given
    twice: here as they run when no conversion is refused, which is
    the module under an interpreter without the limit, and in
    [Raising] below with the exception. *)
Definition int_of_digits (ds : str) : N :=
  foldl (λ acc c, 10 * acc + default 0 (decimal c)) 0 ds.

Definition bullet_chars : str :=
  [8226; 183; 45; 42; 8226; 8227; 9702; 8259; 8729].
Definition sep_chars : str := [45; 61; 42; 95; 9472].
Definition arrow_chars : str := [8594; 9658; 9654; 10140; 10148; 187].
Definition dash_chars : str := [45; 9472].

(** [_BULLET_RE.match(s)]: the rest of [s] after the match.  The
    classes of the pattern are disjoint, so the greedy match is the
    only one. *)
Definition _BULLET_RE_match (s : str) : option str :=
  match drop_while isspace s with
  | c :: s' =>
      if in_chars bullet_chars c then Some (drop_while isspace s') else None
  | [] => None
  end.

(** [_STEP_NUMBER_RE.match(s)]: group 1 and the rest after the match. *)
Definition _STEP_NUMBER_RE_match (s : str) : option (str * str) :=
  let s1 := drop_while isspace s in
  match take_while is_digit s1, drop_while is_digit s1 with
  | d :: ds, c :: rest =>
      if in_chars [46; 41] c then Some (d :: ds, drop_while isspace rest)
      else None
  | _, _ => None
  end.

(** [_SEPARATOR_RE.match(s)] *)
Definition _SEPARATOR_RE_match (s : str) : bool :=
  let s1 := drop_while isspace s in
  bool_decide (3 ≤ length (take_while (in_chars sep_chars) s1))%nat
  && forallb isspace (drop_while (in_chars sep_chars) s1).

(** [_TABLE_SEP_RE.match(s)]: after the leading white space, runs of
    dashes separated by at least two white-space characters, at least
    two runs, and optional white space at the end.  [runs2] is set
    once a second run has started; [gap] counts the white space read
    since the last dash ([0] inside a run). *)
Fixpoint table_sep_go (runs2 : bool) (gap : nat) (s : str) : bool :=
  match s with
  | [] => runs2
  | c :: s' =>
      if in_chars dash_chars c then
        match gap with
        | O => table_sep_go runs2 0 s'
        | S O => false
        | _ => table_sep_go true 0 s'
        end
      else if isspace c then table_sep_go runs2 (S gap) s'
      else false
  end.

Definition _TABLE_SEP_RE_match (s : str) : bool :=
  match drop_while isspace s with
  | c :: s' => in_chars dash_chars c && table_sep_go false 0 s'
  | [] => false
  end.

(** [_ARROW_RE.sub(' > ', s)].  [pending] is the white space read and
    not yet copied, which a following arrow absorbs; [skip] holds
    while the white space after an arrow is consumed. *)
Fixpoint arrow_sub_go (skip : bool) (pending : str) (s : str) : str :=
  match s with
  | [] => pending
  | c :: s' =>
      if in_chars arrow_chars c then [32; 62; 32] ++ arrow_sub_go true [] s'
      else if isspace c then
        if skip then arrow_sub_go true [] s'
        else arrow_sub_go false (pending ++ [c]) s'
      else pending ++ c :: arrow_sub_go false [] s'
  end.

Definition _ARROW_RE_sub (s : str) : str := arrow_sub_go false [] s.

Definition _normalize_line (line : str) : str :=
  match strip line with
  | [] => []
  | s =>
      let s := default s (_BULLET_RE_match s) in
      let s := default s (snd <$> _STEP_NUMBER_RE_match s) in
      let s := _ARROW_RE_sub s in
      lower (strip (collapse_ws s))
  end.

Definition _is_noise (line : str) : bool :=
  let stripped := strip line in
  match stripped with
  | [] => true
  | _ => _SEPARATOR_RE_match stripped || _TABLE_SEP_RE_match stripped
  end.

(** ** Semantic line classification *)

Definition _ACTION_VERBS : gset str :=
  list_to_set (u <$> [
    "choose"; "select"; "click"; "enter"; "navigate"; "open"; "upload";
    "download"; "save"; "add"; "remove"; "delete"; "create"; "configure";
    "check"; "verify"; "confirm"; "submit"; "type"; "drag"; "drop";
    "browse"; "expand"; "collapse"; "go"; "log"; "sign"; "press";
    "enable"; "disable"; "set"; "change"; "update"; "assign"; "map";
    "register"; "subscribe"; "search"; "copy"; "paste"; "refresh"
  ]%string).

Definition _SECTION_KEYWORDS : gset str :=
  list_to_set (u <$> [
    "prerequisites"; "prerequisite"; "procedure"; "results"; "result";
    "context"; "steps"; "next steps"; "related information"
  ]%string).

Definition prerequisite_prefixes : list str :=
  u <$> ["you've"; "you're"; "you need"; "you must";
         "you have"; "you should"]%string.

Definition _classify_line (line : str) : Category :=
  let stripped := strip line in
  match stripped with
  | [] => noise
  | _ =>
    if _is_noise stripped then noise else
    let norm := _normalize_line stripped in
    match norm with
    | [] => noise
    | _ =>
      let clean := strip (rstrip_chars [58] norm) in
      if bool_decide (clean ∈ _SECTION_KEYWORDS) then section_header
      else if startswith norm (u "steps in") || startswith norm (u "steps for")
      then section_header
      else if bool_decide (first_word norm ∈ _ACTION_VERBS) then instruction
      else if existsb
                (startswith (lower (lstrip_chars [8226; 183; 45; 42; 32] stripped)))
                prerequisite_prefixes
      then prerequisite
      else if startswith norm (u "note:") || startswith norm (u "note ")
              || bool_decide (norm = u "note")
      then note
      else content
    end
  end.

Definition _severity_for (cat : Category) : Severity :=
  match cat with
  | instruction => HIGH
  | section_header => HIGH
  | prerequisite => HIGH
  | note => MEDIUM
  | content => MEDIUM
  | noise => LOW
  end.

End Normalizer.

(** ** Structural validation

    [_detect_numbering_gaps] and its callers are given here as they run
    when [int] converts every step number; [Raising] below repeats them
    with the exception of [int]. *)

Section Validator.
Context {db : UnicodeDB} {so : SetOrder}.

Definition numbering_gap_warning (missing prev_num num : N) : StructuralWarning :=
  {| type := NUMBERING_GAP;
     wseverity := HIGH;
     message := u "Step " ++ str_of_int missing ++ u " is missing "
                ++ u "(numbering jumps from " ++ str_of_int prev_num
                ++ u " to " ++ str_of_int num ++ u ")" |}.

(** One iteration of the loop of [_detect_numbering_gaps] over the
    state [(warnings, prev_num)]. *)
Definition numbering_step (st : list StructuralWarning * option N)
    (line : str) : list StructuralWarning * option N :=
  let '(warnings, prev_num) := st in
  match _STEP_NUMBER_RE_match (strip line) with
  | Some (ds, _) =>
      let num := int_of_digits ds in
      if num =? 1 then (warnings, Some 1)
      else
        match prev_num with
        | Some prev =>
            if prev + 1 <? num
            then (warnings ++
                    ((λ missing, numbering_gap_warning missing prev num)
                       <$> range (prev + 1) num),
                  Some num)
            else (warnings, Some num)
        | None => (warnings, Some num)
        end
  | None => st
  end.

Definition _detect_numbering_gaps (text : str) : list StructuralWarning :=
  fst (foldl numbering_step ([], None) (splitlines text)).

Definition missing_section_warning (label : str) : StructuralWarning :=
  {| type := MISSING_SECTION;
     wseverity := HIGH;
     message := label ++ u " may be missing from the document" |}.

Definition expected_sections : list (str * str) :=
  [ (u "prerequisites", u "Prerequisites section");
    (u "procedure", u "Procedure section") ].

Definition _detect_missing_sections (text : str) : list StructuralWarning :=
  let norm := lower text in
  let has_procedures :=
    existsb (contains norm) [u "choose "; u "select "; u "navigate "] in
  if negb has_procedures then []
  else
    foldl (λ warnings '(keyword, label),
             if negb (contains norm keyword)
             then warnings ++ [missing_section_warning label]
             else warnings)
          [] expected_sections.

Definition missing_prerequisite_warning (missing : str) : StructuralWarning :=
  {| type := MISSING_PREREQUISITE;
     wseverity := HIGH;
     message := u "Prerequisite removed: " ++ [34] ++ missing ++ [34] |}.

Definition _prereq_lines (text : str) : gset str :=
  foldl (λ out line,
           if bool_decide (_classify_line line = prerequisite)
           then out ∪ {[ _normalize_line line ]}
           else out)
        ∅ (splitlines text).

Definition _detect_missing_prerequisites (old_text new_text : str)
    : list StructuralWarning :=
  let old_prereqs := _prereq_lines old_text in
  let new_prereqs := _prereq_lines new_text in
  missing_prerequisite_warning <$> set_iter (old_prereqs ∖ new_prereqs).

Definition _validate_structure (old_text new_text : str)
    : list StructuralWarning :=
  let old_warnings :=
    _detect_numbering_gaps old_text ++ _detect_missing_sections old_text in
  let new_warnings :=
    _detect_numbering_gaps new_text ++ _detect_missing_sections new_text in
  let old_msgs : gset str := list_to_set (message <$> old_warnings) in
  let new_only :=
    List.filter (λ w, bool_decide (message w ∉ old_msgs)) new_warnings in
  new_only ++ _detect_missing_prerequisites old_text new_text.

(** ** Main comparison engine *)

Definition _SEVERITY_ORDER (s : Severity) : Z :=
  match s with HIGH => 3 | MEDIUM => 2 | LOW => 1 end.

(** One iteration of the loops that fill [old_norm_map] and
    [old_norm_list] (and their [new_] counterparts). *)
Definition norm_step (st : gmap str str * list str) (line : str)
    : gmap str str * list str :=
  let '(norm_map, norm_list) := st in
  if _is_noise line then st
  else
    match _normalize_line line with
    | [] => st
    | n => (setdefault n (strip line) norm_map, norm_list ++ [n])
    end.

Definition build_norm (text : str) : gmap str str * list str :=
  foldl norm_step (∅, []) (splitlines text).

Definition change_entry (original : str) (cat : Category) : ChangeEntry :=
  {| text := original; severity := _severity_for cat; category := cat |}.

(** One iteration of the loop over [sorted(all_norms)], on the state
    [(added, removed)]. *)
Definition diff_step (old_norm_map new_norm_map : gmap str str)
    (old_counts new_counts : gmultiset str)
    (st : list ChangeEntry * list ChangeEntry) (norm : str)
    : list ChangeEntry * list ChangeEntry :=
  let '(added, removed) := st in
  let old_c := multiplicity norm old_counts in
  let new_c := multiplicity norm new_counts in
  if bool_decide (new_c < old_c)%nat then
    let original := default norm (old_norm_map !! norm) in
    let cat := _classify_line original in
    if bool_decide (cat = noise) then st
    else (added, removed ++ replicate (old_c - new_c) (change_entry original cat))
  else if bool_decide (old_c < new_c)%nat then
    let original := default norm (new_norm_map !! norm) in
    let cat := _classify_line original in
    if bool_decide (cat = noise) then st
    else (added ++ replicate (new_c - old_c) (change_entry original cat), removed)
  else st.

Definition _skey {A} (sev : A → Severity) (item : A) : Z :=
  (_SEVERITY_ORDER (sev item) * -1)%Z.

Definition compare (old_text new_text : str) : ComparisonResult :=
  let '(old_norm_map, old_norm_list) := build_norm old_text in
  let '(new_norm_map, new_norm_list) := build_norm new_text in
  let old_counts : gmultiset str := list_to_set_disj old_norm_list in
  let new_counts : gmultiset str := list_to_set_disj new_norm_list in
  let all_norms : gset str :=
    list_to_set old_norm_list ∪ list_to_set new_norm_list in
  let '(added, removed) :=
    foldl (diff_step old_norm_map new_norm_map old_counts new_counts)
          ([], []) (sorted all_norms) in
  let warnings := _validate_structure old_text new_text in
  let has_changes :=
    match added, removed with [], [] => false | _, _ => true end in
  let all_sevs :=
    (severity <$> added) ++ (severity <$> removed) ++ (wseverity <$> warnings) in
  let max_severity :=
    match all_sevs with
    | [] => None
    | s :: rest => Some (max_by_key _SEVERITY_ORDER s rest)
    end in
  {| has_changes := has_changes;
     added := sort_by_key (_skey severity) added;
     removed := sort_by_key (_skey severity) removed;
     structural_warnings := sort_by_key (_skey wseverity) warnings;
     max_severity := max_severity |}.

End Validator.

(** ** The limit of [int] on the number of digits

    [int] converts a string of at most [sys.get_int_max_str_digits()]
    digits and raises [ValueError] for a longer one, leading zeros
    included.  The limit is 4300 by default; it can be set to [0],
    which disables it, or to 640 and more, and strings of up to 640
    digits are never checked.  Interpreters older than the limit
    behave as with [0]. *)

Class IntLimit := { int_max_str_digits : nat }.

Definition default_int_limit : IntLimit := {| int_max_str_digits := 4300 |}.
Definition no_int_limit : IntLimit := {| int_max_str_digits := 0 |}.

Section IntLimit.
Context {db : UnicodeDB} {lim : IntLimit}.

(** [int(ds)] returns for the run of digits [ds]. *)
Definition int_accepts (ds : str) : bool :=
  negb (bool_decide (640 < length ds)%nat
        && bool_decide (0 < int_max_str_digits)%nat
        && bool_decide (int_max_str_digits < length ds)%nat).

(** [int] accepts the step number of the line, if the line has one. *)
Definition step_number_accepted (line : str) : bool :=
  match _STEP_NUMBER_RE_match (strip line) with
  | Some (ds, _) => int_accepts ds
  | None => true
  end.

(** [int] accepts the step number of every numbered line of the text. *)
Definition step_numbers_accepted (text : str) : bool :=
  forallb step_number_accepted (splitlines text).

End IntLimit.

(** The functions that call [int], directly or not, with its
    [ValueError]: [None] stands for the exception, which none of them
    catches.  Apart from that they are the functions above, line by
    line. *)

Module Raising.
Section Raising.
Context {db : UnicodeDB} {so : SetOrder} {lim : IntLimit}.

(** [int(ds)] for a run of decimal digits. *)
Definition int (ds : str) : option N :=
  if int_accepts ds then Some (int_of_digits ds) else None.

Definition numbering_step (st : list StructuralWarning * option N)
    (line : str) : option (list StructuralWarning * option N) :=
  let '(warnings, prev_num) := st in
  match _STEP_NUMBER_RE_match (strip line) with
  | Some (ds, _) =>
      num ← int ds;
      Some
        (if num =? 1 then (warnings, Some 1)
         else
           match prev_num with
           | Some prev =>
               if prev + 1 <? num
               then (warnings ++
                       ((λ missing, numbering_gap_warning missing prev num)
                          <$> range (prev + 1) num),
                     Some num)
               else (warnings, Some num)
           | None => (warnings, Some num)
           end)
  | None => Some st
  end.

(** The loop stops at the first line whose number [int] refuses. *)
Definition _detect_numbering_gaps (text : str)
    : option (list StructuralWarning) :=
  fst <$> foldl (λ st line, st ≫= λ st, numbering_step st line)
                (Some ([], None)) (splitlines text).

Definition _validate_structure (old_text new_text : str)
    : option (list StructuralWarning) :=
  old_gaps ← _detect_numbering_gaps old_text;
  let old_warnings := old_gaps ++ _detect_missing_sections old_text in
  new_gaps ← _detect_numbering_gaps new_text;
  let new_warnings := new_gaps ++ _detect_missing_sections new_text in
  let old_msgs : gset str := list_to_set (message <$> old_warnings) in
  let new_only :=
    List.filter (λ w, bool_decide (message w ∉ old_msgs)) new_warnings in
  Some (new_only ++ _detect_missing_prerequisites old_text new_text).

Definition compare (old_text new_text : str) : option ComparisonResult :=
  let '(old_norm_map, old_norm_list) := build_norm old_text in
  let '(new_norm_map, new_norm_list) := build_norm new_text in
  let old_counts : gmultiset str := list_to_set_disj old_norm_list in
  let new_counts : gmultiset str := list_to_set_disj new_norm_list in
  let all_norms : gset str :=
    list_to_set old_norm_list ∪ list_to_set new_norm_list in
  let '(added, removed) :=
    foldl (diff_step old_norm_map new_norm_map old_counts new_counts)
          ([], []) (sorted all_norms) in
  warnings ← _validate_structure old_text new_text;
  let has_changes :=
    match added, removed with [], [] => false | _, _ => true end in
  let all_sevs :=
    (severity <$> added) ++ (severity <$> removed) ++ (wseverity <$> warnings) in
  let max_severity :=
    match all_sevs with
    | [] => None
    | s :: rest => Some (max_by_key _SEVERITY_ORDER s rest)
    end in
  Some {| has_changes := has_changes;
          added := sort_by_key (_skey severity) added;
          removed := sort_by_key (_skey severity) removed;
          structural_warnings := sort_by_key (_skey wseverity) warnings;
          max_severity := max_severity |}.

End Raising.
End Raising.

(** ** Concrete instances of the parameters *)

(** A database in which only the ASCII letters are cased and only the
    ASCII digits are decimal. *)
Definition ascii_db : UnicodeDB :=
  {| lower s := List.map ascii_lower_char s;
     decimal := ascii_decimal;
     lower_ascii := λ s _, eq_refl;
     decimal_ascii := λ c _, eq_refl |}.

(** Two iteration orders for sets: ascending and descending. *)
Definition ascending_order : SetOrder :=
  {| set_iter X := merge_sort (λ a b, Is_true (str_leb a b)) (elements X);
     set_iter_perm X := merge_sort_Permutation _ (elements X) |}.

Definition descending_order : SetOrder :=
  {| set_iter X :=
       reverse (merge_sort (λ a b, Is_true (str_leb a b)) (elements X));
     set_iter_perm X :=
       transitivity (reverse_Permutation _)
                    (merge_sort_Permutation _ (elements X)) |}.

(** ** Notions used to state the properties *)

Section Statements.
Context {db : UnicodeDB}.

(** The key under which the diff counts a line, if it counts it. *)
Definition line_key (line : str) : option str :=
  if _is_noise line then None
  else match _normalize_line line with [] => None | n => Some n end.

(** The lines of [text] that the diff counts under the key [k]. *)
Definition counted_as (k : str) (line : str) : bool :=
  negb (_is_noise line) && bool_decide (_normalize_line line = k).

Definition key_count (k : str) (text : str) : nat :=
  length (List.filter (counted_as k) (splitlines text)).

(** The stripped raw text of the first such line. *)
Definition first_seen (k : str) (text : str) : option str :=
  strip <$> head (List.filter (counted_as k) (splitlines text)).

(** The entries of a list that stand for the key [k]. *)
Definition entries_for (k : str) (l : list ChangeEntry) : list ChangeEntry :=
  List.filter (λ e, bool_decide (_normalize_line (text e) = k)) l.

(** A list is in descending order of severity. *)
Definition severity_descending {A} (sev : A → Severity) (l : list A) : Prop :=
  ∀ i j x y, (i < j)%nat → l !! i = Some x → l !! j = Some y →
             (_SEVERITY_ORDER (sev y) ≤ _SEVERITY_ORDER (sev x))%Z.

(** Every [HIGH] element stands before every element of lower severity. *)
Definition high_first {A} (sev : A → Severity) (l : list A) : Prop :=
  ∀ i j x y, l !! i = Some x → l !! j = Some y →
             sev x = HIGH → sev y ≠ HIGH → (i < j)%nat.

(** One cosmetic edit, following the wording of the specification:
    a bullet glyph replaced by another, an arrow glyph replaced by
    another, a character replaced by one with the same lower case, a
    white-space character replaced by another, or a run of white space
    made longer or shorter. *)
Inductive spec_cosmetic_edit : str → str → Prop :=
| edit_bullet a b b' c :
    b ∈ bullet_chars → b' ∈ bullet_chars →
    spec_cosmetic_edit (a ++ b :: c) (a ++ b' :: c)
| edit_arrow a b b' c :
    b ∈ arrow_chars → b' ∈ arrow_chars →
    spec_cosmetic_edit (a ++ b :: c) (a ++ b' :: c)
| edit_case a b b' c :
    lower [b] = lower [b'] →
    spec_cosmetic_edit (a ++ b :: c) (a ++ b' :: c)
| edit_space a w w' c :
    isspace w = true → isspace w' = true →
    spec_cosmetic_edit (a ++ w :: c) (a ++ w' :: c)
| edit_space_longer a w w' c :
    isspace w = true → isspace w' = true →
    spec_cosmetic_edit (a ++ w :: c) (a ++ w :: w' :: c)
| edit_space_shorter a w w' c :
    isspace w = true → isspace w' = true →
    spec_cosmetic_edit (a ++ w :: w' :: c) (a ++ w :: c).

End Statements.

(** ** Example documents *)

Definition nl : str := [10].

Definition choose_save_x3 : str :=
  u "Choose Save." ++ nl ++ u "Choose Save." ++ nl ++ u "Choose Save.".
Definition choose_save_x1 : str := u "Choose Save.".

Definition steps_1_2_3 : str := u "1. a" ++ nl ++ u "2. b" ++ nl ++ u "3. c".
Definition steps_1_2_4 : str := u "1. a" ++ nl ++ u "2. b" ++ nl ++ u "4. c".

Definition admin_access : str := u "You must have admin access.".

(** A line of content whose key sorts before that of the instruction
    that follows it. *)
Definition remark_then_instruction : str :=
  u "A remark" ++ nl ++ u "Choose Save.".

Definition two_prerequisites : str := u "You must a" ++ nl ++ u "You need b".

(** Two renderings of the same two lines: other bullet and arrow
    glyphs, another letter case and other white space, and a blank
    line between the lines. *)
Definition rendering_a : str :=
  [8226] ++ u " Choose  Save " ++ [8594] ++ u " Exit" ++ nl ++ nl
  ++ u "- Done".
Definition rendering_b : str :=
  u "* choose Save " ++ [9658] ++ u " Exit" ++ nl ++ [183] ++ u " Done  ".

(** A table-separator line, the same line with its first dash changed
    to an asterisk, and with its white space shortened. *)
Definition dashes_two_spaces : str := u "-  -".
Definition star_two_spaces : str := u "*  -".
Definition dashes_one_space : str := u "- -".

(** A line, and the line with its space changed to a line feed. *)
Definition words_one_line : str := u "a b".
Definition words_two_lines : str := u "a" ++ nl ++ u "b".

(** A line with a dash inside, and with the dash changed to an
    asterisk. *)
Definition dash_inside : str := u "a - b".
Definition star_inside : str := u "a * b".

(** A word that ends in the Greek capital sigma, and in the small
    sigma. *)
Definition sigma_capital : str := u "a" ++ [931].
Definition sigma_small : str := u "a" ++ [963].

(** A numbered line whose step number has 4301 digits, and the line
    with one more space. *)
Definition step_of_4301_digits : str := replicate 4301 57 ++ u ". a".
Definition step_of_4301_digits_spaced : str :=
  replicate 4301 57 ++ u ".  a".

(** ** Snapshot file names ([main.py])

    The monitor stores the text of a page in a file named after the
    page and finds it again in the next run through the name that
    [extract_page_name_from_filename] recovers from the file name. *)

Section FileNames.
Context {db : UnicodeDB}.

(** The characters that [sanitize_filename] removes: the angle
    brackets, colon, double quote, slash, backslash, bar, question mark
    and asterisk. *)
Definition forbidden_chars : str := [60; 62; 58; 34; 47; 92; 124; 63; 42].

(** [sanitize_filename(page_name, page_number)]; the page numbers of
    [main] are strings ("9", "9.1"). *)
Definition sanitize_filename (page_name : str) (page_number : option str) : str :=
  let safe_name := List.filter (λ c, negb (in_chars forbidden_chars c)) page_name in
  let safe_name := (λ c, if c =? 32 then 95 else c) <$> safe_name in
  let safe_name := take 100 safe_name in
  match page_number with
  | Some n => n ++ [95] ++ safe_name
  | None => safe_name
  end.

(** [s.endswith(suffix)] *)
Definition endswith (s suffix : str) : bool :=
  startswith (reverse s) (reverse suffix).

(** The match of [^\d+(\.\d+)*_] at the start of a string: the rest
    after the match.  [after_dot] holds when a dot has just been read
    and a digit must follow; otherwise at least one digit of the
    current run has been read. *)
Fixpoint page_number_go (after_dot : bool) (s : str) : option str :=
  match s with
  | [] => None
  | c :: s' =>
      if is_digit c then page_number_go false s'
      else if after_dot then None
      else if c =? 46 then page_number_go true s'
      else if c =? 95 then Some s'
      else None
  end.

Definition _PAGE_NUMBER_RE_match (s : str) : option str :=
  match s with
  | c :: s' => if is_digit c then page_number_go false s' else None
  | [] => None
  end.

Definition extract_page_name_from_filename (filename : str) : str :=
  let name :=
    if endswith filename (u ".txt")
    then take (length filename - 4) filename
    else filename in
  let name := default name (_PAGE_NUMBER_RE_match name) in
  lower (strip ((λ c, if c =? 95 then 32 else c) <$> name)).

Definition normalize_page_name (page_name : str) : str :=
  lower (strip page_name).

(** Strings of the form [\d+(\.\d+)*]: runs of digits separated by
    single dots. *)
Fixpoint dotted_number_go (after_dot : bool) (s : str) : bool :=
  match s with
  | [] => negb after_dot
  | c :: s' =>
      if is_digit c then dotted_number_go false s'
      else if after_dot then false
      else if c =? 46 then dotted_number_go true s'
      else false
  end.

Definition dotted_number (s : str) : bool :=
  match s with
  | c :: s' => is_digit c && dotted_number_go false s'
  | [] => false
  end.

End FileNames.

(** ** Further notions used to state properties *)

Section MoreStatements.
Context {db : UnicodeDB}.

(** The step number of a line, if it has one. *)
Definition step_number (line : str) : option N :=
  (λ m, int_of_digits m.1) <$> _STEP_NUMBER_RE_match (strip line).

(** The step numbers of a text, in the order of its lines. *)
Definition step_numbers (text : str) : list N :=
  omap step_number (splitlines text).

(** The triples [(missing, prev, num)] for a sequence of step numbers
    read after the number [prev]. *)
Fixpoint numbering_gaps (prev : option N) (nums : list N) : list (N * N * N) :=
  match nums with
  | [] => []
  | num :: nums' =>
      match prev with
      | Some p =>
          if negb (num =? 1) && (p + 1 <? num)
          then ((λ missing, (missing, p, num)) <$> range (p + 1) num)
          else []
      | None => []
      end ++ numbering_gaps (Some num) nums'
  end.

(** The warning for a triple [(missing, prev, num)]. *)
Definition gap_warning (g : N * N * N) : StructuralWarning :=
  numbering_gap_warning g.1.1 g.1.2 g.2.

(** The number of lines of a text that the diff counts. *)
Definition counted_lines (text : str) : nat :=
  length (omap line_key (splitlines text)).

End MoreStatements.

(** Two lines in both orders. *)
Definition lines_b_a : str := u "Open the page." ++ nl ++ u "Choose Save.".
Definition lines_a_b : str := u "Choose Save." ++ nl ++ u "Open the page.".

(** A menu path with two renderings of its arrow. *)
Definition menu_spaced : str := u "File  " ++ [8594] ++ u "  Save".
Definition menu_tight : str := u "File" ++ [187] ++ u "Save".

(** A page name with its page number, as [main] has them. *)
Definition page_name_ex : str := u "Standard Role Collections".
Definition page_number_ex : str := u "9.1".

(** ** Cosmetic changes of a line

    What the specification calls a cosmetic difference, line by line:
    another glyph for the leading bullet or for an arrow, another
    letter case, and other white space. *)

Section Plain.
Context {db : UnicodeDB}.

(** The characters that neither the patterns of [_normalize_line] nor
    its replacement text mention: no white space, no decimal digit, no
    bullet, no arrow, and none of the full stop, the closing
    parenthesis and the greater-than sign. *)
Definition plain (c : char) : bool :=
  negb (isspace c) && negb (is_digit c)
  && negb (in_chars (bullet_chars ++ arrow_chars ++ [46; 41; 62]) c).

End Plain.

(** Two facts about the Unicode database, both true of Python's: no
    white-space character and no arrow is a decimal digit. *)
Class RegularDB (db : UnicodeDB) := {
  space_not_decimal : ∀ c, isspace c = true → decimal c = None;
  arrow_not_decimal : ∀ c, in_chars arrow_chars c = true → decimal c = None;
}.

(** A case folding: a map on characters that [str.lower] absorbs
    wherever the characters stand, and that moves plain characters
    only, to plain characters.  Changing the case of a letter is
    replacing it by a character with the same folding.  For Python's
    [str.lower], lower-casing the ASCII capitals is a case folding. *)
Class CaseFold (db : UnicodeDB) := {
  casefold : char → char;
  casefold_lower : ∀ s, lower (casefold <$> s) = lower s;
  casefold_plain :
    ∀ c, casefold c ≠ c → plain c = true ∧ plain (casefold c) = true;
}.

Section Cosmetic.
Context {db : UnicodeDB} {cf : CaseFold db}.

(** One cosmetic change of a line: another glyph for the bullet that
    starts the line, another glyph for an arrow, another case for a
    letter, another white-space character, a run of white space made
    longer or shorter by one character, and white space put around the
    line or taken from around it. *)
Inductive cosmetic_edit : str → str → Prop :=
| cosmetic_bullet ws b b' s :
    forallb isspace ws = true →
    in_chars bullet_chars b = true → in_chars bullet_chars b' = true →
    cosmetic_edit (ws ++ b :: s) (ws ++ b' :: s)
| cosmetic_arrow a x y s :
    in_chars arrow_chars x = true → in_chars arrow_chars y = true →
    cosmetic_edit (a ++ x :: s) (a ++ y :: s)
| cosmetic_case a x y s :
    casefold x = casefold y →
    cosmetic_edit (a ++ x :: s) (a ++ y :: s)
| cosmetic_space a w w' s :
    isspace w = true → isspace w' = true →
    cosmetic_edit (a ++ w :: s) (a ++ w' :: s)
| cosmetic_space_longer a w w' s :
    isspace w = true → isspace w' = true →
    cosmetic_edit (a ++ w :: s) (a ++ w :: w' :: s)
| cosmetic_space_shorter a w w' s :
    isspace w = true → isspace w' = true →
    cosmetic_edit (a ++ w :: w' :: s) (a ++ w :: s)
| cosmetic_margin ws s ws' :
    forallb isspace ws = true → forallb isspace ws' = true →
    cosmetic_edit s (ws ++ s ++ ws')
| cosmetic_margin_off ws s ws' :
    forallb isspace ws = true → forallb isspace ws' = true →
    cosmetic_edit (ws ++ s ++ ws') s.

(** A line of white space only, and the other lines of a text. *)
Definition blank (line : str) : bool := forallb isspace line.

Definition nonblank_lines (text : str) : list str :=
  List.filter (λ line, negb (blank line)) (splitlines text).

(** The cosmetic form of a line, which no cosmetic change alters: the
    line without the white space around it, with the first bullet
    glyph for a leading bullet, one space for every run of white
    space, the first arrow glyph for every arrow, and folded case. *)
Definition canon_arrow (c : char) : char :=
  if in_chars arrow_chars c then 8594 else c.

Definition canon_char (c : char) : char := casefold (canon_arrow c).

Definition canon_bullet (s : str) : str :=
  match s with
  | b :: s' => if in_chars bullet_chars b then 8226 :: s' else s
  | [] => []
  end.

Definition cosmetic_form (line : str) : str :=
  casefold <$> (canon_arrow <$> collapse_ws (canon_bullet (strip line))).

End Cosmetic.

(** *** Notions used in the proofs *)

Section ProofNotions.
Context {db : UnicodeDB}.

(** The string starts with white space, resp. with an arrow. *)
Definition starts_ws (s : str) : bool :=
  match s with c :: _ => isspace c | [] => false end.

Definition head_arrow (s : str) : bool :=
  match s with c :: _ => in_chars arrow_chars c | [] => false end.

(** The steps of [_normalize_line] on the stripped line: the removal
    of the bullet and of the step number, and all steps before
    [lower]. *)
Definition strip_markers (s : str) : str :=
  let s := default s (_BULLET_RE_match s) in
  default s (snd <$> _STEP_NUMBER_RE_match s).

Definition pre_lower (s : str) : str :=
  strip (collapse_ws (_ARROW_RE_sub (strip_markers s))).

End ProofNotions.

(** * Properties *)

(** ** The definitions on small inputs *)

Section Examples.
#[local] Existing Instance ascii_db.

Example splitlines_ex :
  splitlines (u "a" ++ [13; 10] ++ u "b" ++ [10; 10] ++ u "c" ++ [10])
  = [u "a"; u "b"; []; u "c"].
Proof. reflexivity. Qed.

Example strip_ex : strip ([9] ++ u " a b  " ++ [160]) = u "a b".
Proof. reflexivity. Qed.

Example str_of_int_ex : str_of_int 120 = u "120" ∧ str_of_int 0 = u "0".
Proof. split; reflexivity. Qed.

Example _BULLET_RE_ex :
  _BULLET_RE_match ([8226] ++ u "  Choose") = Some (u "Choose")
  ∧ _BULLET_RE_match (u "Choose") = None.
Proof. by vm_compute. Qed.

Example _STEP_NUMBER_RE_ex :
  _STEP_NUMBER_RE_match (u "12) Choose") = Some (u "12", u "Choose")
  ∧ _STEP_NUMBER_RE_match (u "12 Choose") = None
  ∧ int_of_digits (u "12") = 12.
Proof. by vm_compute. Qed.

Example _SEPARATOR_RE_ex :
  _SEPARATOR_RE_match (u "---") = true
  ∧ _SEPARATOR_RE_match (u "-=*_") = true
  ∧ _SEPARATOR_RE_match (u "--") = false
  ∧ _SEPARATOR_RE_match (u "--- x") = false.
Proof. by vm_compute. Qed.

Example _TABLE_SEP_RE_ex :
  _TABLE_SEP_RE_match (u "--  ---   -") = true
  ∧ _TABLE_SEP_RE_match (u "-- ---") = false
  ∧ _TABLE_SEP_RE_match (u "--") = false
  ∧ _TABLE_SEP_RE_match (u "--  ") = false.
Proof. by vm_compute. Qed.

Example _ARROW_RE_ex :
  _ARROW_RE_sub (u "a " ++ [8594] ++ u "  b" ++ [187; 9658] ++ u "c ")
  = u "a > b >  > c ".
Proof. by vm_compute. Qed.

Example _normalize_line_ex :
  _normalize_line (u "  3. Choose   Save " ++ [8594] ++ u " Exit ")
  = u "choose save > exit"
  ∧ _normalize_line (u " - 1) Open") = u "open"
  ∧ _normalize_line [8226] = [].
Proof. by vm_compute. Qed.

Example _classify_line_ex :
  _classify_line <$> [u "Prerequisites:"; u "Steps in the cockpit:";
                      u "2. Choose Save."; u "- You must have access.";
                      u "Note: optional"; u "The page opens.";
                      u "-----"; []]
  = [section_header; section_header; instruction; prerequisite;
     note; content; noise; noise].
Proof. by vm_compute. Qed.

Example _detect_missing_sections_ex :
  message <$> _detect_missing_sections (u "Procedure" ++ nl ++ u "Choose Save.")
  = [u "Prerequisites section may be missing from the document"]
  ∧ _detect_missing_sections (u "The page opens.") = [].
Proof. by vm_compute. Qed.

End Examples.

(** ** String primitives *)

Section TextLemmas.
Implicit Types (p : N → bool) (s t : list N) (c : N).

Lemma drop_while_idemp p s : drop_while p (drop_while p s) = drop_while p s.
Proof.
  induction s as [|c s IH]; simpl; [done|].
  destruct (p c) eqn:E; [done|]. simpl. by rewrite E.
Qed.

Lemma drop_while_snoc p s c :
  p c = false → drop_while p (s ++ [c]) = drop_while p s ++ [c].
Proof.
  intros Hc. induction s as [|a s IH]; simpl; [by rewrite Hc|].
  by destruct (p a).
Qed.

Lemma rstrip_by_cons p c s :
  p c = false → rstrip_by p (c :: s) = c :: rstrip_by p s.
Proof.
  intros Hc. unfold rstrip_by.
  by rewrite reverse_cons, drop_while_snoc, reverse_snoc.
Qed.

Lemma rstrip_by_idemp p s : rstrip_by p (rstrip_by p s) = rstrip_by p s.
Proof. unfold rstrip_by. by rewrite reverse_involutive, drop_while_idemp. Qed.

Lemma drop_while_head p s c t : drop_while p s = c :: t → p c = false.
Proof.
  induction s as [|a s IH]; simpl; [done|].
  destruct (p a) eqn:E; [done|]. by intros [= -> _].
Qed.

(** [s.strip().strip() == s.strip()] *)
Lemma strip_idemp s : strip (strip s) = strip s.
Proof.
  unfold strip, lstrip_by.
  destruct (drop_while isspace s) as [|c t] eqn:E; [done|].
  pose proof (drop_while_head _ _ _ _ E) as Hc.
  rewrite rstrip_by_cons by done. simpl. rewrite Hc.
  by rewrite rstrip_by_cons, rstrip_by_idemp.
Qed.

Lemma str_leb_refl s : str_leb s s = true.
Proof.
  induction s as [|c s IH]; simpl; [done|].
  by rewrite N.eqb_refl, IH, orb_true_r.
Qed.

Lemma str_leb_total s t : str_leb s t = true ∨ str_leb t s = true.
Proof.
  revert t. induction s as [|a s IH]; intros [|b t]; simpl; auto.
  destruct (N.ltb_spec a b), (N.ltb_spec b a), (N.eqb_spec a b),
    (N.eqb_spec b a); simpl; auto; lia.
Qed.

Lemma str_leb_antisym s t : str_leb s t = true → str_leb t s = true → s = t.
Proof.
  revert t. induction s as [|a s IH]; intros [|b t]; simpl; try done.
  destruct (N.ltb_spec a b), (N.ltb_spec b a), (N.eqb_spec a b),
    (N.eqb_spec b a); simpl; try done; try lia.
  intros ??. f_equal; auto.
Qed.

Lemma str_leb_trans s t v :
  str_leb s t = true → str_leb t v = true → str_leb s v = true.
Proof.
  revert t v. induction s as [|a s IH]; intros [|b t] [|c v]; simpl; try done.
  destruct (N.ltb_spec a b), (N.ltb_spec b c), (N.ltb_spec a c),
    (N.eqb_spec a b), (N.eqb_spec b c), (N.eqb_spec a c);
    simpl; try done; try lia.
  apply IH.
Qed.

End TextLemmas.

(** ** Sorting and maximum *)

Section BuiltinLemmas.
Context {A : Type}.
Implicit Types (le : A → A → bool) (key : A → Z) (l : list A).

Lemma stable_insert_perm le x l : stable_insert le x l ≡ₚ x :: l.
Proof.
  induction l as [|y l IH]; simpl; [done|].
  destruct (le x y); [done|]. by rewrite IH, Permutation_swap.
Qed.

Lemma stable_sort_perm le l : stable_sort le l ≡ₚ l.
Proof.
  induction l as [|x l IH]; simpl; [done|].
  by rewrite stable_insert_perm, IH.
Qed.

Lemma stable_sort_nil_inv le l : stable_sort le l = [] → l = [].
Proof.
  intros H. apply Permutation_nil_r. by rewrite <- H, stable_sort_perm.
Qed.

Lemma stable_insert_sorted le x l :
  (∀ a b, le a b = true ∨ le b a = true) →
  (∀ a b c, le a b = true → le b c = true → le a c = true) →
  StronglySorted (λ a b, le a b = true) l →
  StronglySorted (λ a b, le a b = true) (stable_insert le x l).
Proof.
  intros Htot Htrans. induction 1 as [|y l Hs IH Hy]; simpl.
  - repeat constructor.
  - destruct (le x y) eqn:E.
    + constructor; [by constructor|]. constructor; [done|].
      eapply Forall_impl; [exact Hy|]. intros z ?. by eapply Htrans.
    + constructor; [done|]. rewrite stable_insert_perm.
      constructor; [|done]. by destruct (Htot x y) as [?|?]; [congruence|].
Qed.

Lemma stable_sort_sorted le l :
  (∀ a b, le a b = true ∨ le b a = true) →
  (∀ a b c, le a b = true → le b c = true → le a c = true) →
  StronglySorted (λ a b, le a b = true) (stable_sort le l).
Proof.
  intros Htot Htrans. induction l as [|x l IH]; simpl; [constructor|].
  by apply stable_insert_sorted.
Qed.

(** A list whose elements are all in order already is left as it is. *)
Lemma stable_sort_id le l :
  StronglySorted (λ a b, le a b = true) l → stable_sort le l = l.
Proof.
  induction 1 as [|x l Hs IH Hx]; simpl; [done|]. rewrite IH.
  destruct Hx as [|y l Hy _]; simpl; [done|]. by rewrite Hy.
Qed.

Lemma sort_by_key_perm key l : sort_by_key key l ≡ₚ l.
Proof. apply stable_sort_perm. Qed.

Lemma sort_by_key_sorted key l :
  StronglySorted (λ a b, (key a ≤ key b)%Z) (sort_by_key key l).
Proof.
  unfold sort_by_key.
  assert (StronglySorted (λ a b, (key a <=? key b)%Z = true)
            (stable_sort (λ a b, (key a <=? key b)%Z) l)) as Hs.
  { apply stable_sort_sorted.
    - intros a b. rewrite !Z.leb_le. lia.
    - intros a b c. rewrite !Z.leb_le. lia. }
  induction Hs as [|x l' Hs IH Hx]; constructor; [done|].
  eapply Forall_impl; [exact Hx|]. intros y Hy. by apply Z.leb_le.
Qed.

Lemma sort_by_key_const key l z :
  Forall (λ a, key a = z) l → sort_by_key key l = l.
Proof.
  intros H. apply stable_sort_id.
  induction H as [|x l Hx Hl IH]; constructor; [done|].
  eapply Forall_impl; [exact Hl|]. intros y Hy. simpl in *.
  apply Z.leb_le. lia.
Qed.

(** Stability: the elements with a given key keep their order. *)
Lemma sort_by_key_stable key l z :
  List.filter (λ a, bool_decide (key a = z)) (sort_by_key key l)
  = List.filter (λ a, bool_decide (key a = z)) l.
Proof.
  unfold sort_by_key. induction l as [|x l IH]; [done|].
  cbn [stable_sort foldr List.filter]. rewrite <- IH. clear IH.
  fold (stable_sort (λ a b, (key a <=? key b)%Z) l).
  generalize (stable_sort (λ a b, (key a <=? key b)%Z) l). intros l'.
  induction l' as [|y l' IH]; [done|]. cbn [stable_insert].
  destruct (Z.leb_spec (key x) (key y)) as [|Hlt]; [done|].
  cbn [List.filter]. rewrite IH.
  repeat case_bool_decide; done || lia.
Qed.

Lemma max_by_key_spec key x l :
  max_by_key key x l ∈ x :: l ∧
  ∀ y, y ∈ x :: l → (key y ≤ key (max_by_key key x l))%Z.
Proof.
  unfold max_by_key. revert x.
  induction l as [|a l IH]; intros x; simpl.
  - split; [left|]. intros y ->%list_elem_of_singleton. lia.
  - destruct (Z.ltb_spec (key x) (key a)) as [Hlt|Hge].
    + destruct (IH a) as [Hin Hmax]. split; [by right|].
      pose proof (Hmax a ltac:(left)) as Ha.
      intros y [->|Hy]%elem_of_cons; [lia|by apply Hmax].
    + destruct (IH x) as [Hin Hmax]. split.
      { apply elem_of_cons in Hin as [->|Hin]; [left|by do 2 right]. }
      pose proof (Hmax x ltac:(left)) as Hx.
      intros y [->|[->|Hy]%elem_of_cons]%elem_of_cons; [done|lia|].
      apply Hmax. by right.
Qed.

End BuiltinLemmas.

Lemma elem_of_range a b m : m ∈ range a b ↔ a ≤ m < b.
Proof.
  unfold range. rewrite list_elem_of_fmap. split.
  - intros (i & -> & Hi%elem_of_seq). lia.
  - intros H. exists (N.to_nat (m - a)). split; [lia|].
    apply elem_of_seq. lia.
Qed.

Lemma NoDup_range a b : NoDup (range a b).
Proof.
  unfold range. apply NoDup_fmap_2; [|apply NoDup_seq].
  intros i j. lia.
Qed.

(** [sorted(X)] does not depend on the iteration order of [X]. *)
Lemma sorted_unique (so1 so2 : SetOrder) (X : gset (list N)) :
  sorted (H := so1) X = sorted (H := so2) X.
Proof.
  unfold sorted.
  assert (AntiSymm eq (λ a b : list N, str_leb a b = true)) as Hanti
    by (intros a b; apply str_leb_antisym).
  apply (StronglySorted_unique (λ a b, str_leb a b = true)).
  - apply stable_sort_sorted; [apply str_leb_total|apply str_leb_trans].
  - apply stable_sort_sorted; [apply str_leb_total|apply str_leb_trans].
  - by rewrite !stable_sort_perm, !set_iter_perm.
Qed.

Lemma sorted_perm `{SetOrder} (X : gset (list N)) : sorted X ≡ₚ elements X.
Proof. unfold sorted. by rewrite stable_sort_perm, set_iter_perm. Qed.

Lemma NoDup_sorted `{SetOrder} (X : gset (list N)) : NoDup (sorted X).
Proof. rewrite sorted_perm. apply NoDup_elements. Qed.

Lemma elem_of_sorted `{SetOrder} (X : gset (list N)) k : k ∈ sorted X ↔ k ∈ X.
Proof. by rewrite sorted_perm, elem_of_elements. Qed.

Lemma set_iter_empty `{SetOrder} : set_iter ∅ = [].
Proof.
  apply Permutation_nil_r. by rewrite set_iter_perm, elements_empty.
Qed.

Lemma set_iter_singleton `{SetOrder} (k : list N) : set_iter {[ k ]} = [k].
Proof.
  apply Permutation_singleton_r. by rewrite set_iter_perm, elements_singleton.
Qed.

(** ** Normalizer and classifier *)

Section NormalizerLemmas.
Context {db : UnicodeDB}.
Implicit Types (line k : list N).

Lemma _is_noise_strip line : _is_noise (strip line) = _is_noise line.
Proof. unfold _is_noise. by rewrite strip_idemp. Qed.

Lemma _normalize_line_strip line :
  _normalize_line (strip line) = _normalize_line line.
Proof. unfold _normalize_line. by rewrite strip_idemp. Qed.

Lemma _normalize_line_nonempty line :
  _normalize_line line ≠ [] → strip line ≠ [].
Proof. unfold _normalize_line. by destruct (strip line). Qed.

(** The guard [cat == 'noise'] of the diff loop never fires: the
    representative of a key is a line that passed the noise filter. *)
Lemma _classify_line_counted line :
  _is_noise line = false → _normalize_line line ≠ [] →
  _classify_line (strip line) ≠ noise.
Proof.
  intros Hnoise Hnorm. unfold _classify_line.
  rewrite strip_idemp, _is_noise_strip, Hnoise, _normalize_line_strip.
  pose proof (_normalize_line_nonempty _ Hnorm).
  destruct (strip line) as [|c s]; [done|].
  destruct (_normalize_line line) as [|c' n]; [done|].
  repeat case_match; done.
Qed.

Lemma line_key_Some line k :
  line_key line = Some k ↔ k ≠ [] ∧ counted_as k line = true.
Proof.
  unfold line_key, counted_as.
  destruct (_is_noise line); simpl; [naive_solver|].
  rewrite bool_decide_eq_true.
  destruct (_normalize_line line) as [|c n]; naive_solver.
Qed.

Lemma line_key_counted line k :
  k ≠ [] → counted_as k line = bool_decide (line_key line = Some k).
Proof.
  intros Hk. apply eq_true_iff_eq.
  rewrite bool_decide_eq_true, line_key_Some. naive_solver.
Qed.

Lemma norm_step_key m l line :
  norm_step (m, l) line =
    match line_key line with
    | Some n => (setdefault n (strip line) m, l ++ [n])
    | None => (m, l)
    end.
Proof.
  unfold norm_step, line_key.
  destruct (_is_noise line); [done|].
  by destruct (_normalize_line line).
Qed.

Lemma foldl_norm_step_list lines m l :
  (foldl norm_step (m, l) lines).2 = l ++ omap line_key lines.
Proof.
  revert m l. induction lines as [|line lines IH]; intros m l; cbn [foldl].
  - simpl. by rewrite app_nil_r.
  - rewrite norm_step_key. destruct (line_key line) as [n|] eqn:E;
      simpl; rewrite E.
    + by rewrite IH, <- app_assoc.
    + apply IH.
Qed.

Lemma foldl_norm_step_map lines m l k :
  (foldl norm_step (m, l) lines).1 !! k =
    match m !! k with
    | Some v => Some v
    | None =>
        strip <$> head (List.filter (λ x, bool_decide (line_key x = Some k)) lines)
    end.
Proof.
  revert m l. induction lines as [|line lines IH]; intros m l; cbn [foldl].
  - simpl. by destruct (m !! k).
  - rewrite norm_step_key. cbn [List.filter].
    destruct (line_key line) as [n|] eqn:E.
    + rewrite IH. unfold setdefault.
      destruct (decide (n = k)) as [->|Hne].
      * rewrite bool_decide_true by done.
        destruct (m !! k) eqn:Em; [by rewrite Em|].
        by rewrite lookup_insert_eq.
      * rewrite bool_decide_false by congruence.
        destruct (m !! n) eqn:En; [done|]. by rewrite lookup_insert_ne.
    + rewrite IH. by rewrite bool_decide_false by congruence.
Qed.

Lemma build_norm_list text :
  (build_norm text).2 = omap line_key (splitlines text).
Proof. unfold build_norm. by rewrite foldl_norm_step_list. Qed.

Lemma filter_counted_as k lines :
  k ≠ [] →
  List.filter (counted_as k) lines
  = List.filter (λ x, bool_decide (line_key x = Some k)) lines.
Proof.
  intros Hk. induction lines as [|x lines IH]; simpl; [done|].
  by rewrite IH, line_key_counted.
Qed.

Lemma build_norm_map text k :
  k ≠ [] → (build_norm text).1 !! k = first_seen k text.
Proof.
  intros Hk. unfold build_norm, first_seen.
  by rewrite foldl_norm_step_map, lookup_empty, filter_counted_as.
Qed.

Lemma multiplicity_omap_line_key k lines :
  k ≠ [] →
  multiplicity k (list_to_set_disj (omap line_key lines) : gmultiset (list N))
  = length (List.filter (counted_as k) lines).
Proof.
  intros Hk. induction lines as [|x lines IH]; [done|].
  cbn [List.filter omap list_omap]. fold (omap line_key lines).
  rewrite line_key_counted by done.
  destruct (line_key x) as [n|] eqn:E.
  - rewrite list_to_set_disj_cons, multiplicity_disj_union, IH.
    destruct (decide (k = n)) as [->|Hne].
    + by rewrite multiplicity_singleton_eq, bool_decide_true.
    + rewrite multiplicity_singleton_ne by done.
      by rewrite bool_decide_false by congruence.
  - by rewrite bool_decide_false.
Qed.

Lemma build_norm_count text k :
  k ≠ [] →
  multiplicity k (list_to_set_disj (build_norm text).2 : gmultiset (list N))
  = key_count k text.
Proof.
  intros Hk. rewrite build_norm_list. by apply multiplicity_omap_line_key.
Qed.

Lemma build_norm_keys_nonempty text k : k ∈ (build_norm text).2 → k ≠ [].
Proof.
  rewrite build_norm_list, list_elem_of_omap.
  intros (line & _ & Hkey). by apply line_key_Some in Hkey as [? _].
Qed.

Lemma first_seen_Some k text original :
  first_seen k text = Some original →
  ∃ line, line ∈ splitlines text ∧ counted_as k line = true
          ∧ original = strip line.
Proof.
  unfold first_seen.
  destruct (List.filter _ _) as [|line rest] eqn:E; [done|].
  intros [= <-]. exists line.
  assert (line ∈ List.filter (counted_as k) (splitlines text)) as Hin
    by (rewrite E; left).
  apply list_elem_of_In, filter_In in Hin as [Hin ?].
  by apply list_elem_of_In in Hin.
Qed.

Lemma first_seen_is_Some k text :
  (0 < key_count k text)%nat → is_Some (first_seen k text).
Proof.
  unfold key_count, first_seen.
  destruct (List.filter _ _); simpl; [lia|]. by eexists.
Qed.

End NormalizerLemmas.

(** ** The diff loop *)

Lemma elem_of_List_filter {A} (f : A → bool) (l : list A) x :
  x ∈ List.filter f l ↔ x ∈ l ∧ f x = true.
Proof. by rewrite !list_elem_of_In, filter_In. Qed.

Section ListLemmas.
Context {K E : Type} `{EqDecision K}.

Lemma filter_perm (f : E → bool) (l l' : list E) :
  l ≡ₚ l' → List.filter f l ≡ₚ List.filter f l'.
Proof.
  induction 1 as [|x l l' _ IH|x y l|l l' l'' _ IH1 _ IH2]; simpl.
  - done.
  - destruct (f x); by rewrite IH.
  - destruct (f x), (f y); try done. apply Permutation_swap.
  - by rewrite IH1.
Qed.

Lemma filter_all (f : E → bool) (l : list E) :
  (∀ e, e ∈ l → f e = true) → List.filter f l = l.
Proof.
  induction l as [|x l IH]; intros H; simpl; [done|].
  rewrite (H x) by left. f_equal. apply IH. intros e ?. apply H. by right.
Qed.

Lemma filter_none (f : E → bool) (l : list E) :
  (∀ e, e ∈ l → f e = false) → List.filter f l = [].
Proof.
  induction l as [|x l IH]; intros H; simpl; [done|].
  rewrite (H x) by left. apply IH. intros e ?. apply H. by right.
Qed.

(** When every element produced for a key carries that key, the
    elements with key [k] are those produced for [k]. *)
Lemma filter_flat_map_key (key : E → K) (f : K → list E) (keys : list K) k :
  NoDup keys →
  (∀ k' e, k' ∈ keys → e ∈ f k' → key e = k') →
  List.filter (λ e, bool_decide (key e = k)) (flat_map f keys)
  = if bool_decide (k ∈ keys) then f k else [].
Proof.
  induction 1 as [|k' keys Hnotin Hnodup IH]; intros Hkey; simpl; [done|].
  rewrite List.filter_app, IH
    by (intros k'' e ?; apply Hkey; by right).
  destruct (decide (k = k')) as [->|Hne].
  - rewrite (bool_decide_true (k' ∈ k' :: keys)) by left.
    rewrite (bool_decide_false (k' ∈ keys)) by done.
    rewrite app_nil_r. apply filter_all. intros e He.
    apply bool_decide_eq_true. apply Hkey; [left|done].
  - rewrite filter_none; simpl.
    + rewrite (bool_decide_ext (k ∈ keys) (k ∈ k' :: keys)); [done|].
      rewrite elem_of_cons. naive_solver.
    + intros e He. apply bool_decide_eq_false.
      rewrite (Hkey k' e); [congruence|left|done].
Qed.

Lemma StronglySorted_const (R : relation K) k (l : list K) :
  Reflexive R → Forall (eq k) l → StronglySorted R l.
Proof.
  intros Hrefl. induction 1 as [|x l <- Hl IH]; constructor; [done|].
  eapply Forall_impl; [exact Hl|]. by intros y <-.
Qed.

(** Elements produced key by key from a sorted list of keys are in
    the order of their keys, also after filtering. *)
Lemma sorted_filter_flat_map (R : relation K) (key : E → K)
    (f : K → list E) (P : E → bool) (keys : list K) :
  Reflexive R → StronglySorted R keys →
  (∀ k e, k ∈ keys → e ∈ f k → key e = k) →
  StronglySorted R (key <$> List.filter P (flat_map f keys)).
Proof.
  intros Hrefl. induction 1 as [|k keys Hs IH Hk]; intros Hkey; simpl.
  { constructor. }
  rewrite List.filter_app, fmap_app.
  assert (Forall (eq k) (key <$> List.filter P (f k))) as Hfirst.
  { apply Forall_fmap, Forall_forall. intros e [He _]%elem_of_List_filter.
    symmetry. apply Hkey; [left|done]. }
  apply StronglySorted_app_2.
  - intros x1 x2 Hx1 Hx2. rewrite Forall_forall in Hfirst, Hk.
    rewrite <- (Hfirst x1 Hx1).
    apply list_elem_of_fmap in Hx2 as (e & -> & [He _]%elem_of_List_filter).
    apply list_elem_of_In, in_flat_map in He as (k' & Hk' & He).
    apply list_elem_of_In in Hk', He.
    rewrite (Hkey k' e); [by apply Hk|by right|done].
  - by eapply StronglySorted_const.
  - apply IH. intros k' e ?. apply Hkey. by right.
Qed.

End ListLemmas.

Section DiffLemmas.
Context {db : UnicodeDB} {so : SetOrder}.
Implicit Types (om nm : gmap (list N) (list N)) (oc nc : gmultiset (list N)).

Lemma diff_step_app om nm oc nc a r k :
  diff_step om nm oc nc (a, r) k
  = (a ++ (diff_step om nm oc nc ([], []) k).1,
     r ++ (diff_step om nm oc nc ([], []) k).2).
Proof.
  unfold diff_step. repeat case_bool_decide; simpl; by rewrite ?app_nil_r.
Qed.

Lemma foldl_diff_step om nm oc nc keys a r :
  foldl (diff_step om nm oc nc) (a, r) keys
  = (a ++ flat_map (λ k, (diff_step om nm oc nc ([], []) k).1) keys,
     r ++ flat_map (λ k, (diff_step om nm oc nc ([], []) k).2) keys).
Proof.
  revert a r. induction keys as [|k keys IH]; intros a r; cbn [foldl flat_map].
  - by rewrite !app_nil_r.
  - by rewrite diff_step_app, IH, <- !app_assoc.
Qed.

(** A key with the same count on both sides changes nothing. *)
Lemma diff_step_equal om nm oc nc st k :
  multiplicity k oc = multiplicity k nc →
  diff_step om nm oc nc st k = st.
Proof.
  intros Heq. unfold diff_step. destruct st as [a r]. rewrite Heq.
  repeat case_bool_decide; done || lia.
Qed.

Lemma foldl_diff_step_equal om nm oc nc st keys :
  (∀ k, k ∈ keys → multiplicity k oc = multiplicity k nc) →
  foldl (diff_step om nm oc nc) st keys = st.
Proof.
  revert st. induction keys as [|k keys IH]; intros st H; cbn [foldl]; [done|].
  rewrite diff_step_equal by (apply H; left).
  apply IH. intros k' ?. apply H. by right.
Qed.

(** The lists [added] and [removed] before they are sorted. *)
Lemma compare_lists old_text new_text :
  let om := (build_norm old_text).1 in
  let nm := (build_norm new_text).1 in
  let oc : gmultiset (list N) := list_to_set_disj (build_norm old_text).2 in
  let nc : gmultiset (list N) := list_to_set_disj (build_norm new_text).2 in
  let keys := sorted (list_to_set (build_norm old_text).2
                      ∪ list_to_set (build_norm new_text).2) in
  let st := foldl (diff_step om nm oc nc) ([], []) keys in
  let r := compare old_text new_text in
  added r = sort_by_key (_skey severity) st.1 ∧
  removed r = sort_by_key (_skey severity) st.2 ∧
  structural_warnings r
    = sort_by_key (_skey wseverity) (_validate_structure old_text new_text) ∧
  has_changes r = match st.1, st.2 with [], [] => false | _, _ => true end ∧
  max_severity r =
    match (severity <$> st.1) ++ (severity <$> st.2)
          ++ (wseverity <$> _validate_structure old_text new_text) with
    | [] => None
    | s :: rest => Some (max_by_key _SEVERITY_ORDER s rest)
    end.
Proof.
  unfold compare.
  destruct (build_norm old_text) as [om ol], (build_norm new_text) as [nm nl].
  simpl. by destruct (foldl _ _ _) as [a r].
Qed.

End DiffLemmas.

(** ** The structural detectors *)

Section DetectorLemmas.
Context {db : UnicodeDB} {so : SetOrder}.
Implicit Types (P : StructuralWarning → Prop).

Lemma numbering_step_Forall P st line :
  (∀ missing prev num, P (numbering_gap_warning missing prev num)) →
  Forall P st.1 → Forall P (numbering_step st line).1.
Proof.
  intros HP Hst. destruct st as [ws prev]. unfold numbering_step.
  destruct (_STEP_NUMBER_RE_match (strip line)) as [[ds rest]|]; [|done].
  destruct (int_of_digits ds =? 1); [done|].
  destruct prev as [prev|]; [|done].
  destruct (prev + 1 <? int_of_digits ds); [|done].
  simpl. apply Forall_app. split; [done|].
  apply Forall_fmap, Forall_forall. intros m _. apply HP.
Qed.

Lemma _detect_numbering_gaps_Forall P text :
  (∀ missing prev num, P (numbering_gap_warning missing prev num)) →
  Forall P (_detect_numbering_gaps text).
Proof.
  intros HP. unfold _detect_numbering_gaps.
  assert (∀ lines st, Forall P st.1 →
            Forall P (foldl numbering_step st lines).1) as Hfold.
  { induction lines as [|line lines IH]; intros st Hst; cbn [foldl]; [done|].
    by apply IH, numbering_step_Forall. }
  by apply Hfold.
Qed.

Lemma _detect_missing_sections_Forall P text :
  (∀ label, P (missing_section_warning label)) →
  Forall P (_detect_missing_sections text).
Proof.
  intros HP. unfold _detect_missing_sections.
  destruct (negb _); [done|]. simpl.
  repeat (destruct (negb (contains _ _)); simpl);
    repeat constructor; apply HP.
Qed.

Lemma _detect_missing_prerequisites_Forall P old_text new_text :
  (∀ missing, P (missing_prerequisite_warning missing)) →
  Forall P (_detect_missing_prerequisites old_text new_text).
Proof.
  intros HP. unfold _detect_missing_prerequisites.
  apply Forall_fmap, Forall_forall. intros m _. apply HP.
Qed.

Lemma filter_Forall P (f : StructuralWarning → bool) l :
  Forall P l → Forall P (List.filter f l).
Proof.
  induction 1 as [|x l Hx Hl IH]; simpl; [done|].
  destruct (f x); [by constructor|done].
Qed.

Lemma _validate_structure_high old_text new_text :
  Forall (λ w, wseverity w = HIGH) (_validate_structure old_text new_text).
Proof.
  unfold _validate_structure. rewrite Forall_app. split.
  - apply filter_Forall, Forall_app. split.
    + by apply _detect_numbering_gaps_Forall.
    + by apply _detect_missing_sections_Forall.
  - by apply _detect_missing_prerequisites_Forall.
Qed.

(** All warnings have the same severity, so sorting them by severity
    keeps the order in which the detectors emitted them. *)
Lemma compare_structural_warnings old_text new_text :
  structural_warnings (compare old_text new_text)
  = _validate_structure old_text new_text.
Proof.
  destruct (compare_lists old_text new_text) as (_ & _ & -> & _).
  apply (sort_by_key_const _ _ (-3)%Z).
  eapply Forall_impl; [apply _validate_structure_high|].
  intros w Hw. unfold _skey. by rewrite Hw.
Qed.

Lemma elem_of__prereq_lines text k :
  k ∈ _prereq_lines text ↔
  ∃ line, line ∈ splitlines text ∧ _classify_line line = prerequisite
          ∧ _normalize_line line = k.
Proof.
  unfold _prereq_lines.
  assert (∀ lines (out : gset (list N)),
    k ∈ foldl (λ out line,
                 if bool_decide (_classify_line line = prerequisite)
                 then out ∪ {[ _normalize_line line ]} else out) out lines
    ↔ k ∈ out ∨ ∃ line, line ∈ lines ∧ _classify_line line = prerequisite
                        ∧ _normalize_line line = k) as Hfold.
  { induction lines as [|line lines IH]; intros out; cbn [foldl].
    - split; [by left|]. intros [?|(? & []%elem_of_nil & _)]; done.
    - rewrite IH. setoid_rewrite elem_of_cons. case_bool_decide.
      + rewrite elem_of_union, elem_of_singleton. naive_solver.
      + naive_solver. }
  rewrite Hfold. set_solver.
Qed.

(** With at most one removed prerequisite the iteration order of the
    set difference has no effect. *)
Lemma _validate_structure_order (so1 so2 : SetOrder) old_text new_text :
  (size (_prereq_lines old_text ∖ _prereq_lines new_text) ≤ 1)%nat →
  _validate_structure (so := so1) old_text new_text
  = _validate_structure (so := so2) old_text new_text.
Proof.
  intros Hsize. unfold _validate_structure, _detect_missing_prerequisites.
  do 2 f_equal.
  set (X := _ ∖ _) in *.
  pose proof (set_iter_perm (SetOrder := so1) X) as H1.
  pose proof (set_iter_perm (SetOrder := so2) X) as H2.
  unfold size, set_size in Hsize. simpl in Hsize.
  destruct (elements X) as [|x [|y l]]; simpl in Hsize; try lia.
  - apply Permutation_nil_r in H1, H2. congruence.
  - apply Permutation_singleton_r in H1, H2. congruence.
Qed.

End DetectorLemmas.

(** ** Properties of [compare] *)

Section CompareProperties.
Context {db : UnicodeDB} {so : SetOrder}.

Lemma sort_by_key_nil_iff {A} (key : A → Z) (l : list A) :
  sort_by_key key l = [] ↔ l = [].
Proof.
  split; [apply stable_sort_nil_inv|]. by intros ->.
Qed.

Lemma _validate_structure_same text : _validate_structure text text = [].
Proof.
  unfold _validate_structure, _detect_missing_prerequisites.
  rewrite difference_diag_L, set_iter_empty, app_nil_r.
  apply filter_none. intros w Hw. apply bool_decide_eq_false.
  intros Hnot. apply Hnot, elem_of_list_to_set, list_elem_of_fmap.
  by exists w.
Qed.

(** Without a refused conversion, comparing a text with itself reports
    no change: [has_changes] is false, and [added], [removed] and
    [structural_warnings] are empty. *)
Lemma compare_same_text (T : list N) :
  has_changes (compare T T) = false
  ∧ added (compare T T) = []
  ∧ removed (compare T T) = []
  ∧ structural_warnings (compare T T) = [].
Proof.
  destruct (compare_lists T T) as (Ha & Hr & _ & Hc & _).
  rewrite foldl_diff_step_equal in Ha, Hr, Hc by done.
  rewrite Ha, Hr, Hc, compare_structural_warnings.
  by rewrite _validate_structure_same.
Qed.

Lemma severity_descending_sorted {A} (sev : A → Severity) (l : list A) :
  severity_descending sev (sort_by_key (_skey sev) l).
Proof.
  pose proof (sort_by_key_sorted (_skey sev) l) as Hs.
  intros i j x y Hij Hi Hj.
  revert i j Hij Hi Hj.
  induction Hs as [|a l' Hs IH Ha]; intros i j Hij Hi Hj; [done|].
  destruct i as [|i], j as [|j]; simpl in *; try lia.
  - injection Hi as ->. rewrite Forall_forall in Ha.
    assert (y ∈ l') as Hy by (by eapply list_elem_of_lookup_2).
    specialize (Ha y Hy). unfold _skey in Ha. lia.
  - apply (IH i j); [lia|done..].
Qed.

Lemma severity_descending_high_first {A} (sev : A → Severity) (l : list A) :
  severity_descending sev l → high_first sev l.
Proof.
  intros Hd i j x y Hi Hj Hx Hy.
  destruct (decide (i < j)%nat) as [|Hge]; [done|].
  assert (i ≠ j) by (intros ->; congruence).
  specialize (Hd j i y x ltac:(lia) Hj Hi). rewrite Hx in Hd.
  destruct (sev y); simpl in Hd; done || lia.
Qed.

Lemma compare_max_severity (old_text new_text : list N) :
  let r := compare old_text new_text in
  let sevs := (severity <$> added r) ++ (severity <$> removed r)
              ++ (wseverity <$> structural_warnings r) in
  (max_severity r = None
     ↔ added r = [] ∧ removed r = [] ∧ structural_warnings r = [])
  ∧ (∀ s, max_severity r = Some s →
          s ∈ sevs
          ∧ ∀ s', s' ∈ sevs → (_SEVERITY_ORDER s' ≤ _SEVERITY_ORDER s)%Z).
Proof.
  destruct (compare_lists old_text new_text) as (Ha & Hr & Hw & _ & Hm).
  cbv zeta. rewrite Ha, Hr, Hw, Hm. clear Ha Hr Hw Hm.
  set (a := (foldl _ _ _).1). set (rm := (foldl _ _ _).2).
  set (w := _validate_structure _ _).
  assert ((severity <$> sort_by_key (_skey severity) a)
          ++ (severity <$> sort_by_key (_skey severity) rm)
          ++ (wseverity <$> sort_by_key (_skey wseverity) w)
          ≡ₚ (severity <$> a) ++ (severity <$> rm) ++ (wseverity <$> w))
    as Hperm by (by rewrite !sort_by_key_perm).
  split.
  - rewrite !sort_by_key_nil_iff.
    destruct a, rm, w; simpl; naive_solver.
  - intros s Hs.
    destruct ((severity <$> a) ++ (severity <$> rm) ++ (wseverity <$> w))
      as [|s0 rest] eqn:E; [done|].
    injection Hs as <-.
    destruct (max_by_key_spec _SEVERITY_ORDER s0 rest) as [Hin Hmax].
    split; [by rewrite Hperm|].
    intros s'. rewrite Hperm. apply Hmax.
Qed.

Lemma compare_sorted (old_text new_text : list N) :
  let r := compare old_text new_text in
  severity_descending severity (added r)
  ∧ severity_descending severity (removed r)
  ∧ severity_descending wseverity (structural_warnings r).
Proof.
  destruct (compare_lists old_text new_text) as (Ha & Hr & Hw & _).
  cbv zeta. rewrite Ha, Hr, Hw.
  repeat split; apply severity_descending_sorted.
Qed.

(** C10. Every warning of the three detectors has severity [HIGH], and
    a result with a structural warning has [max_severity] [HIGH]. *)
Theorem structural_warnings_high (old_text new_text text : list N) :
  Forall (λ w, wseverity w = HIGH) (_detect_numbering_gaps text)
  ∧ Forall (λ w, wseverity w = HIGH) (_detect_missing_sections text)
  ∧ Forall (λ w, wseverity w = HIGH)
      (_detect_missing_prerequisites old_text new_text)
  ∧ (structural_warnings (compare old_text new_text) ≠ [] →
     max_severity (compare old_text new_text) = Some HIGH).
Proof.
  split; [by apply _detect_numbering_gaps_Forall|].
  split; [by apply _detect_missing_sections_Forall|].
  split; [by apply _detect_missing_prerequisites_Forall|].
  intros Hne.
  destruct (compare_max_severity old_text new_text) as [Hnone Hsome].
  cbv zeta in *.
  destruct (max_severity (compare old_text new_text)) as [s|] eqn:E.
  - destruct (Hsome s eq_refl) as [_ Hmax].
    pose proof (_validate_structure_high old_text new_text) as Hhigh.
    rewrite <- compare_structural_warnings in Hhigh.
    destruct (structural_warnings (compare old_text new_text))
      as [|w ws] eqn:Ew; [done|].
    apply Forall_cons in Hhigh as [Hw _].
    assert (_SEVERITY_ORDER HIGH ≤ _SEVERITY_ORDER s)%Z as Hle.
    { apply Hmax. rewrite !elem_of_app, fmap_cons, Hw. do 2 right. left. }
    destruct s; simpl in Hle; done || lia.
  - destruct Hnone as [Hnone _]. by destruct (Hnone eq_refl) as (_ & _ & ?).
Qed.

(** C7. Suppression: a warning of the numbering-gap and missing-section
    detectors on the new text is kept exactly when no warning of these
    detectors on the old text has its message; the warnings for removed
    prerequisites are all kept, after the others. *)
Theorem suppression_policy (old_text new_text : list N) :
  let r := compare old_text new_text in
  let old_warnings :=
    _detect_numbering_gaps old_text ++ _detect_missing_sections old_text in
  let new_warnings :=
    _detect_numbering_gaps new_text ++ _detect_missing_sections new_text in
  structural_warnings r
    = List.filter
        (λ w, bool_decide (message w ∉ message <$> old_warnings)) new_warnings
      ++ _detect_missing_prerequisites old_text new_text
  ∧ (∀ w, w ∈ new_warnings →
       (w ∈ structural_warnings r
        ↔ ¬ ∃ w', w' ∈ old_warnings ∧ message w' = message w))
  ∧ (∀ w, w ∈ _detect_missing_prerequisites old_text new_text →
          w ∈ structural_warnings r).
Proof.
  cbv zeta. rewrite compare_structural_warnings.
  set (old_warnings := _detect_numbering_gaps old_text ++ _).
  set (new_warnings := _detect_numbering_gaps new_text ++ _).
  assert (_validate_structure old_text new_text
          = List.filter
              (λ w, bool_decide (message w ∉ message <$> old_warnings))
              new_warnings
            ++ _detect_missing_prerequisites old_text new_text) as ->.
  { unfold _validate_structure. f_equal. apply filter_ext. intros w.
    apply bool_decide_ext. by rewrite elem_of_list_to_set. }
  split; [done|]. split.
  - intros w Hw. rewrite elem_of_app, elem_of_List_filter, bool_decide_eq_true.
    rewrite list_elem_of_fmap.
    assert (w ∉ _detect_missing_prerequisites old_text new_text) as Hnot.
    { intros Hin.
      assert (type w ≠ MISSING_PREREQUISITE) as Hty.
      { apply elem_of_app in Hw as [Hw|Hw].
        - pose proof (_detect_numbering_gaps_Forall
                        (λ w, type w = NUMBERING_GAP) new_text
                        ltac:(done)) as H.
          rewrite Forall_forall in H. by rewrite (H w Hw).
        - pose proof (_detect_missing_sections_Forall
                        (λ w, type w = MISSING_SECTION) new_text
                        ltac:(done)) as H.
          rewrite Forall_forall in H. by rewrite (H w Hw). }
      pose proof (_detect_missing_prerequisites_Forall
                    (λ w, type w = MISSING_PREREQUISITE) old_text new_text
                    ltac:(done)) as H.
      rewrite Forall_forall in H. by apply Hty, H. }
    naive_solver.
  - intros w Hw. apply elem_of_app. by right.
Qed.

End CompareProperties.

(** ** Documents of ASCII characters

    On a document of ASCII characters the result of every function of
    the module is the same for all Unicode databases. *)

Section AsciiLemmas.
Context {db : UnicodeDB}.
Implicit Types (p : N → bool) (s line text cur : list N).

#[local] Abbreviation ascii := (Forall (λ c : N, is_ascii c = true)).

Lemma lower_ascii_Forall s : ascii s → lower s = List.map ascii_lower_char s.
Proof.
  intros H. apply lower_ascii, forallb_forall. intros c Hc.
  rewrite Forall_forall in H. by apply H, list_elem_of_In.
Qed.

Lemma ascii_drop_while p s : ascii s → ascii (drop_while p s).
Proof.
  induction 1 as [|c s Hc Hs IH]; simpl; [done|].
  destruct (p c); [done|by constructor].
Qed.

Lemma ascii_take_while p s : ascii s → ascii (take_while p s).
Proof.
  induction 1 as [|c s Hc Hs IH]; simpl; [done|].
  destruct (p c); [by constructor|done].
Qed.

Lemma ascii_rstrip_by p s : ascii s → ascii (rstrip_by p s).
Proof.
  intros H. unfold rstrip_by.
  by apply Forall_reverse, ascii_drop_while, Forall_reverse.
Qed.

Lemma ascii_strip s : ascii s → ascii (strip s).
Proof. intros H. by apply ascii_rstrip_by, ascii_drop_while. Qed.

Lemma ascii_collapse_ws s : ascii s → ascii (collapse_ws s).
Proof.
  induction 1 as [|c s Hc Hs IH]; simpl; [done|].
  destruct (isspace c); [|by constructor].
  destruct s as [|c' s]; [by repeat constructor|].
  destruct (isspace c'); [done|by constructor].
Qed.

Lemma ascii_arrow_sub_go skip pending s :
  ascii pending → ascii s → ascii (arrow_sub_go skip pending s).
Proof.
  intros Hp Hs. revert skip pending Hp.
  induction Hs as [|c s Hc Hs IH]; intros skip pending Hp; simpl; [done|].
  destruct (in_chars arrow_chars c).
  - repeat (constructor; [done|]). by apply IH.
  - destruct (isspace c).
    + destruct skip; apply IH; [done|].
      apply Forall_app. split; [done|by constructor].
    + apply Forall_app. split; [done|]. constructor; [done|]. by apply IH.
Qed.

Lemma ascii_splitlines_go cur s :
  ascii cur → ascii s → Forall ascii (splitlines_go cur s).
Proof.
  intros Hcur Hs. revert cur Hcur Hs.
  induction s as [s IH] using (induction_ltof1 _ (@length N)).
  unfold ltof in IH. intros cur Hcur Hs.
  destruct Hs as [|c s Hc Hs]; simpl.
  - destruct cur; [done|]. constructor; [|done]. by apply Forall_reverse.
  - destruct (is_linebreak c).
    + constructor; [by apply Forall_reverse|].
      destruct Hs as [|c' s' Hc' Hs']; [by apply IH; [simpl; lia|..]|].
      destruct ((c =? 13) && (c' =? 10)).
      * apply IH; [simpl; lia|done..].
      * apply IH; [simpl; lia|done|by constructor].
    + apply IH; [simpl; lia|by constructor|done].
Qed.

Lemma ascii_splitlines text : ascii text → Forall ascii (splitlines text).
Proof. intros H. by apply ascii_splitlines_go. Qed.

Lemma take_while_ext p q s :
  Forall (λ c, p c = q c) s → take_while p s = take_while q s.
Proof.
  induction 1 as [|c s Hc Hs IH]; simpl; [done|]. by rewrite Hc, IH.
Qed.

Lemma drop_while_ext p q s :
  Forall (λ c, p c = q c) s → drop_while p s = drop_while q s.
Proof.
  induction 1 as [|c s Hc Hs IH]; simpl; [done|]. by rewrite Hc, IH.
Qed.

Lemma is_digit_ascii c :
  is_ascii c = true → is_digit (db := db) c = is_digit (db := ascii_db) c.
Proof. intros H. unfold is_digit. by rewrite decimal_ascii. Qed.

Lemma _STEP_NUMBER_RE_match_ascii s :
  ascii s →
  _STEP_NUMBER_RE_match (db := db) s = _STEP_NUMBER_RE_match (db := ascii_db) s.
Proof.
  intros H. unfold _STEP_NUMBER_RE_match.
  assert (Forall (λ c, is_digit (db := db) c = is_digit (db := ascii_db) c)
            (drop_while isspace s)) as Hd.
  { eapply Forall_impl; [by apply ascii_drop_while|]. apply is_digit_ascii. }
  by rewrite (take_while_ext _ _ _ Hd), (drop_while_ext _ _ _ Hd).
Qed.

Lemma ascii__STEP_NUMBER_RE_match s ds rest :
  ascii s → _STEP_NUMBER_RE_match (db := db) s = Some (ds, rest) →
  ascii ds ∧ ascii rest.
Proof.
  intros H. unfold _STEP_NUMBER_RE_match.
  pose proof (ascii_take_while is_digit _ (ascii_drop_while isspace _ H)) as Ht.
  pose proof (ascii_drop_while is_digit _ (ascii_drop_while isspace _ H)) as Hr.
  destruct (take_while _ _) as [|d ds']; [done|].
  destruct (drop_while is_digit _) as [|c rest']; [done|].
  destruct (in_chars _ c); [|done]. intros [= <- <-].
  split; [done|]. apply ascii_drop_while. by apply Forall_cons in Hr as [_ ?].
Qed.

Lemma ascii__BULLET_RE_match s rest :
  ascii s → _BULLET_RE_match s = Some rest → ascii rest.
Proof.
  intros H. unfold _BULLET_RE_match.
  pose proof (ascii_drop_while isspace _ H) as Hd.
  destruct (drop_while isspace s) as [|c s']; [done|].
  destruct (in_chars _ c); [|done]. intros [= <-].
  apply ascii_drop_while. by apply Forall_cons in Hd as [_ ?].
Qed.

(** The argument of [lower] in [_normalize_line]. *)
Lemma ascii_normalize_steps s :
  ascii s →
  ascii (strip (collapse_ws (_ARROW_RE_sub
           (default (default s (_BULLET_RE_match s))
              (snd <$> _STEP_NUMBER_RE_match (db := db)
                         (default s (_BULLET_RE_match s))))))).
Proof.
  intros H.
  assert (ascii (default s (_BULLET_RE_match s))) as Hb.
  { destruct (_BULLET_RE_match s) eqn:E; [|done].
    by eapply ascii__BULLET_RE_match. }
  apply ascii_strip, ascii_collapse_ws, ascii_arrow_sub_go; [done|].
  destruct (_STEP_NUMBER_RE_match _) as [[ds rest]|] eqn:E; [|done].
  by eapply ascii__STEP_NUMBER_RE_match.
Qed.

Lemma _normalize_line_ascii line :
  ascii line →
  _normalize_line (db := db) line = _normalize_line (db := ascii_db) line.
Proof.
  intros H. unfold _normalize_line.
  pose proof (ascii_strip _ H) as Hs.
  destruct (strip line) as [|c s]; [done|].
  rewrite lower_ascii_Forall by by apply ascii_normalize_steps.
  by rewrite _STEP_NUMBER_RE_match_ascii
    by (destruct (_BULLET_RE_match (c :: s)) eqn:E;
        [by eapply ascii__BULLET_RE_match|done]).
Qed.

Lemma ascii_lower_char_ascii s : ascii s → ascii (List.map ascii_lower_char s).
Proof.
  induction 1 as [|c s Hc Hs IH]; simpl; constructor; [|done].
  unfold ascii_lower_char, is_ascii in *.
  destruct ((65 <=? c) && (c <=? 90)) eqn:E; [|done].
  apply andb_true_iff in E as [_ E%N.leb_le]. apply N.ltb_lt. lia.
Qed.

Lemma ascii__normalize_line line :
  ascii line → ascii (_normalize_line (db := db) line).
Proof.
  intros H. unfold _normalize_line.
  pose proof (ascii_strip _ H) as Hs.
  destruct (strip line) as [|c s]; [done|].
  pose proof (ascii_normalize_steps (c :: s) Hs) as Hn.
  rewrite lower_ascii_Forall by done. by apply ascii_lower_char_ascii.
Qed.

Lemma _classify_line_ascii line :
  ascii line →
  _classify_line (db := db) line = _classify_line (db := ascii_db) line.
Proof.
  intros H. unfold _classify_line.
  pose proof (ascii_strip _ H) as Hs.
  destruct (strip line) as [|c s]; [done|].
  rewrite _normalize_line_ascii by done.
  by rewrite lower_ascii_Forall by by apply ascii_drop_while.
Qed.

Lemma foldl_ext_Forall {S X} (f g : S → X → S) (P : X → Prop) l st :
  (∀ st x, P x → f st x = g st x) → Forall P l → foldl f st l = foldl g st l.
Proof.
  intros Hfg Hl. revert st.
  induction Hl as [|x l Hx Hl IH]; intros st; cbn [foldl]; [done|].
  by rewrite Hfg, IH.
Qed.

Lemma int_of_digits_ascii ds :
  ascii ds → int_of_digits (db := db) ds = int_of_digits (db := ascii_db) ds.
Proof.
  intros H. unfold int_of_digits. apply foldl_ext_Forall with (P := λ c, is_ascii c = true); [|done].
  intros acc c Hc. by rewrite decimal_ascii.
Qed.

Lemma numbering_step_ascii st line :
  ascii line →
  numbering_step (db := db) st line = numbering_step (db := ascii_db) st line.
Proof.
  intros H. unfold numbering_step. destruct st as [ws prev].
  pose proof (ascii_strip _ H) as Hs.
  rewrite <- _STEP_NUMBER_RE_match_ascii by done.
  destruct (_STEP_NUMBER_RE_match (strip line)) as [[ds rest]|] eqn:E; [|done].
  apply ascii__STEP_NUMBER_RE_match in E as [Hds _]; [|done].
  by rewrite int_of_digits_ascii.
Qed.

Lemma _detect_numbering_gaps_ascii text :
  ascii text →
  _detect_numbering_gaps (db := db) text
  = _detect_numbering_gaps (db := ascii_db) text.
Proof.
  intros H. unfold _detect_numbering_gaps. f_equal.
  eapply foldl_ext_Forall; [|by apply ascii_splitlines].
  intros st line Hline. by apply numbering_step_ascii.
Qed.

Lemma _detect_missing_sections_ascii text :
  ascii text →
  _detect_missing_sections (db := db) text
  = _detect_missing_sections (db := ascii_db) text.
Proof.
  intros H. unfold _detect_missing_sections. by rewrite lower_ascii_Forall.
Qed.

Lemma _prereq_lines_ascii text :
  ascii text →
  _prereq_lines (db := db) text = _prereq_lines (db := ascii_db) text.
Proof.
  intros H. unfold _prereq_lines.
  eapply foldl_ext_Forall; [|by apply ascii_splitlines].
  intros out line Hline. cbv beta.
  by rewrite _classify_line_ascii, _normalize_line_ascii.
Qed.

Lemma build_norm_ascii text :
  ascii text → build_norm (db := db) text = build_norm (db := ascii_db) text.
Proof.
  intros H. unfold build_norm.
  eapply foldl_ext_Forall; [|by apply ascii_splitlines].
  intros st line Hline. unfold norm_step.
  by rewrite _normalize_line_ascii.
Qed.

Lemma ascii_line_key line k :
  ascii line → line_key (db := db) line = Some k → ascii k.
Proof.
  intros H. unfold line_key. destruct (_is_noise line); [done|].
  pose proof (ascii__normalize_line _ H) as Hn.
  destruct (_normalize_line line); [done|]. by intros [= <-].
Qed.

(** Keys and representatives of an ASCII document are ASCII. *)
Lemma ascii_build_norm text :
  ascii text →
  Forall ascii (build_norm (db := db) text).2
  ∧ ∀ k v, k ≠ [] → (build_norm (db := db) text).1 !! k = Some v → ascii v.
Proof.
  intros H. pose proof (ascii_splitlines _ H) as Hl.
  rewrite Forall_forall in Hl. split.
  - rewrite build_norm_list. apply Forall_forall. intros k.
    rewrite list_elem_of_omap. intros (line & Hin & Hk).
    eapply ascii_line_key; [|done]. by apply Hl.
  - intros k v Hk. rewrite build_norm_map by done.
    intros (line & Hin & _ & ->)%first_seen_Some. by apply ascii_strip, Hl.
Qed.

Lemma diff_step_ascii om nm oc nc st k :
  ascii (default k (om !! k)) → ascii (default k (nm !! k)) →
  diff_step (db := db) om nm oc nc st k
  = diff_step (db := ascii_db) om nm oc nc st k.
Proof.
  intros Ho Hn. unfold diff_step. destruct st as [a r].
  by rewrite !_classify_line_ascii.
Qed.

Lemma foldl_ext_in {S X} (f g : S → X → S) l st :
  (∀ st x, x ∈ l → f st x = g st x) → foldl f st l = foldl g st l.
Proof.
  revert st. induction l as [|x l IH]; intros st Hfg; cbn [foldl]; [done|].
  rewrite Hfg by left. apply IH. intros st' y ?. apply Hfg. by right.
Qed.

Lemma _validate_structure_ascii (so : SetOrder) old_text new_text :
  ascii old_text → ascii new_text →
  _validate_structure (db := db) old_text new_text
  = _validate_structure (db := ascii_db) old_text new_text.
Proof.
  intros Ho Hn. unfold _validate_structure, _detect_missing_prerequisites.
  by rewrite !_detect_numbering_gaps_ascii, !_detect_missing_sections_ascii,
    !_prereq_lines_ascii by done.
Qed.

Lemma compare_ascii (so1 so2 : SetOrder) old_text new_text :
  ascii old_text → ascii new_text →
  (size (_prereq_lines (db := ascii_db) old_text
         ∖ _prereq_lines (db := ascii_db) new_text) ≤ 1)%nat →
  compare (db := db) (so := so1) old_text new_text
  = compare (db := ascii_db) (so := so2) old_text new_text.
Proof.
  intros Ho Hn Hsize. unfold compare.
  rewrite (_validate_structure_ascii so1) by done.
  rewrite (_validate_structure_order so1 so2) by done.
  destruct (ascii_build_norm _ Ho) as [Hok Hom].
  destruct (ascii_build_norm _ Hn) as [Hnk Hnm].
  rewrite <- !build_norm_ascii by done.
  pose proof (build_norm_keys_nonempty old_text) as Hoe.
  pose proof (build_norm_keys_nonempty new_text) as Hne.
  destruct (build_norm old_text) as [om ol], (build_norm new_text) as [nm nl].
  simpl in *. rewrite (sorted_unique so1 so2).
  erewrite foldl_ext_in; [done|].
  intros st k Hk. apply diff_step_ascii.
  - apply elem_of_sorted, elem_of_union in Hk.
    rewrite !elem_of_list_to_set in Hk. rewrite Forall_forall in Hok, Hnk.
    assert (ascii k ∧ k ≠ []) as [Hka Hke] by naive_solver.
    destruct (om !! k) as [v|] eqn:E; simpl; [by eapply Hom|done].
  - apply elem_of_sorted, elem_of_union in Hk.
    rewrite !elem_of_list_to_set in Hk. rewrite Forall_forall in Hok, Hnk.
    assert (ascii k ∧ k ≠ []) as [Hka Hke] by naive_solver.
    destruct (nm !! k) as [v|] eqn:E; simpl; [by eapply Hnm|done].
Qed.

End AsciiLemmas.

Lemma ascii_forallb (s : list N) :
  forallb is_ascii s = true → Forall (λ c, is_ascii c = true) s.
Proof.
  intros H. apply Forall_forall. intros c Hc%list_elem_of_In.
  revert c Hc. by apply forallb_forall.
Qed.

(** Evaluation of [compare] on an ASCII document with at most one
    removed prerequisite, for every database and iteration order. *)
Ltac compare_ascii_eval db so :=
  rewrite (compare_ascii (db := db) so ascending_order);
  [ vm_compute
  | apply ascii_forallb; vm_compute; reflexivity
  | apply ascii_forallb; vm_compute; reflexivity
  | vm_compute; lia ].

(** ** The count-aware diff *)

Section CountAware.
Context {db : UnicodeDB} {so : SetOrder}.
Implicit Types (k : list N) (old_text new_text : list N).

Lemma first_seen_key k text original :
  k ≠ [] → first_seen k text = Some original →
  _normalize_line original = k ∧ _classify_line original ≠ noise.
Proof.
  intros Hne (line & _ & Hc & ->)%first_seen_Some.
  unfold counted_as in Hc.
  apply andb_true_iff in Hc as [Hn%negb_true_iff Hk%bool_decide_eq_true].
  rewrite _normalize_line_strip. split; [done|].
  apply _classify_line_counted; [done|congruence].
Qed.

Lemma key_count_first_seen k text :
  first_seen k text = None → key_count k text = 0%nat.
Proof.
  unfold first_seen, key_count. by destruct (List.filter _ _).
Qed.

(** What one iteration of the loop appends to [removed] and [added]. *)
Lemma diff_step_removed old_text new_text k :
  k ≠ [] →
  (diff_step (build_norm old_text).1 (build_norm new_text).1
     (list_to_set_disj (build_norm old_text).2)
     (list_to_set_disj (build_norm new_text).2) ([], []) k).2
  = match first_seen k old_text with
    | Some original =>
        replicate (key_count k old_text - key_count k new_text)
          (change_entry original (_classify_line original))
    | None => []
    end.
Proof.
  intros Hk. unfold diff_step.
  rewrite !build_norm_count, !build_norm_map by done.
  destruct (first_seen k old_text) as [original|] eqn:E.
  - destruct (first_seen_key _ _ _ Hk E) as [_ Hcat]. simpl.
    rewrite (bool_decide_false (_classify_line original = noise)) by done.
    repeat case_bool_decide; simpl; try done;
      by replace (_ - _)%nat with 0%nat by lia.
  - rewrite (key_count_first_seen _ _ E).
    rewrite bool_decide_false by lia. by repeat case_bool_decide.
Qed.

Lemma diff_step_added old_text new_text k :
  k ≠ [] →
  (diff_step (build_norm old_text).1 (build_norm new_text).1
     (list_to_set_disj (build_norm old_text).2)
     (list_to_set_disj (build_norm new_text).2) ([], []) k).1
  = match first_seen k new_text with
    | Some original =>
        replicate (key_count k new_text - key_count k old_text)
          (change_entry original (_classify_line original))
    | None => []
    end.
Proof.
  intros Hk. unfold diff_step.
  rewrite !build_norm_count, !build_norm_map by done.
  destruct (first_seen k new_text) as [original|] eqn:E.
  - destruct (first_seen_key _ _ _ Hk E) as [_ Hcat]. simpl.
    rewrite (bool_decide_false (_classify_line original = noise)) by done.
    repeat case_bool_decide; simpl; try done;
      by replace (_ - _)%nat with 0%nat by lia.
  - rewrite (key_count_first_seen _ _ E).
    rewrite (bool_decide_false (_ < 0)%nat) by lia.
    by repeat case_bool_decide.
Qed.

Lemma key_count_not_in text k :
  k ≠ [] → k ∉ (build_norm text).2 → key_count k text = 0%nat.
Proof.
  intros Hk Hnotin. rewrite <- build_norm_count by done.
  apply not_elem_of_multiplicity. by rewrite elem_of_list_to_set_disj.
Qed.

(** The entries for a key in [removed] and in [added] as produced by
    the loop, up to their order. *)
Lemma compare_entries_for old_text new_text k :
  k ≠ [] →
  let r := compare old_text new_text in
  entries_for k (removed r)
    ≡ₚ match first_seen k old_text with
       | Some original =>
           replicate (key_count k old_text - key_count k new_text)
             (change_entry original (_classify_line original))
       | None => []
       end
  ∧ entries_for k (added r)
    ≡ₚ match first_seen k new_text with
       | Some original =>
           replicate (key_count k new_text - key_count k old_text)
             (change_entry original (_classify_line original))
       | None => []
       end.
Proof.
  intros Hk. cbv zeta.
  destruct (compare_lists old_text new_text) as (Ha & Hr & _).
  rewrite Ha, Hr, foldl_diff_step. cbn [fst snd app]. unfold entries_for.
  rewrite !(filter_perm _ _ _ (sort_by_key_perm _ _)).
  set (keys := sorted _).
  assert (∀ k', k' ∈ keys → k' ≠ []) as Hkeys.
  { intros k' Hin. apply elem_of_sorted, elem_of_union in Hin.
    rewrite !elem_of_list_to_set in Hin.
    destruct Hin; by eapply build_norm_keys_nonempty. }
  assert (k ∉ keys → key_count k old_text = 0%nat ∧ key_count k new_text = 0%nat)
    as Hout.
  { intros Hnotin. unfold keys in Hnotin.
    rewrite elem_of_sorted, elem_of_union, !elem_of_list_to_set in Hnotin.
    split; apply key_count_not_in; naive_solver. }
  rewrite !filter_flat_map_key; try apply NoDup_sorted.
  - case_bool_decide as Hin.
    + by rewrite diff_step_removed, diff_step_added.
    + destruct (Hout Hin) as [-> ->]. by repeat case_match.
  - intros k' e Hin. rewrite diff_step_added by auto.
    destruct (first_seen k' new_text) as [original|] eqn:E;
      [|by intros ?%elem_of_nil].
    intros [-> _]%elem_of_replicate. simpl.
    by eapply first_seen_key; [auto|].
  - intros k' e Hin. rewrite diff_step_removed by auto.
    destruct (first_seen k' old_text) as [original|] eqn:E;
      [|by intros ?%elem_of_nil].
    intros [-> _]%elem_of_replicate. simpl.
    by eapply first_seen_key; [auto|].
Qed.

(** Among the entries of one severity, [added] and [removed] follow
    the order of the sorted keys. *)
Lemma compare_equal_severity_order old_text new_text s :
  let r := compare old_text new_text in
  StronglySorted (λ a b, str_leb a b = true)
    ((λ e, _normalize_line (text e))
       <$> List.filter (λ e, bool_decide (severity e = s)) (added r))
  ∧ StronglySorted (λ a b, str_leb a b = true)
      ((λ e, _normalize_line (text e))
         <$> List.filter (λ e, bool_decide (severity e = s)) (removed r)).
Proof.
  cbv zeta.
  destruct (compare_lists old_text new_text) as (-> & -> & _).
  rewrite foldl_diff_step. cbn [fst snd app].
  assert (∀ l, List.filter (λ e, bool_decide (severity e = s))
                 (sort_by_key (_skey severity) l)
               = List.filter (λ e, bool_decide (severity e = s)) l) as Hst.
  { intros l.
    rewrite (filter_ext _ (λ e, bool_decide
               (_skey severity e = (_SEVERITY_ORDER s * -1)%Z))).
    - rewrite sort_by_key_stable. apply filter_ext. intros e.
      apply bool_decide_ext. unfold _skey.
      destruct (severity e), s; simpl; split; done || lia.
    - intros e. apply bool_decide_ext. unfold _skey.
      destruct (severity e), s; simpl; split; done || lia. }
  rewrite !Hst.
  set (keys := sorted _).
  assert (∀ k', k' ∈ keys → k' ≠ []) as Hkeys.
  { intros k' Hin. apply elem_of_sorted, elem_of_union in Hin.
    rewrite !elem_of_list_to_set in Hin.
    destruct Hin; by eapply build_norm_keys_nonempty. }
  assert (StronglySorted (λ a b, str_leb a b = true) keys) as Hsorted
    by (apply stable_sort_sorted; [apply str_leb_total|apply str_leb_trans]).
  assert (Reflexive (λ a b : list N, str_leb a b = true)) as Hrefl
    by (intros a; apply str_leb_refl).
  split; apply sorted_filter_flat_map; try done.
  - intros k e Hin. rewrite diff_step_added by auto.
    destruct (first_seen k new_text) as [original|] eqn:E;
      [|by intros ?%elem_of_nil].
    intros [-> _]%elem_of_replicate. simpl.
    by eapply first_seen_key; [auto|].
  - intros k e Hin. rewrite diff_step_removed by auto.
    destruct (first_seen k old_text) as [original|] eqn:E;
      [|by intros ?%elem_of_nil].
    intros [-> _]%elem_of_replicate. simpl.
    by eapply first_seen_key; [auto|].
Qed.

Lemma Permutation_replicate_r {A} (l : list A) n x :
  l ≡ₚ replicate n x → l = replicate n x.
Proof.
  intros H. symmetry. apply replicate_as_Forall. split.
  - by rewrite H, length_replicate.
  - rewrite H. apply Forall_forall. by intros y [-> _]%elem_of_replicate.
Qed.

(** C1. Count-aware diff: for a key [k], with [old_count] lines counted
    under [k] in the old text and [new_count] in the new text, [removed]
    holds [old_count - new_count] entries for [k] (none when the
    difference is negative) and [added] holds [new_count - old_count];
    each carries the stripped raw text of the first line counted under
    [k] on its side.  Three lines "Choose Save." against one give two
    removed entries with that text and nothing added. *)
Theorem compare_count_aware (old_text new_text : list N) :
  let r := compare old_text new_text in
  (∀ k, k ≠ [] →
     length (entries_for k (removed r))
       = (key_count k old_text - key_count k new_text)%nat
     ∧ length (entries_for k (added r))
       = (key_count k new_text - key_count k old_text)%nat
     ∧ (∀ e, e ∈ entries_for k (removed r) →
             first_seen k old_text = Some (text e))
     ∧ (∀ e, e ∈ entries_for k (added r) →
             first_seen k new_text = Some (text e)))
  ∧ (∀ e, e ∈ removed r ++ added r → _normalize_line (text e) ≠ [])
  ∧ text <$> removed (compare choose_save_x3 choose_save_x1)
      = [u "Choose Save."; u "Choose Save."]
  ∧ added (compare choose_save_x3 choose_save_x1) = [].
Proof.
  cbv zeta. split; [|split].
  - intros k Hk.
    destruct (compare_entries_for old_text new_text k Hk) as [Hr Ha].
    destruct (first_seen k old_text) as [o|] eqn:Eo,
      (first_seen k new_text) as [n|] eqn:En;
      try apply Permutation_replicate_r in Hr;
      try apply Permutation_replicate_r in Ha;
      try apply Permutation_nil_r in Hr;
      try apply Permutation_nil_r in Ha;
      rewrite Hr, Ha, ?length_replicate,
        ?(key_count_first_seen _ _ Eo), ?(key_count_first_seen _ _ En);
      repeat split; try done; try lia;
      intros e He; try (by apply elem_of_nil in He);
      by apply elem_of_replicate in He as [-> _].
  - intros e He.
    assert (∃ k, k ≠ [] ∧ _normalize_line (text e) = k) as (k & Hk & <-);
      [|done].
    destruct (compare_lists old_text new_text) as (Ha & Hr & _).
    rewrite Ha, Hr, foldl_diff_step in He. cbn [fst snd app] in He.
    rewrite !sort_by_key_perm in He.
    assert (∀ k', k' ∈ sorted (list_to_set (build_norm old_text).2
                              ∪ list_to_set (build_norm new_text).2)
                  → k' ≠ []) as Hkeys.
    { intros k' Hin. apply elem_of_sorted, elem_of_union in Hin.
      rewrite !elem_of_list_to_set in Hin.
      destruct Hin; by eapply build_norm_keys_nonempty. }
    apply elem_of_app in He as [He|He];
      apply list_elem_of_In, in_flat_map in He as (k & Hin%list_elem_of_In & He);
      apply list_elem_of_In in He; exists k; (split; [by apply Hkeys|]).
    + rewrite diff_step_removed in He by auto.
      destruct (first_seen k old_text) as [o|] eqn:E;
        [|by apply elem_of_nil in He].
      apply elem_of_replicate in He as [-> _].
      by eapply first_seen_key; [auto|].
    + rewrite diff_step_added in He by auto.
      destruct (first_seen k new_text) as [o|] eqn:E;
        [|by apply elem_of_nil in He].
      apply elem_of_replicate in He as [-> _].
      by eapply first_seen_key; [auto|].
  - by compare_ascii_eval db so.
Qed.

End CountAware.

(** ** Numbering gaps, removed prerequisites and iteration order *)

Section StructureProperties.
Context {db : UnicodeDB}.

(** C6. Numbering gaps: a line numbered 1 sets [prev_num] to 1 and
    emits nothing; a line numbered [num] after [prev] with
    [num > prev + 1] emits one [HIGH] [NUMBERING_GAP] warning for each
    integer strictly between [prev] and [num]; any other numbered line
    only updates [prev_num], and a line without a number changes
    nothing.  The steps 1, 2, 4 against 1, 2, 3 give the single warning
    "Step 3 is missing (numbering jumps from 2 to 4)". *)
Theorem numbering_gap_detection (so : SetOrder) :
  (∀ warnings prev line ds rest,
     _STEP_NUMBER_RE_match (strip line) = Some (ds, rest) →
     int_of_digits ds = 1 →
     numbering_step (warnings, prev) line = (warnings, Some 1))
  ∧ (∀ warnings prev line ds rest,
       _STEP_NUMBER_RE_match (strip line) = Some (ds, rest) →
       int_of_digits ds ≠ 1 → prev + 1 < int_of_digits ds →
       numbering_step (warnings, Some prev) line
       = (warnings ++
            ((λ missing,
                {| type := NUMBERING_GAP;
                   wseverity := HIGH;
                   message :=
                     u "Step " ++ str_of_int missing
                     ++ u " is missing (numbering jumps from "
                     ++ str_of_int prev ++ u " to "
                     ++ str_of_int (int_of_digits ds) ++ u ")" |})
               <$> range (prev + 1) (int_of_digits ds)),
          Some (int_of_digits ds)))
  ∧ (∀ warnings prev line ds rest,
       _STEP_NUMBER_RE_match (strip line) = Some (ds, rest) →
       int_of_digits ds ≠ 1 →
       (prev = None ∨ ∃ p, prev = Some p ∧ int_of_digits ds ≤ p + 1) →
       numbering_step (warnings, prev) line
       = (warnings, Some (int_of_digits ds)))
  ∧ (∀ st line,
       _STEP_NUMBER_RE_match (strip line) = None →
       numbering_step st line = st)
  ∧ (∀ text,
       _detect_numbering_gaps text
       = (foldl numbering_step ([], None) (splitlines text)).1)
  ∧ (∀ prev num missing,
       missing ∈ range (prev + 1) num ↔ prev < missing < num)
  ∧ (∀ prev num, NoDup (range (prev + 1) num))
  ∧ structural_warnings (compare steps_1_2_3 steps_1_2_4)
    = [ {| type := NUMBERING_GAP;
           wseverity := HIGH;
           message := u "Step 3 is missing (numbering jumps from 2 to 4)" |} ].
Proof.
  repeat apply conj.
  - intros warnings prev line ds rest Hm Hnum. unfold numbering_step.
    by rewrite Hm, Hnum.
  - intros warnings prev line ds rest Hm Hnum Hgap. unfold numbering_step.
    rewrite Hm. apply N.eqb_neq in Hnum. apply N.ltb_lt in Hgap.
    by rewrite Hnum, Hgap.
  - intros warnings prev line ds rest Hm Hnum Hprev. unfold numbering_step.
    rewrite Hm. apply N.eqb_neq in Hnum. rewrite Hnum.
    destruct Hprev as [->|(p & -> & Hle)]; [done|].
    by rewrite (proj2 (N.ltb_ge _ _) Hle).
  - intros [warnings prev] line Hm. unfold numbering_step. by rewrite Hm.
  - done.
  - intros prev num missing. rewrite elem_of_range. lia.
  - intros prev num. apply NoDup_range.
  - by compare_ascii_eval db so.
Qed.

Lemma missing_prerequisite_warning_inj :
  Inj (=) (=) missing_prerequisite_warning.
Proof.
  intros k1 k2 [= H]. by apply app_inv_tail in H.
Qed.

(** The warnings for removed prerequisites among the structural
    warnings of [compare]. *)
Lemma compare_missing_prerequisites (so : SetOrder) old_text new_text :
  List.filter (λ w, bool_decide (type w = MISSING_PREREQUISITE))
    (structural_warnings (compare old_text new_text))
  = missing_prerequisite_warning
      <$> set_iter (_prereq_lines old_text ∖ _prereq_lines new_text).
Proof.
  rewrite compare_structural_warnings. unfold _validate_structure.
  rewrite List.filter_app.
  rewrite filter_none; [rewrite filter_all; [done|]|].
  - intros w Hw. apply bool_decide_eq_true.
    pose proof (_detect_missing_prerequisites_Forall
                  (λ w, type w = MISSING_PREREQUISITE) old_text new_text
                  ltac:(done)) as H.
    rewrite Forall_forall in H. by apply H.
  - intros w [Hw _]%elem_of_List_filter. apply bool_decide_eq_false.
    apply elem_of_app in Hw as [Hw|Hw].
    + pose proof (_detect_numbering_gaps_Forall
                    (λ w, type w = NUMBERING_GAP) new_text ltac:(done)) as H.
      rewrite Forall_forall in H. by rewrite (H w Hw).
    + pose proof (_detect_missing_sections_Forall
                    (λ w, type w = MISSING_SECTION) new_text ltac:(done)) as H.
      rewrite Forall_forall in H. by rewrite (H w Hw).
Qed.

(** C8, as amended. Removed prerequisites: for every normalized line
    that some line classified [prerequisite] has in the old text and
    none has in the new text, exactly one [HIGH] [MISSING_PREREQUISITE]
    warning is emitted, with the message
    'Prerequisite removed: "{text}"' for that normalized line.  The
    normalized form keeps the words "you must": for the line
    "You must have admin access." it is "you must have admin access.",
    and this is the text of the message. *)
Theorem missing_prerequisite_detection (so : SetOrder)
    (old_text new_text : list N) :
  let r := compare old_text new_text in
  let missing := _prereq_lines old_text ∖ _prereq_lines new_text in
  let found :=
    List.filter (λ w, bool_decide (type w = MISSING_PREREQUISITE))
      (structural_warnings r) in
  found ≡ₚ (λ k, {| type := MISSING_PREREQUISITE;
                     wseverity := HIGH;
                     message := u "Prerequisite removed: "
                                ++ [34] ++ k ++ [34] |})
             <$> elements missing
  ∧ NoDup found
  ∧ (∀ k, k ∈ missing ↔
       (∃ line, line ∈ splitlines old_text
                ∧ _classify_line line = prerequisite
                ∧ _normalize_line line = k)
       ∧ ¬ (∃ line, line ∈ splitlines new_text
                    ∧ _classify_line line = prerequisite
                    ∧ _normalize_line line = k))
  ∧ _classify_line admin_access = prerequisite
  ∧ _normalize_line admin_access = u "you must have admin access."
  ∧ structural_warnings (compare admin_access [])
    = [ {| type := MISSING_PREREQUISITE;
           wseverity := HIGH;
           message := u "Prerequisite removed: " ++ [34]
                      ++ u "you must have admin access." ++ [34] |} ].
Proof.
  cbv zeta. rewrite compare_missing_prerequisites.
  assert (Forall (λ c, is_ascii c = true) admin_access) as Hascii
    by (apply ascii_forallb; vm_compute; reflexivity).
  repeat apply conj.
  - by rewrite set_iter_perm.
  - apply NoDup_fmap_2; [apply missing_prerequisite_warning_inj|].
    rewrite set_iter_perm. apply NoDup_elements.
  - intros k. by rewrite elem_of_difference, !elem_of__prereq_lines.
  - by rewrite _classify_line_ascii.
  - by rewrite _normalize_line_ascii.
  - by compare_ascii_eval db so.
Qed.

(** C9. The lists [added] and [removed] do not depend on the order in
    which sets are iterated, and among their entries of one severity
    the order is that of the sorted normalized keys; but the order of
    the warnings for removed prerequisites is the iteration order of a
    set: with two removed prerequisites, two iteration orders give the
    two warnings in opposite orders. *)
Theorem prerequisite_order_follows_set_iteration :
  (∀ (so1 so2 : SetOrder) old_text new_text,
     added (compare (so := so1) old_text new_text)
     = added (compare (so := so2) old_text new_text)
     ∧ removed (compare (so := so1) old_text new_text)
       = removed (compare (so := so2) old_text new_text))
  ∧ (∀ (so : SetOrder) old_text new_text s,
       StronglySorted (λ a b, str_leb a b = true)
         ((λ e, _normalize_line (text e))
            <$> List.filter (λ e, bool_decide (severity e = s))
                  (added (compare old_text new_text)))
       ∧ StronglySorted (λ a b, str_leb a b = true)
           ((λ e, _normalize_line (text e))
              <$> List.filter (λ e, bool_decide (severity e = s))
                    (removed (compare old_text new_text))))
  ∧ message <$> structural_warnings
                  (compare (so := ascending_order) two_prerequisites [])
    = [ u "Prerequisite removed: " ++ [34] ++ u "you must a" ++ [34];
        u "Prerequisite removed: " ++ [34] ++ u "you need b" ++ [34] ]
  ∧ message <$> structural_warnings
                  (compare (so := descending_order) two_prerequisites [])
    = [ u "Prerequisite removed: " ++ [34] ++ u "you need b" ++ [34];
        u "Prerequisite removed: " ++ [34] ++ u "you must a" ++ [34] ].
Proof.
  assert (Forall (λ c, is_ascii c = true) two_prerequisites) as Hascii
    by (apply ascii_forallb; vm_compute; reflexivity).
  repeat apply conj.
  - intros so1 so2 old_text new_text.
    destruct (compare_lists (so := so1) old_text new_text) as (-> & -> & _).
    destruct (compare_lists (so := so2) old_text new_text) as (-> & -> & _).
    by rewrite (sorted_unique so1 so2).
  - intros so old_text new_text s.
    apply (compare_equal_severity_order old_text new_text s).
  - rewrite compare_structural_warnings, _validate_structure_ascii by done.
    by vm_compute.
  - rewrite compare_structural_warnings, _validate_structure_ascii by done.
    by vm_compute.
Qed.

(** C2. [has_changes] is true exactly when [added] or [removed] is
    not empty; with both empty it is false whatever the structural
    warnings are, as for the steps 1, 2, 4 against 1, 2, 3, where there
    is a structural warning and no change. *)
Theorem has_changes_iff (so : SetOrder) (old_text new_text : list N) :
  let r := compare old_text new_text in
  (has_changes r = true ↔ added r ≠ [] ∨ removed r ≠ [])
  ∧ (added r = [] → removed r = [] → has_changes r = false)
  ∧ (structural_warnings (compare steps_1_2_3 steps_1_2_4) ≠ []
     ∧ has_changes (compare steps_1_2_3 steps_1_2_4) = false).
Proof.
  destruct (compare_lists old_text new_text) as (Ha & Hr & _ & Hc & _).
  cbv zeta. rewrite Ha, Hr, Hc, !sort_by_key_nil_iff.
  split; [|split].
  - destruct (foldl _ _ _) as [[|a added] [|r removed]]; simpl; naive_solver.
  - destruct (foldl _ _ _) as [[|a added] [|r removed]]; simpl; naive_solver.
  - by compare_ascii_eval db so.
Qed.

(** C3. Severity dominance: [max_severity] is absent exactly when the
    three lists are empty, and otherwise it is a severity occurring in
    them that no other one exceeds; each list is in descending order
    of severity, so its [HIGH] elements come first.  With an
    instruction removed and a note added [max_severity] is [HIGH], and
    a removed instruction stands before a removed line of content
    whose key sorts first. *)
Theorem severity_dominance (so : SetOrder) (old_text new_text : list N) :
  let r := compare old_text new_text in
  let sevs := (severity <$> added r) ++ (severity <$> removed r)
              ++ (wseverity <$> structural_warnings r) in
  (max_severity r = None
     ↔ added r = [] ∧ removed r = [] ∧ structural_warnings r = [])
  ∧ (∀ s, max_severity r = Some s →
          s ∈ sevs
          ∧ ∀ s', s' ∈ sevs → (_SEVERITY_ORDER s' ≤ _SEVERITY_ORDER s)%Z)
  ∧ (severity_descending severity (added r)
     ∧ severity_descending severity (removed r)
     ∧ severity_descending wseverity (structural_warnings r))
  ∧ (high_first severity (added r)
     ∧ high_first severity (removed r)
     ∧ high_first wseverity (structural_warnings r))
  ∧ (let r1 := compare (u "Choose Save.") (u "Note: see below") in
     category <$> removed r1 = [instruction]
     ∧ category <$> added r1 = [note]
     ∧ max_severity r1 = Some HIGH)
  ∧ (let r2 := compare remark_then_instruction [] in
     removed r2
     = [ {| text := u "Choose Save."; severity := HIGH;
            category := instruction |};
         {| text := u "A remark"; severity := MEDIUM;
            category := content |} ]).
Proof.
  cbv zeta.
  destruct (compare_max_severity old_text new_text) as [Hnone Hsome].
  destruct (compare_sorted old_text new_text) as (Ha & Hr & Hw).
  split; [done|]. split; [done|]. split; [done|].
  split; [repeat split; by apply severity_descending_high_first|].
  split; by compare_ascii_eval db so.
Qed.

End StructureProperties.

(** ** Texts with the same keys *)

(** Two texts whose counted lines have the same normalized forms, each
    as many times in one text as in the other, have empty [added] and
    [removed] lists. *)
Lemma compare_same_keys (db : UnicodeDB) (so : SetOrder)
    (T T' : list N) :
  omap line_key (splitlines T) ≡ₚ omap line_key (splitlines T') →
  added (compare T T') = [] ∧ removed (compare T T') = [].
Proof.
  intros Hperm.
  destruct (compare_lists T T') as (-> & -> & _).
  rewrite foldl_diff_step_equal; [done|].
  intros k _. by rewrite !build_norm_list, Hperm.
Qed.

(** C8, as stated, fails: the message for the removed line
    "You must have admin access." carries "you must have admin access.",
    not "have admin access.". *)
Lemma missing_prerequisite_keeps_you_must :
  (∀ (db : UnicodeDB) (so : SetOrder),
     message <$> structural_warnings (compare admin_access [])
     = [ u "Prerequisite removed: " ++ [34]
         ++ u "you must have admin access." ++ [34] ])
  ∧ (∀ (db : UnicodeDB) (so : SetOrder),
       message <$> structural_warnings (compare admin_access [])
       ≠ [ u "Prerequisite removed: " ++ [34]
           ++ u "have admin access." ++ [34] ])
  ∧ (∀ db : UnicodeDB, _normalize_line admin_access ≠ u "have admin access.").
Proof.
  assert (Forall (λ c, is_ascii c = true) admin_access) as Hascii
    by (apply ascii_forallb; vm_compute; reflexivity).
  repeat apply conj.
  - intros db so. by compare_ascii_eval db so.
  - intros db so. by compare_ascii_eval db so.
  - intros db. by rewrite _normalize_line_ascii.
Qed.

(** * Further properties of the comparison engine *)

Section EntryProperties.
Context {db : UnicodeDB} {so : SetOrder}.
Implicit Types (k line : list N) (old_text new_text : list N).

Lemma _classify_line_strip line :
  _classify_line (strip line) = _classify_line line.
Proof. unfold _classify_line. by rewrite strip_idemp. Qed.

Lemma _classify_line_noise_cases line :
  _classify_line line = noise
  ↔ _is_noise line = true ∨ _normalize_line line = [].
Proof.
  split.
  - intros Hcat. destruct (_is_noise line) eqn:En; [by left|]. right.
    destruct (_normalize_line line) as [|c n] eqn:Ek; [done|].
    exfalso. apply (_classify_line_counted line); [done|congruence|].
    by rewrite _classify_line_strip.
  - intros H. unfold _classify_line.
    pose proof (_is_noise_strip line) as H1.
    pose proof (_normalize_line_strip line) as H2.
    destruct (strip line) as [|c s]; [done|]. rewrite H1, H2.
    destruct H as [->| ->]; [done|]. by destruct (_is_noise line).
Qed.

(** X1. A line is classified as noise exactly when the noise filter
    rejects it or its normalized form is empty; the later rules of the
    classifier never give [noise]. *)
Theorem _classify_line_noise_iff line :
  _classify_line line = noise
  ↔ _is_noise line = true ∨ _normalize_line line = [].
Proof. apply _classify_line_noise_cases. Qed.

Lemma compare_keys_nonempty old_text new_text k :
  k ∈ sorted (list_to_set (build_norm old_text).2
              ∪ list_to_set (build_norm new_text).2 : gset (list N)) →
  k ≠ [].
Proof.
  intros Hin. apply elem_of_sorted, elem_of_union in Hin.
  rewrite !elem_of_list_to_set in Hin.
  destruct Hin; by eapply build_norm_keys_nonempty.
Qed.

(** Where an entry of [added] or [removed] comes from. *)
Lemma compare_added_origin old_text new_text e :
  e ∈ added (compare old_text new_text) →
  ∃ k, k ≠ [] ∧ first_seen k new_text = Some (text e)
       ∧ (key_count k old_text < key_count k new_text)%nat
       ∧ e = change_entry (text e) (_classify_line (text e)).
Proof.
  destruct (compare_lists old_text new_text) as (-> & _).
  rewrite foldl_diff_step, sort_by_key_perm. cbn [fst snd app].
  intros (k & Hin%list_elem_of_In & He)%list_elem_of_In%in_flat_map.
  apply list_elem_of_In in He. apply compare_keys_nonempty in Hin.
  rewrite diff_step_added in He by done. exists k.
  destruct (first_seen k new_text) as [o|]; [|by apply elem_of_nil in He].
  apply elem_of_replicate in He as [-> Hn]. simpl. repeat split; try done. lia.
Qed.

Lemma compare_removed_origin old_text new_text e :
  e ∈ removed (compare old_text new_text) →
  ∃ k, k ≠ [] ∧ first_seen k old_text = Some (text e)
       ∧ (key_count k new_text < key_count k old_text)%nat
       ∧ e = change_entry (text e) (_classify_line (text e)).
Proof.
  destruct (compare_lists old_text new_text) as (_ & -> & _).
  rewrite foldl_diff_step, sort_by_key_perm. cbn [fst snd app].
  intros (k & Hin%list_elem_of_In & He)%list_elem_of_In%in_flat_map.
  apply list_elem_of_In in He. apply compare_keys_nonempty in Hin.
  rewrite diff_step_removed in He by done. exists k.
  destruct (first_seen k old_text) as [o|]; [|by apply elem_of_nil in He].
  apply elem_of_replicate in He as [-> Hn]. simpl. repeat split; try done. lia.
Qed.

Lemma first_seen_entry k text original :
  k ≠ [] → first_seen k text = Some original →
  (∃ line, line ∈ splitlines text ∧ original = strip line)
  ∧ strip original = original
  ∧ original ≠ []
  ∧ _is_noise original = false
  ∧ _classify_line original ≠ noise.
Proof.
  intros Hk Hfs. destruct (first_seen_key _ _ _ Hk Hfs) as [Hnorm Hcat].
  pose proof Hfs as (line & Hin & _ & ->)%first_seen_Some.
  split; [by exists line|]. split; [apply strip_idemp|].
  split; [apply _normalize_line_nonempty; rewrite _normalize_line_strip in *;
          congruence|].
  destruct (_is_noise (strip line)) eqn:En; [|done].
  exfalso. apply Hcat, _classify_line_noise_cases. by left.
Qed.

(** X2. Every entry of [added] is the stripped text of a line of the
    new text and every entry of [removed] that of a line of the old
    text; the text is not empty and not noise, the category is the
    classification of the text and is never [noise], and the severity
    is the one mapped to the category, so it is never [LOW]. *)
Theorem change_entries_well_formed old_text new_text :
  let r := compare old_text new_text in
  (∀ e, e ∈ added r →
        ∃ line, line ∈ splitlines new_text ∧ text e = strip line)
  ∧ (∀ e, e ∈ removed r →
          ∃ line, line ∈ splitlines old_text ∧ text e = strip line)
  ∧ (∀ e, e ∈ added r ++ removed r →
          text e ≠ []
          ∧ _is_noise (text e) = false
          ∧ category e = _classify_line (text e)
          ∧ category e ≠ noise
          ∧ severity e = _severity_for (category e)
          ∧ severity e ≠ LOW).
Proof.
  cbv zeta. repeat apply conj.
  - intros e (k & Hk & Hfs & _)%compare_added_origin.
    by destruct (first_seen_entry _ _ _ Hk Hfs) as (? & _).
  - intros e (k & Hk & Hfs & _)%compare_removed_origin.
    by destruct (first_seen_entry _ _ _ Hk Hfs) as (? & _).
  - intros e He.
    assert (∃ k text', k ≠ [] ∧ first_seen k text' = Some (text e)
              ∧ e = change_entry (text e) (_classify_line (text e)))
      as (k & text' & Hk & Hfs & Heq).
    { apply elem_of_app in He as [He|He].
      - apply compare_added_origin in He as (k & ? & ? & _ & ?). eauto.
      - apply compare_removed_origin in He as (k & ? & ? & _ & ?). eauto. }
    destruct (first_seen_entry _ _ _ Hk Hfs) as (_ & _ & Hne & Hnoise & Hcat).
    assert (category e = _classify_line (text e)) as Hc by (by rewrite Heq).
    assert (severity e = _severity_for (category e)) as Hs by (by rewrite Heq).
    repeat split; try done; [congruence|].
    rewrite Hs, Hc. by destruct (_classify_line (text e)).
Qed.

Lemma compare_swap_lists (a b : list N) :
  added (compare a b) = removed (compare b a)
  ∧ removed (compare a b) = added (compare b a).
Proof.
  destruct (compare_lists a b) as (-> & -> & _).
  destruct (compare_lists b a) as (-> & -> & _).
  rewrite !foldl_diff_step. cbn [fst snd app].
  rewrite (union_comm_L (list_to_set (build_norm b).2)).
  split; f_equal; apply flat_map_ext; intros k; unfold diff_step;
    repeat case_bool_decide; done || lia.
Qed.

(** X3. Exchanging the two texts exchanges the two lists: what is
    added from [a] to [b] is what is removed from [b] to [a]. *)
Theorem compare_swap (a b : list N) :
  added (compare a b) = removed (compare b a)
  ∧ removed (compare a b) = added (compare b a).
Proof. apply compare_swap_lists. Qed.

End EntryProperties.

(** ** Counting: balance, completeness and the order of lines *)

Section SumLemmas.
Context `{Countable K}.

Lemma sum_list_with_ext_in {A} (f g : A → nat) (l : list A) :
  (∀ x, x ∈ l → f x = g x) → sum_list_with f l = sum_list_with g l.
Proof.
  induction l as [|x l IH]; intros Hfg; simpl; [done|].
  rewrite (Hfg x) by left. f_equal. apply IH. intros y ?. apply Hfg. by right.
Qed.

Lemma sum_list_with_zero {A} (l : list A) :
  sum_list_with (λ _, 0%nat) l = 0%nat.
Proof. induction l as [|x l IH]; simpl; [done|]. by rewrite IH. Qed.

Lemma sum_list_with_add {A} (f g : A → nat) (l : list A) :
  sum_list_with (λ x, f x + g x)%nat l
  = (sum_list_with f l + sum_list_with g l)%nat.
Proof. induction l as [|x l IH]; simpl; lia. Qed.

Lemma length_flat_map_sum {A B} (f : A → list B) (l : list A) :
  length (flat_map f l) = sum_list_with (λ x, length (f x)) l.
Proof.
  induction l as [|x l IH]; simpl; [done|]. by rewrite length_app, IH.
Qed.

Lemma sum_multiplicity_singleton (x : K) (keys : list K) :
  NoDup keys → x ∈ keys →
  sum_list_with (λ k, multiplicity k ({[+ x +]} : gmultiset K)) keys = 1%nat.
Proof.
  induction 1 as [|k keys Hnotin Hnodup IH]; intros Hin; simpl.
  { by apply elem_of_nil in Hin. }
  destruct (decide (k = x)) as [->|Hne].
  - rewrite multiplicity_singleton_eq.
    rewrite (sum_list_with_ext_in _ (λ _, 0%nat)).
    + by rewrite sum_list_with_zero.
    + intros y Hy. apply multiplicity_singleton_ne. by intros ->.
  - rewrite multiplicity_singleton_ne by done. simpl. apply IH.
    apply elem_of_cons in Hin as [->|]; done.
Qed.

(** Summed over a duplicate-free list of keys that covers [l], the
    multiplicities count the elements of [l]. *)
Lemma sum_multiplicity (keys l : list K) :
  NoDup keys → (∀ x, x ∈ l → x ∈ keys) →
  sum_list_with (λ k, multiplicity k (list_to_set_disj l : gmultiset K)) keys
  = length l.
Proof.
  intros Hnodup. induction l as [|x l IH]; intros Hcover.
  - rewrite list_to_set_disj_nil.
    rewrite (sum_list_with_ext_in _ (λ _, 0%nat))
      by (intros; apply multiplicity_empty).
    apply sum_list_with_zero.
  - rewrite list_to_set_disj_cons.
    rewrite (sum_list_with_ext_in _
               (λ k, multiplicity k ({[+ x +]} : gmultiset K)
                     + multiplicity k (list_to_set_disj l : gmultiset K))%nat)
      by (intros; apply multiplicity_disj_union).
    rewrite sum_list_with_add, sum_multiplicity_singleton, IH; simpl;
      try done.
    + intros y ?. apply Hcover. by right.
    + apply Hcover. left.
Qed.

Lemma elements_list_to_set_disj (l : list K) :
  elements (list_to_set_disj l : gmultiset K) ≡ₚ l.
Proof.
  induction l as [|x l IH].
  - by rewrite list_to_set_disj_nil, gmultiset_elements_empty.
  - by rewrite list_to_set_disj_cons, gmultiset_elements_disj_union,
      gmultiset_elements_singleton, IH.
Qed.

Lemma list_to_set_disj_eq_perm (l1 l2 : list K) :
  (list_to_set_disj l1 : gmultiset K) = list_to_set_disj l2 ↔ l1 ≡ₚ l2.
Proof.
  split.
  - intros Heq. by rewrite <- (elements_list_to_set_disj l1), Heq,
      elements_list_to_set_disj.
  - intros Hperm. by rewrite Hperm.
Qed.

End SumLemmas.

Section CountProperties.
Context {db : UnicodeDB} {so : SetOrder}.
Implicit Types (k : list N) (old_text new_text : list N).

Lemma counted_lines_build_norm text :
  counted_lines text = length (build_norm text).2.
Proof. unfold counted_lines. by rewrite build_norm_list. Qed.

Lemma length_diff_step_added old_text new_text k :
  k ≠ [] →
  length (diff_step (build_norm old_text).1 (build_norm new_text).1
            (list_to_set_disj (build_norm old_text).2)
            (list_to_set_disj (build_norm new_text).2) ([], []) k).1
  = (key_count k new_text - key_count k old_text)%nat.
Proof.
  intros Hk. rewrite diff_step_added by done.
  destruct (first_seen k new_text) eqn:E; [by rewrite length_replicate|].
  by rewrite (key_count_first_seen _ _ E).
Qed.

Lemma length_diff_step_removed old_text new_text k :
  k ≠ [] →
  length (diff_step (build_norm old_text).1 (build_norm new_text).1
            (list_to_set_disj (build_norm old_text).2)
            (list_to_set_disj (build_norm new_text).2) ([], []) k).2
  = (key_count k old_text - key_count k new_text)%nat.
Proof.
  intros Hk. rewrite diff_step_removed by done.
  destruct (first_seen k old_text) eqn:E; [by rewrite length_replicate|].
  by rewrite (key_count_first_seen _ _ E).
Qed.

Lemma compare_length_balance old_text new_text :
  (length (added (compare old_text new_text)) + counted_lines old_text
   = length (removed (compare old_text new_text)) + counted_lines new_text)%nat.
Proof.
  destruct (compare_lists old_text new_text) as (-> & -> & _).
  rewrite foldl_diff_step, !sort_by_key_perm. cbn [fst snd app].
  rewrite !length_flat_map_sum, !counted_lines_build_norm.
  set (keys := sorted _).
  assert (∀ k, k ∈ keys → k ≠ []) as Hne
    by (intros k; apply compare_keys_nonempty).
  rewrite <- (sum_multiplicity keys (build_norm old_text).2),
    <- (sum_multiplicity keys (build_norm new_text).2);
    try apply NoDup_sorted;
    try (intros x Hx; apply elem_of_sorted, elem_of_union;
         rewrite !elem_of_list_to_set; by auto).
  rewrite <- !sum_list_with_add. apply sum_list_with_ext_in.
  intros k Hk. specialize (Hne k Hk).
  rewrite length_diff_step_added, length_diff_step_removed,
    !build_norm_count by done.
  lia.
Qed.

(** X4. Balance: the additions and the lines counted in the old text
    are as many as the removals and the lines counted in the new text. *)
Theorem compare_balance old_text new_text :
  (length (added (compare old_text new_text)) + counted_lines old_text
   = length (removed (compare old_text new_text)) + counted_lines new_text)%nat.
Proof. apply compare_length_balance. Qed.

Lemma has_changes_lists old_text new_text :
  has_changes (compare old_text new_text) = false
  ↔ added (compare old_text new_text) = []
    ∧ removed (compare old_text new_text) = [].
Proof.
  destruct (compare_lists old_text new_text) as (-> & -> & _ & -> & _).
  rewrite !sort_by_key_nil_iff.
  destruct (foldl _ _ _) as [[|a added] [|r removed]]; simpl; naive_solver.
Qed.

Lemma has_changes_false_perm old_text new_text :
  has_changes (compare old_text new_text) = false
  ↔ omap line_key (splitlines old_text) ≡ₚ omap line_key (splitlines new_text).
Proof.
  rewrite has_changes_lists, <- !build_norm_list. split.
  - intros [Ha Hr]. apply list_to_set_disj_eq_perm, gmultiset_eq. intros k.
    destruct (decide (k = [])) as [->|Hk].
    + transitivity 0%nat; [|symmetry]; apply not_elem_of_multiplicity;
        rewrite elem_of_list_to_set_disj;
        by intros ?%build_norm_keys_nonempty.
    + destruct (compare_entries_for old_text new_text k Hk) as [Hrem Hadd].
      rewrite Ha, Hr in *. unfold entries_for in *. simpl in *.
      rewrite !build_norm_count by done.
      destruct (first_seen k old_text) eqn:Eo,
        (first_seen k new_text) eqn:En;
        try apply Permutation_nil_l in Hrem;
        try apply Permutation_nil_l in Hadd;
        try apply (f_equal length) in Hrem;
        try apply (f_equal length) in Hadd;
        rewrite ?length_replicate in *; simpl in *;
        rewrite ?(key_count_first_seen _ _ Eo),
          ?(key_count_first_seen _ _ En) in *; lia.
  - intros Hperm.
    destruct (compare_lists old_text new_text) as (-> & -> & _).
    rewrite foldl_diff_step_equal; [done|].
    intros k _. by rewrite Hperm.
Qed.

(** X5. Completeness of the diff: [has_changes] is false exactly when
    the two texts have the same keys with the same multiplicities;
    every difference between the multisets of keys is reported. *)
Theorem has_changes_false_iff old_text new_text :
  has_changes (compare old_text new_text) = false
  ↔ omap line_key (splitlines old_text) ≡ₚ omap line_key (splitlines new_text).
Proof. apply has_changes_false_perm. Qed.

Lemma key_count_perm k text text' :
  splitlines text ≡ₚ splitlines text' → key_count k text = key_count k text'.
Proof.
  intros Hperm. unfold key_count.
  by rewrite (filter_perm _ _ _ Hperm).
Qed.

Lemma compare_lengths old_text new_text :
  let keys := sorted (list_to_set (build_norm old_text).2
                      ∪ list_to_set (build_norm new_text).2) in
  length (added (compare old_text new_text))
  = sum_list_with
      (λ k, key_count k new_text - key_count k old_text)%nat keys
  ∧ length (removed (compare old_text new_text))
    = sum_list_with
        (λ k, key_count k old_text - key_count k new_text)%nat keys.
Proof.
  cbv zeta.
  destruct (compare_lists old_text new_text) as (-> & -> & _).
  rewrite foldl_diff_step, !sort_by_key_perm. cbn [fst snd app].
  rewrite !length_flat_map_sum.
  split; apply sum_list_with_ext_in; intros k Hk%compare_keys_nonempty.
  - by apply length_diff_step_added.
  - by apply length_diff_step_removed.
Qed.

Lemma build_norm_keys_perm text text' :
  splitlines text ≡ₚ splitlines text' →
  (list_to_set (build_norm text).2 : gset (list N))
  = list_to_set (build_norm text').2.
Proof.
  intros Hperm. rewrite !build_norm_list. apply set_eq. intros k.
  by rewrite !elem_of_list_to_set, Hperm.
Qed.

Lemma length_entries_for old_text new_text k :
  k ≠ [] →
  length (entries_for k (removed (compare old_text new_text)))
  = (key_count k old_text - key_count k new_text)%nat
  ∧ length (entries_for k (added (compare old_text new_text)))
    = (key_count k new_text - key_count k old_text)%nat.
Proof.
  intros Hk.
  destruct (compare_entries_for old_text new_text k Hk) as [Hr Ha].
  cbv zeta in *. rewrite Hr, Ha.
  destruct (first_seen k old_text) eqn:Eo, (first_seen k new_text) eqn:En;
    rewrite ?length_replicate, ?(key_count_first_seen _ _ Eo),
      ?(key_count_first_seen _ _ En); simpl; split; lia.
Qed.

(** X6. The order of the lines does not matter: two pairs of texts
    with the same lines in other orders have the same [has_changes],
    as many additions and removals, and as many entries for every key. *)
Theorem compare_line_order old_text new_text old_text' new_text' :
  splitlines old_text ≡ₚ splitlines old_text' →
  splitlines new_text ≡ₚ splitlines new_text' →
  let r := compare old_text new_text in
  let r' := compare old_text' new_text' in
  has_changes r = has_changes r'
  ∧ length (added r) = length (added r')
  ∧ length (removed r) = length (removed r')
  ∧ ∀ k, k ≠ [] →
      length (entries_for k (added r)) = length (entries_for k (added r'))
      ∧ length (entries_for k (removed r))
        = length (entries_for k (removed r')).
Proof.
  intros Ho Hn. cbv zeta. repeat apply conj.
  - pose proof (has_changes_false_perm old_text new_text) as H1.
    pose proof (has_changes_false_perm old_text' new_text') as H2.
    rewrite Ho, Hn in H1.
    destruct (has_changes (compare old_text new_text)),
      (has_changes (compare old_text' new_text')); naive_solver.
  - destruct (compare_lengths old_text new_text) as [-> _].
    destruct (compare_lengths old_text' new_text') as [-> _].
    rewrite (build_norm_keys_perm _ _ Ho), (build_norm_keys_perm _ _ Hn).
    apply sum_list_with_ext_in. intros k _.
    by rewrite (key_count_perm k _ _ Ho), (key_count_perm k _ _ Hn).
  - destruct (compare_lengths old_text new_text) as [_ ->].
    destruct (compare_lengths old_text' new_text') as [_ ->].
    rewrite (build_norm_keys_perm _ _ Ho), (build_norm_keys_perm _ _ Hn).
    apply sum_list_with_ext_in. intros k _.
    by rewrite (key_count_perm k _ _ Ho), (key_count_perm k _ _ Hn).
  - intros k Hk.
    destruct (length_entries_for old_text new_text k Hk) as [-> ->].
    destruct (length_entries_for old_text' new_text' k Hk) as [-> ->].
    by rewrite (key_count_perm k _ _ Ho), (key_count_perm k _ _ Hn).
Qed.

Lemma _detect_missing_sections_empty : _detect_missing_sections [] = [].
Proof. by rewrite _detect_missing_sections_ascii. Qed.

Lemma compare_nothing_added_to_empty T : added (compare T []) = [].
Proof.
  destruct (added (compare T [])) as [|e l] eqn:E; [done|].
  assert (e ∈ added (compare T [])) as He by (rewrite E; left).
  apply compare_added_origin in He as (k & _ & _ & Hlt & _).
  unfold key_count in Hlt at 2. simpl in Hlt. lia.
Qed.

(** X7. An empty side: against an empty new text nothing is added,
    every counted line of the old text is removed, and the structural
    warnings are those for its prerequisite lines; against an empty old
    text nothing is removed, every counted line of the new text is
    added, and all numbering gaps and missing sections of the new text
    are reported. *)
Theorem compare_empty_side (T : list N) :
  (added (compare T []) = []
   ∧ length (removed (compare T [])) = counted_lines T
   ∧ structural_warnings (compare T [])
     = missing_prerequisite_warning <$> set_iter (_prereq_lines T))
  ∧ (removed (compare [] T) = []
     ∧ length (added (compare [] T)) = counted_lines T
     ∧ structural_warnings (compare [] T)
       = _detect_numbering_gaps T ++ _detect_missing_sections T).
Proof.
  assert (removed (compare [] T) = []) as Hrem.
  { destruct (compare_swap_lists [] T) as [_ ->].
    apply compare_nothing_added_to_empty. }
  repeat apply conj.
  - apply compare_nothing_added_to_empty.
  - pose proof (compare_length_balance T []) as Hb.
    rewrite compare_nothing_added_to_empty in Hb.
    unfold counted_lines at 2 in Hb. simpl in Hb. lia.
  - rewrite compare_structural_warnings.
    unfold _validate_structure, _detect_missing_prerequisites.
    rewrite _detect_missing_sections_empty.
    change (_detect_numbering_gaps []) with (@nil StructuralWarning).
    change (_prereq_lines []) with (∅ : gset (list N)).
    by rewrite difference_empty_L.
  - done.
  - pose proof (compare_length_balance [] T) as Hb.
    rewrite Hrem in Hb. unfold counted_lines at 1 in Hb. simpl in Hb. lia.
  - rewrite compare_structural_warnings.
    unfold _validate_structure, _detect_missing_prerequisites.
    rewrite _detect_missing_sections_empty.
    change (_detect_numbering_gaps []) with (@nil StructuralWarning).
    change (_prereq_lines []) with (∅ : gset (list N)).
    assert (∅ ∖ _prereq_lines T = (∅ : gset (list N))) as -> by set_solver.
    rewrite set_iter_empty, app_nil_r. apply filter_all.
    intros w _. apply bool_decide_eq_true. set_solver.
Qed.

End CountProperties.

Lemma compare_line_order_witness :
  splitlines lines_b_a ≡ₚ splitlines lines_a_b
  ∧ splitlines choose_save_x1 ≡ₚ splitlines choose_save_x1
  ∧ has_changes (compare (db := ascii_db) (so := ascending_order)
                   lines_b_a choose_save_x1)
    = has_changes (compare (db := ascii_db) (so := ascending_order)
                     lines_a_b choose_save_x1).
Proof.
  assert (splitlines lines_b_a ≡ₚ splitlines lines_a_b) as H1
    by (vm_compute; apply Permutation_swap).
  assert (splitlines choose_save_x1 ≡ₚ splitlines choose_save_x1) as H2
    by reflexivity.
  split; [exact H1|]. split; [exact H2|].
  exact (proj1 (compare_line_order (db := ascii_db) (so := ascending_order)
                  lines_b_a choose_save_x1 lines_a_b choose_save_x1 H1 H2)).
Defined.

(** ** Numbering gaps as a function of the step numbers *)

Section NumberingProperties.
Context {db : UnicodeDB}.

Lemma foldl_numbering_step lines ws prev :
  (foldl numbering_step (ws, prev) lines).1
  = ws ++ (gap_warning <$> numbering_gaps prev (omap step_number lines)).
Proof.
  revert ws prev.
  induction lines as [|line lines IH]; intros ws prev; cbn [foldl].
  { simpl. by rewrite app_nil_r. }
  cbn [omap list_omap]. fold (omap step_number lines).
  unfold numbering_step at 2, step_number at 1.
  destruct (_STEP_NUMBER_RE_match (strip line)) as [[ds rest]|]; simpl;
    [|apply IH].
  destruct (N.eqb_spec (int_of_digits ds) 1) as [Hone|Hone]; simpl.
  { rewrite IH, Hone. by destruct prev. }
  destruct prev as [p|]; [|by rewrite IH].
  destruct (p + 1 <? int_of_digits ds); rewrite IH; simpl; [|done].
  rewrite <- app_assoc, fmap_app. do 2 f_equal.
  rewrite <- list_fmap_compose. by apply list_fmap_ext.
Qed.

Lemma numbering_gaps_nil prev nums :
  numbering_gaps prev nums = []
  ↔ ∀ i p n, (option_list prev ++ nums) !! i = Some p →
             (option_list prev ++ nums) !! S i = Some n →
             n = 1 ∨ n ≤ p + 1.
Proof.
  revert prev. induction nums as [|num nums IH]; intros prev.
  { split; [|done]. intros _ i p n _ Hn.
    apply lookup_lt_Some in Hn. rewrite app_nil_r in Hn.
    destruct prev; simpl in Hn; lia. }
  cbn [numbering_gaps]. rewrite app_nil, (IH (Some num)).
  destruct prev as [p|]; simpl.
  - split.
    + intros [Hhead Htail] [|i] p' n; simpl.
      * intros [= <-] [= <-].
        destruct (N.eqb_spec num 1); [by left|]. right.
        destruct (N.ltb_spec (p + 1) num) as [Hlt|]; [|lia].
        simpl in Hhead. apply fmap_nil_inv in Hhead.
        assert (p + 1 ∈ range (p + 1) num) as Hin by (apply elem_of_range; lia).
        rewrite Hhead in Hin. by apply elem_of_nil in Hin.
      * apply Htail.
    + intros H. split.
      * destruct (H 0%nat p num eq_refl eq_refl) as [->|Hle]; [done|].
        destruct (N.ltb_spec (p + 1) num); [lia|].
        by rewrite andb_false_r.
      * intros i p' n. apply (H (S i)).
  - split; [intros [_ H]; exact H|]. by intros H.
Qed.

(** Without a refused conversion, the numbering-gap detector is a
    function of the sequence of step numbers. *)
Lemma _detect_numbering_gaps_eq (text : list N) :
  _detect_numbering_gaps text
  = gap_warning <$> numbering_gaps None (step_numbers text)
  ∧ (_detect_numbering_gaps text = []
     ↔ ∀ i p n, step_numbers text !! i = Some p →
                step_numbers text !! S i = Some n →
                n = 1 ∨ n ≤ p + 1).
Proof.
  assert (_detect_numbering_gaps text
          = gap_warning <$> numbering_gaps None (step_numbers text)) as Heq
    by apply foldl_numbering_step.
  split; [done|]. rewrite Heq.
  pose proof (numbering_gaps_nil None (step_numbers text)) as Hnil.
  simpl in Hnil. rewrite <- Hnil.
  split; [apply fmap_nil_inv|by intros ->].
Qed.

End NumberingProperties.

(** ** Snapshot file names *)

Section FileNameProperties.
Context {db : UnicodeDB}.
Implicit Types (s t name number rest : list N).

Lemma startswith_app s t : startswith (s ++ t) s = true.
Proof.
  induction s as [|c s IH]; simpl; [by destruct t|].
  by rewrite N.eqb_refl, IH.
Qed.

Lemma endswith_app s t : endswith (s ++ t) t = true.
Proof. unfold endswith. rewrite reverse_app. apply startswith_app. Qed.

Lemma is_digit_ascii_false c :
  is_ascii c = true → ascii_decimal c = None → is_digit c = false.
Proof. intros Hc Hd. unfold is_digit. by rewrite decimal_ascii, Hd. Qed.

Lemma page_number_go_dotted after_dot number rest :
  dotted_number_go after_dot number = true →
  page_number_go after_dot (number ++ 95 :: rest) = Some rest.
Proof.
  revert after_dot. induction number as [|c number IH]; intros after_dot; simpl.
  - intros ->%negb_true_iff. by rewrite is_digit_ascii_false.
  - destruct (is_digit c); [apply IH|].
    destruct after_dot; [done|]. destruct (c =? 46); [apply IH|done].
Qed.

Lemma _PAGE_NUMBER_RE_match_dotted number rest :
  dotted_number number = true →
  _PAGE_NUMBER_RE_match (number ++ 95 :: rest) = Some rest.
Proof.
  destruct number as [|c number]; simpl; [done|].
  intros [-> Hgo]%andb_true_iff. by apply page_number_go_dotted.
Qed.

Lemma underscores_to_spaces name :
  Forall (λ c, c ≠ 95) name →
  (λ c, if c =? 95 then 32 else c)
    <$> ((λ c, if c =? 32 then 95 else c) <$> name) = name.
Proof.
  induction 1 as [|c name Hc Hname IH]; [done|].
  rewrite !fmap_cons, IH. f_equal.
  destruct (N.eqb_spec c 32) as [->|]; [done|].
  by destruct (N.eqb_spec c 95).
Qed.

(** X9. Round trip of snapshot names: for a page name without
    underscore and without a character that [sanitize_filename]
    removes, of at most 100 characters, and a page number made of runs
    of digits separated by dots, the name recovered from the snapshot
    file name is the normalized page name, so the next run finds the
    snapshot of the page. *)
Theorem snapshot_name_round_trip name number :
  forallb (λ c, negb (in_chars forbidden_chars c) && negb (c =? 95)) name
  = true →
  (length name ≤ 100)%nat →
  dotted_number number = true →
  extract_page_name_from_filename
    (sanitize_filename name (Some number) ++ u ".txt")
  = normalize_page_name name.
Proof.
  intros Hchars Hlen Hnum.
  assert (Forall (λ c, negb (in_chars forbidden_chars c) = true ∧ c ≠ 95) name)
    as Hall.
  { apply Forall_forall. intros c Hc%list_elem_of_In.
    rewrite forallb_forall in Hchars.
    apply Hchars, andb_true_iff in Hc as [? Hc]. split; [done|].
    by apply negb_true_iff, N.eqb_neq in Hc. }
  unfold extract_page_name_from_filename, sanitize_filename, normalize_page_name.
  rewrite filter_all
    by (intros c Hc; rewrite Forall_forall in Hall; by apply Hall).
  rewrite take_ge by by rewrite length_fmap.
  rewrite endswith_app, take_app_length' by (rewrite !length_app; simpl; lia).
  cbn [app].
  rewrite _PAGE_NUMBER_RE_match_dotted by done. cbn [default from_option id].
  rewrite underscores_to_spaces; [done|].
  eapply Forall_impl; [exact Hall|]. by intros c [_ ?].
Qed.

Lemma spaces_to_underscores_id s :
  Forall (λ c, c ≠ 32) s → (λ c, if c =? 32 then 95 else c) <$> s = s.
Proof.
  induction 1 as [|c s Hc Hs IH]; [done|]. rewrite fmap_cons, IH.
  by apply N.eqb_neq in Hc as ->.
Qed.

(** X10. The file name that [sanitize_filename] makes without a page
    number holds none of the removed characters and no space, has at
    most 100 characters, and is left unchanged when sanitized again. *)
Theorem sanitize_filename_safe name :
  let safe := sanitize_filename name None in
  Forall (λ c, (c ∉ forbidden_chars) ∧ c ≠ 32) safe
  ∧ (length safe ≤ 100)%nat
  ∧ sanitize_filename safe None = safe.
Proof.
  cbv zeta. unfold sanitize_filename.
  set (kept := List.filter _ name).
  assert (Forall (λ c, (c ∉ forbidden_chars) ∧ c ≠ 32)
            ((λ c, if c =? 32 then 95 else c) <$> kept)) as Hsafe.
  { apply Forall_fmap, Forall_forall.
    intros c [_ Hc%negb_true_iff%bool_decide_eq_false]%elem_of_List_filter.
    simpl. destruct (N.eqb_spec c 32) as [->|]; [|done].
    split; [|done]. unfold forbidden_chars. set_solver. }
  assert (Forall (λ c, (c ∉ forbidden_chars) ∧ c ≠ 32)
            (take 100 ((λ c, if c =? 32 then 95 else c) <$> kept))) as Htake
    by by apply Forall_take.
  split; [done|]. split; [rewrite length_take; lia|].
  rewrite filter_all.
  - rewrite spaces_to_underscores_id, take_take; [f_equal; lia|].
    eapply Forall_impl; [exact Htake|]. by intros c [_ ?].
  - intros c Hc. rewrite Forall_forall in Htake.
    destruct (Htake c Hc) as [Hnot _].
    by apply negb_true_iff, bool_decide_eq_false.
Qed.

End FileNameProperties.

Lemma snapshot_name_round_trip_witness :
  forallb (λ c, negb (in_chars forbidden_chars c) && negb (c =? 95))
    page_name_ex = true
  ∧ (length page_name_ex ≤ 100)%nat
  ∧ dotted_number (db := ascii_db) page_number_ex = true
  ∧ extract_page_name_from_filename (db := ascii_db)
      (sanitize_filename page_name_ex (Some page_number_ex) ++ u ".txt")
    = normalize_page_name (db := ascii_db) page_name_ex.
Proof.
  assert (forallb (λ c, negb (in_chars forbidden_chars c) && negb (c =? 95))
            page_name_ex = true) as H1 by (vm_compute; reflexivity).
  assert (length page_name_ex ≤ 100)%nat as H2 by (vm_compute; lia).
  assert (dotted_number (db := ascii_db) page_number_ex = true) as H3
    by (vm_compute; reflexivity).
  split; [exact H1|]. split; [exact H2|]. split; [exact H3|].
  exact (snapshot_name_round_trip (db := ascii_db)
           page_name_ex page_number_ex H1 H2 H3).
Defined.

(** ** Overall severity and arrows *)

Section SeverityProperties.
Context {db : UnicodeDB} {so : SetOrder}.

Lemma change_entry_not_low old_text new_text e :
  e ∈ added (compare old_text new_text) ++ removed (compare old_text new_text) →
  severity e ≠ LOW.
Proof.
  intros He.
  assert (∃ k text', k ≠ [] ∧ first_seen k text' = Some (text e)
            ∧ e = change_entry (text e) (_classify_line (text e)))
    as (k & text' & Hk & Hfs & Heq).
  { apply elem_of_app in He as [He|He].
    - apply compare_added_origin in He as (k & ? & ? & _ & ?). eauto.
    - apply compare_removed_origin in He as (k & ? & ? & _ & ?). eauto. }
  destruct (first_seen_entry _ _ _ Hk Hfs) as (_ & _ & _ & _ & Hcat).
  rewrite Heq. simpl. by destruct (_classify_line (text e)).
Qed.

(** X11. The overall severity is never [LOW], and a result without
    changes has no overall severity or the severity [HIGH] of its
    structural warnings. *)
Theorem max_severity_never_low (old_text new_text : list N) :
  let r := compare old_text new_text in
  max_severity r ≠ Some LOW
  ∧ (has_changes r = false →
     max_severity r = None ∨ max_severity r = Some HIGH).
Proof.
  cbv zeta.
  destruct (compare_max_severity old_text new_text) as [_ Hsome].
  cbv zeta in Hsome.
  pose proof (_validate_structure_high old_text new_text) as Hhigh.
  rewrite <- compare_structural_warnings, Forall_forall in Hhigh.
  split.
  - intros Hlow. destruct (Hsome LOW Hlow) as [Hin _].
    rewrite app_assoc, <- fmap_app in Hin.
    apply elem_of_app in Hin as [Hin|Hin];
      apply list_elem_of_fmap in Hin as (x & Hx & Hin).
    + by apply change_entry_not_low in Hin.
    + by rewrite (Hhigh x Hin) in Hx.
  - intros [Ha Hr]%has_changes_lists.
    destruct (max_severity (compare old_text new_text)) as [s|] eqn:E;
      [|by left].
    right. destruct (Hsome s eq_refl) as [Hin _].
    rewrite Ha, Hr in Hin. simpl in Hin.
    apply list_elem_of_fmap in Hin as (w & -> & Hin). f_equal. by apply Hhigh.
Qed.

End SeverityProperties.

Section ArrowProperties.
Implicit Types (a b ws pending : list N).

Lemma arrow_sub_go_prefix a t t' :
  (∀ skip pending, arrow_sub_go skip pending t = arrow_sub_go skip pending t') →
  ∀ skip pending,
    arrow_sub_go skip pending (a ++ t) = arrow_sub_go skip pending (a ++ t').
Proof.
  intros Ht. induction a as [|c a IH]; intros skip pending; simpl; [apply Ht|].
  by rewrite !IH.
Qed.

Lemma arrow_not_space c : in_chars arrow_chars c = true → isspace c = false.
Proof.
  intros H%bool_decide_eq_true. unfold arrow_chars in H.
  repeat (apply elem_of_cons in H as [->|H]; [reflexivity|]).
  by apply elem_of_nil in H.
Qed.

Lemma arrow_sub_go_skip ws b :
  forallb isspace ws = true →
  arrow_sub_go true [] (ws ++ b) = arrow_sub_go true [] b.
Proof.
  induction ws as [|c ws IH]; simpl; [done|].
  intros [Hc Hws]%andb_true_iff.
  destruct (in_chars arrow_chars c) eqn:E;
    [apply arrow_not_space in E; congruence|].
  rewrite Hc. by apply IH.
Qed.

Lemma arrow_sub_go_arrow skip pending ws x t :
  forallb isspace ws = true → in_chars arrow_chars x = true →
  arrow_sub_go skip pending (ws ++ x :: t)
  = [32; 62; 32] ++ arrow_sub_go true [] t.
Proof.
  intros Hws Hx. revert skip pending Hws.
  induction ws as [|c ws IH]; intros skip pending; simpl.
  { by rewrite Hx. }
  intros [Hc Hws]%andb_true_iff.
  destruct (in_chars arrow_chars c) eqn:E;
    [apply arrow_not_space in E; congruence|].
  rewrite Hc. destruct skip; by apply IH.
Qed.

(** X12. Arrows: which arrow glyph stands in a line, and how much
    white space surrounds it, has no effect on the result of the arrow
    substitution. *)
Theorem _ARROW_RE_sub_glyph_and_space a ws x ws' b y :
  forallb isspace ws = true → forallb isspace ws' = true →
  in_chars arrow_chars x = true → in_chars arrow_chars y = true →
  _ARROW_RE_sub (a ++ ws ++ x :: ws' ++ b) = _ARROW_RE_sub (a ++ y :: b).
Proof.
  intros Hws Hws' Hx Hy. unfold _ARROW_RE_sub.
  apply arrow_sub_go_prefix. intros skip pending.
  rewrite (arrow_sub_go_arrow skip pending ws x) by done.
  pose proof (arrow_sub_go_arrow skip pending [] y b eq_refl Hy) as Hy'.
  cbn [app] in Hy'. by rewrite Hy', arrow_sub_go_skip.
Qed.

End ArrowProperties.

Lemma _ARROW_RE_sub_glyph_and_space_witness :
  forallb isspace (u "  ") = true
  ∧ in_chars arrow_chars 8594 = true
  ∧ in_chars arrow_chars 187 = true
  ∧ _ARROW_RE_sub menu_spaced = _ARROW_RE_sub menu_tight.
Proof.
  assert (forallb isspace (u "  ") = true) as H1 by (vm_compute; reflexivity).
  assert (in_chars arrow_chars 8594 = true) as H2 by (vm_compute; reflexivity).
  assert (in_chars arrow_chars 187 = true) as H3 by (vm_compute; reflexivity).
  split; [exact H1|]. split; [exact H2|]. split; [exact H3|].
  exact (_ARROW_RE_sub_glyph_and_space
           (u "File") (u "  ") 8594 (u "  ") (u "Save") 187 H1 H1 H2 H3).
Defined.

(** ** Step numbers that [int] refuses *)

Section RaisingProperties.
Context {db : UnicodeDB} {so : SetOrder} {lim : IntLimit}.
Implicit Types (line text old_text new_text : list N).

Lemma Raising_numbering_step st line :
  Raising.numbering_step st line
  = if step_number_accepted line then Some (numbering_step st line) else None.
Proof.
  unfold Raising.numbering_step, numbering_step, step_number_accepted,
    Raising.int.
  destruct st as [warnings prev].
  destruct (_STEP_NUMBER_RE_match (strip line)) as [[ds rest]|]; [|done].
  by destruct (int_accepts ds).
Qed.

Lemma Raising_foldl_None lines :
  foldl (λ st line, st ≫= λ st, Raising.numbering_step st line) None lines
  = None.
Proof. by induction lines. Qed.

Lemma Raising_foldl_numbering_step lines st :
  foldl (λ st line, st ≫= λ st, Raising.numbering_step st line) (Some st) lines
  = if forallb step_number_accepted lines
    then Some (foldl numbering_step st lines) else None.
Proof.
  revert st. induction lines as [|line lines IH]; intros st; [done|].
  cbn [foldl forallb mbind option_bind]. rewrite Raising_numbering_step.
  destruct (step_number_accepted line); simpl;
    [apply IH|apply Raising_foldl_None].
Qed.

(** The detector raises exactly when [int] refuses a step number, and
    returns what the function without the exception returns. *)
Lemma Raising__detect_numbering_gaps text :
  Raising._detect_numbering_gaps text
  = if step_numbers_accepted text
    then Some (_detect_numbering_gaps text) else None.
Proof.
  unfold Raising._detect_numbering_gaps, _detect_numbering_gaps,
    step_numbers_accepted.
  rewrite Raising_foldl_numbering_step.
  by destruct (forallb _ _).
Qed.

Lemma Raising__validate_structure old_text new_text :
  Raising._validate_structure old_text new_text
  = if step_numbers_accepted old_text && step_numbers_accepted new_text
    then Some (_validate_structure old_text new_text) else None.
Proof.
  unfold Raising._validate_structure, _validate_structure.
  rewrite !Raising__detect_numbering_gaps.
  by destruct (step_numbers_accepted old_text),
    (step_numbers_accepted new_text).
Qed.

Lemma Raising_compare old_text new_text :
  Raising.compare old_text new_text
  = if step_numbers_accepted old_text && step_numbers_accepted new_text
    then Some (compare old_text new_text) else None.
Proof.
  unfold Raising.compare, compare.
  destruct (build_norm old_text) as [om ol], (build_norm new_text) as [nm nl'].
  destruct (foldl _ _ _) as [a r].
  rewrite Raising__validate_structure.
  by destruct (step_numbers_accepted old_text),
    (step_numbers_accepted new_text).
Qed.

(** [compare] returns exactly when [int] accepts the step numbers of
    both texts, and then it returns the result of the function
    without the exception. *)
Lemma Raising_compare_Some old_text new_text r :
  Raising.compare old_text new_text = Some r
  ↔ step_numbers_accepted old_text = true
    ∧ step_numbers_accepted new_text = true
    ∧ r = compare old_text new_text.
Proof.
  rewrite Raising_compare.
  destruct (step_numbers_accepted old_text),
    (step_numbers_accepted new_text); simpl; naive_solver.
Qed.

(** C4, as amended. Reflexivity: for a text whose step numbers [int]
    accepts, comparing the text with itself returns a result that
    reports no change: [has_changes] is false, and [added], [removed]
    and [structural_warnings] are empty. *)
Theorem compare_reflexive (T : list N) :
  step_numbers_accepted T = true →
  ∃ r, Raising.compare T T = Some r
       ∧ has_changes r = false
       ∧ added r = []
       ∧ removed r = []
       ∧ structural_warnings r = [].
Proof.
  intros HT. exists (compare T T).
  rewrite Raising_compare, HT. split; [done|].
  apply compare_same_text.
Qed.

(** X8. For a text whose step numbers [int] accepts, the numbering-gap
    detector returns warnings that depend on the text only through the
    sequence of its step numbers, and it returns none exactly when
    every step number is 1 or at most one more than the step number
    before it; the first step number is never reported, whatever it is. *)
Theorem _detect_numbering_gaps_step_numbers (text : list N) :
  step_numbers_accepted text = true →
  Raising._detect_numbering_gaps text
  = Some (gap_warning <$> numbering_gaps None (step_numbers text))
  ∧ (Raising._detect_numbering_gaps text = Some []
     ↔ ∀ i p n, step_numbers text !! i = Some p →
                step_numbers text !! S i = Some n →
                n = 1 ∨ n ≤ p + 1).
Proof.
  intros Htext. rewrite Raising__detect_numbering_gaps, Htext.
  destruct (_detect_numbering_gaps_eq text) as [Heq Hnil].
  split; [by rewrite Heq|].
  rewrite <- Hnil. split; [by intros [= ->]|by intros ->].
Qed.

Lemma step_numbers_accepted_false text :
  step_numbers_accepted text = false
  ↔ ∃ line ds rest,
      line ∈ splitlines text
      ∧ _STEP_NUMBER_RE_match (strip line) = Some (ds, rest)
      ∧ (640 < length ds)%nat
      ∧ (0 < int_max_str_digits < length ds)%nat.
Proof.
  unfold step_numbers_accepted.
  induction (splitlines text) as [|line lines IH]; cbn [forallb].
  { split; [done|]. intros (line & _ & _ & Hin & _).
    by apply elem_of_nil in Hin. }
  rewrite andb_false_iff, IH. unfold step_number_accepted, int_accepts.
  split.
  - intros [Hline|(line' & ds & rest & Hin & H)].
    + destruct (_STEP_NUMBER_RE_match (strip line)) as [[ds rest]|] eqn:E;
        [|done].
      apply negb_false_iff in Hline.
      rewrite !andb_true_iff, !bool_decide_eq_true in Hline.
      exists line, ds, rest. split; [by left|]. split; [done|]. lia.
    + exists line', ds, rest. split; [by right|done].
  - intros (line' & ds & rest & Hin & Hm & H1 & H2).
    apply elem_of_cons in Hin as [->|Hin].
    + left. rewrite Hm. apply negb_false_iff.
      rewrite !andb_true_iff, !bool_decide_eq_true. lia.
    + right. by exists line', ds, rest.
Qed.

(** X13. [compare] raises [ValueError] exactly when one of the two
    texts has a numbered line whose step number has more digits than
    [int] converts: more than 640 and more than the limit, when there
    is one.  Wherever it returns, its result is that of [compare]
    without the exception. *)
Theorem compare_raises_iff (old_text new_text : list N) :
  (Raising.compare old_text new_text = None
   ↔ ∃ text line ds rest,
       (text = old_text ∨ text = new_text)
       ∧ line ∈ splitlines text
       ∧ _STEP_NUMBER_RE_match (strip line) = Some (ds, rest)
       ∧ (640 < length ds)%nat
       ∧ (0 < int_max_str_digits < length ds)%nat)
  ∧ (∀ r, Raising.compare old_text new_text = Some r →
          r = compare old_text new_text).
Proof.
  split; [|by intros r (_ & _ & ->)%Raising_compare_Some].
  rewrite Raising_compare.
  destruct (step_numbers_accepted old_text) eqn:Ho; simpl.
  - destruct (step_numbers_accepted new_text) eqn:Hn.
    + split; [done|]. intros (text & line & ds & rest & [->| ->] & H).
      * assert (step_numbers_accepted old_text = false)
          by (apply step_numbers_accepted_false; by exists line, ds, rest).
        congruence.
      * assert (step_numbers_accepted new_text = false)
          by (apply step_numbers_accepted_false; by exists line, ds, rest).
        congruence.
    + split; [|done]. intros _.
      apply step_numbers_accepted_false in Hn as (line & ds & rest & H).
      exists new_text, line, ds, rest. split; [by right|done].
  - split; [|done]. intros _.
    apply step_numbers_accepted_false in Ho as (line & ds & rest & H).
    exists old_text, line, ds, rest. split; [by left|done].
Qed.

End RaisingProperties.

(** Without the limit no step number is refused, and the functions
    with the exception return what those without it return. *)
Lemma Raising_compare_no_limit (db : UnicodeDB) (so : SetOrder)
    (old_text new_text : list N) :
  Raising.compare (lim := no_int_limit) old_text new_text
  = Some (compare old_text new_text).
Proof.
  rewrite Raising_compare.
  assert (∀ text, step_numbers_accepted (lim := no_int_limit) text = true)
    as Hacc.
  { intros text. apply forallb_forall. intros line _.
    unfold step_number_accepted.
    destruct (_STEP_NUMBER_RE_match (strip line)) as [[ds rest]|]; [|done].
    unfold int_accepts. simpl. by rewrite andb_false_r. }
  by rewrite !Hacc.
Qed.

Lemma compare_reflexive_witness :
  step_numbers_accepted (db := ascii_db) (lim := default_int_limit)
    steps_1_2_4 = true
  ∧ ∃ r, Raising.compare (db := ascii_db) (so := ascending_order)
           (lim := default_int_limit) steps_1_2_4 steps_1_2_4 = Some r
         ∧ has_changes r = false
         ∧ added r = []
         ∧ removed r = []
         ∧ structural_warnings r = [].
Proof.
  assert (step_numbers_accepted (db := ascii_db) (lim := default_int_limit)
            steps_1_2_4 = true) as H by (vm_compute; reflexivity).
  split; [exact H|].
  exact (compare_reflexive (db := ascii_db) (so := ascending_order)
           (lim := default_int_limit) steps_1_2_4 H).
Defined.

Lemma step_numbers_accepted_ascii (db : UnicodeDB) (lim : IntLimit)
    (text : list N) :
  Forall (λ c, is_ascii c = true) text →
  step_numbers_accepted (db := db) text
  = step_numbers_accepted (db := ascii_db) text.
Proof.
  intros H. unfold step_numbers_accepted.
  pose proof (ascii_splitlines _ H) as Hlines.
  induction Hlines as [|line lines Hline Hlines IH]; [done|].
  cbn [forallb]. rewrite IH. f_equal.
  unfold step_number_accepted.
  by rewrite _STEP_NUMBER_RE_match_ascii by (by apply ascii_strip).
Qed.

(** C4, as stated, fails: under the default limit [int] refuses the
    step number of 4301 digits, so comparing the text with itself
    raises [ValueError] and returns no result. *)
Lemma compare_reflexive_raises :
  (∀ (db : UnicodeDB) (so : SetOrder),
     Raising.compare (lim := default_int_limit)
       step_of_4301_digits step_of_4301_digits = None)
  ∧ (∀ (db : UnicodeDB) (so : SetOrder),
       ¬ ∃ r, Raising.compare (lim := default_int_limit)
                step_of_4301_digits step_of_4301_digits = Some r
              ∧ has_changes r = false
              ∧ added r = []
              ∧ removed r = []
              ∧ structural_warnings r = []).
Proof.
  assert (∀ (db : UnicodeDB) (so : SetOrder),
            Raising.compare (lim := default_int_limit)
              step_of_4301_digits step_of_4301_digits = None) as Hnone.
  { intros db so. rewrite Raising_compare.
    rewrite step_numbers_accepted_ascii
      by (apply ascii_forallb; vm_compute; reflexivity).
    assert (step_numbers_accepted (db := ascii_db) (lim := default_int_limit)
              step_of_4301_digits = false) as -> by (vm_compute; reflexivity).
    done. }
  split; [exact Hnone|].
  intros db so (r & Hr & _). by rewrite Hnone in Hr.
Qed.

Lemma _detect_numbering_gaps_step_numbers_witness :
  step_numbers_accepted (db := ascii_db) (lim := default_int_limit)
    steps_1_2_4 = true
  ∧ Raising._detect_numbering_gaps (db := ascii_db) (lim := default_int_limit)
      steps_1_2_4
    = Some (gap_warning
              <$> numbering_gaps None (step_numbers (db := ascii_db) steps_1_2_4)).
Proof.
  assert (step_numbers_accepted (db := ascii_db) (lim := default_int_limit)
            steps_1_2_4 = true) as H by (vm_compute; reflexivity).
  split; [exact H|].
  exact (proj1 (_detect_numbering_gaps_step_numbers (db := ascii_db)
                  (lim := default_int_limit) steps_1_2_4 H)).
Defined.

(** ** Cosmetic changes of a line

    Every cosmetic change of a line keeps its normalized form: the
    normalized form of a line is that of its cosmetic form. *)

(** *** Collapsing white space *)

Section CollapseLemmas.
Implicit Types (p : N → bool) (s t q run : list N) (c : N).

Lemma collapse_ws_space c s :
  isspace c = true →
  collapse_ws (c :: s)
  = if starts_ws s then collapse_ws s else 32 :: collapse_ws s.
Proof. intros Hc. simpl. rewrite Hc. by destruct s. Qed.

Lemma collapse_ws_nonspace c s :
  isspace c = false → collapse_ws (c :: s) = c :: collapse_ws s.
Proof. intros Hc. simpl. by rewrite Hc. Qed.

Lemma starts_ws_collapse_ws s : starts_ws (collapse_ws s) = starts_ws s.
Proof.
  induction s as [|c s IH]; [done|].
  destruct (isspace c) eqn:Hc.
  - rewrite collapse_ws_space by done. simpl. rewrite Hc.
    destruct (starts_ws s) eqn:Hs; [by rewrite IH|done].
  - rewrite collapse_ws_nonspace by done. done.
Qed.

Lemma collapse_ws_run run q :
  run ≠ [] → forallb isspace run = true →
  collapse_ws (run ++ q)
  = if starts_ws q then collapse_ws q else 32 :: collapse_ws q.
Proof.
  induction run as [|w run IH]; [done|]. intros _ [Hw Hrun]%andb_true_iff.
  cbn [app]. rewrite collapse_ws_space by done.
  destruct run as [|w' run]; [done|].
  assert (starts_ws ((w' :: run) ++ q) = true) as ->.
  { simpl. by apply andb_true_iff in Hrun as [-> _]. }
  by apply IH.
Qed.

Lemma collapse_ws_context t run run' q :
  run ≠ [] → forallb isspace run = true →
  run' ≠ [] → forallb isspace run' = true →
  collapse_ws (t ++ run ++ q) = collapse_ws (t ++ run' ++ q).
Proof.
  intros H1 H2 H3 H4. induction t as [|a t IH]; cbn [app].
  { by rewrite !collapse_ws_run. }
  destruct (isspace a) eqn:Ha.
  - rewrite !collapse_ws_space by done. rewrite IH.
    assert (starts_ws (t ++ run ++ q) = starts_ws (t ++ run' ++ q)) as ->;
      [|done].
    destruct t; [|done]. destruct run, run'; try done. simpl in *.
    apply andb_true_iff in H2 as [-> _]. by apply andb_true_iff in H4 as [-> _].
  - rewrite !collapse_ws_nonspace by done. by rewrite IH.
Qed.

Lemma drop_while_collapse_ws s :
  drop_while isspace (collapse_ws s) = collapse_ws (drop_while isspace s).
Proof.
  induction s as [|c s IH]; [done|].
  destruct (isspace c) eqn:Hc.
  - rewrite collapse_ws_space by done. simpl drop_while at 2. rewrite Hc.
    destruct (starts_ws s); [done|]. simpl. by rewrite IH.
  - rewrite collapse_ws_nonspace by done. simpl. rewrite Hc.
    by rewrite collapse_ws_nonspace.
Qed.

Lemma drop_while_app_single p s c :
  drop_while p (s ++ [c])
  = match drop_while p s with
    | [] => drop_while p [c]
    | d => d ++ [c]
    end.
Proof.
  induction s as [|a s IH]; [by simpl; destruct (p c)|].
  simpl. by destruct (p a).
Qed.

Lemma rstrip_by_cons_eq p c s :
  rstrip_by p (c :: s)
  = match rstrip_by p s with
    | [] => if p c then [] else [c]
    | t => c :: t
    end.
Proof.
  unfold rstrip_by. rewrite reverse_cons, drop_while_app_single.
  destruct (drop_while p (reverse s)) as [|a d]; simpl.
  { by destruct (p c). }
  change (a :: d ++ [c]) with ((a :: d) ++ [c]).
  rewrite reverse_snoc.
  destruct (reverse (a :: d)) eqn:E; [|done].
  apply (f_equal length) in E. rewrite length_reverse in E. done.
Qed.

Lemma rstrip_by_all p s : forallb p s = true → rstrip_by p s = [].
Proof.
  induction s as [|c s IH]; [done|]. intros [Hc Hs]%andb_true_iff.
  by rewrite rstrip_by_cons_eq, IH, Hc.
Qed.

Lemma rstrip_by_nil_inv p s : rstrip_by p s = [] → forallb p s = true.
Proof.
  induction s as [|c s IH]; [done|]. rewrite rstrip_by_cons_eq.
  destruct (rstrip_by p s); [|done].
  destruct (p c) eqn:Hc; [|done]. intros _. simpl. by rewrite Hc, IH.
Qed.

Lemma rstrip_by_head p s a t : rstrip_by p s = a :: t → ∃ s', s = a :: s'.
Proof.
  destruct s as [|c s]; [done|]. rewrite rstrip_by_cons_eq.
  destruct (rstrip_by p s); [destruct (p c)|]; intros [= <- _]; by eexists.
Qed.

Lemma collapse_ws_all_space s :
  s ≠ [] → forallb isspace s = true → collapse_ws s = [32].
Proof.
  intros H1 H2. rewrite <- (app_nil_r s). by rewrite collapse_ws_run.
Qed.

Lemma rstrip_collapse_ws s :
  rstrip_by isspace (collapse_ws s) = collapse_ws (rstrip_by isspace s).
Proof.
  induction s as [|c s IH]; [done|].
  destruct (isspace c) eqn:Hc.
  - rewrite (rstrip_by_cons_eq _ c s), Hc.
    destruct (rstrip_by isspace s) as [|a t] eqn:E.
    + apply rstrip_by_nil_inv in E.
      rewrite (collapse_ws_all_space (c :: s)); [done|done|].
      simpl. by rewrite Hc, E.
    + destruct (rstrip_by_head _ _ _ _ E) as [s' ->].
      rewrite (collapse_ws_space c (a :: s')), (collapse_ws_space c (a :: t))
        by done.
      cbn [starts_ws]. destruct (isspace a) eqn:Ha; [done|].
      rewrite rstrip_by_cons_eq, IH.
      by rewrite collapse_ws_nonspace.
  - rewrite collapse_ws_nonspace, !rstrip_by_cons by done.
    by rewrite IH, collapse_ws_nonspace.
Qed.

Lemma strip_collapse_ws s : strip (collapse_ws s) = collapse_ws (strip s).
Proof.
  unfold strip, lstrip_by.
  by rewrite drop_while_collapse_ws, rstrip_collapse_ws.
Qed.

Lemma collapse_ws_head_space c s :
  isspace c = true →
  ∃ a t, collapse_ws (c :: s) = a :: t ∧ isspace a = true.
Proof.
  intros Hc. pose proof (starts_ws_collapse_ws (c :: s)) as Hs.
  destruct (collapse_ws (c :: s)) as [|a t].
  - simpl in Hs. congruence.
  - exists a, t. split; [done|]. simpl in Hs. congruence.
Qed.

(** A class of characters without white space is read alike before
    and after the white space is collapsed. *)
Lemma take_while_collapse_ws p s :
  (∀ c, p c = true → isspace c = false) →
  take_while p (collapse_ws s) = take_while p s.
Proof.
  intros Hp.
  assert (∀ c, isspace c = true → p c = false) as Hp'.
  { intros c Hc. destruct (p c) eqn:E; [|done]. apply Hp in E. congruence. }
  induction s as [|c s IH]; [done|].
  destruct (isspace c) eqn:Hc.
  - destruct (collapse_ws_head_space c s Hc) as (a & t & -> & Ha).
    simpl. by rewrite !Hp'.
  - rewrite collapse_ws_nonspace by done. simpl. by rewrite IH.
Qed.

Lemma drop_while_collapse_ws_class p s :
  (∀ c, p c = true → isspace c = false) →
  drop_while p (collapse_ws s) = collapse_ws (drop_while p s).
Proof.
  intros Hp.
  assert (∀ c, isspace c = true → p c = false) as Hp'.
  { intros c Hc. destruct (p c) eqn:E; [|done]. apply Hp in E. congruence. }
  induction s as [|c s IH]; [done|].
  destruct (isspace c) eqn:Hc.
  - simpl drop_while at 2. rewrite (Hp' c) by done.
    destruct (collapse_ws_head_space c s Hc) as (a & t & -> & Ha).
    simpl. by rewrite Hp'.
  - rewrite collapse_ws_nonspace by done. simpl.
    destruct (p c); [done|]. by rewrite collapse_ws_nonspace.
Qed.

End CollapseLemmas.

(** *** The steps of the normalizer after white space is collapsed *)

Section StageCollapse.
Context {db : UnicodeDB} {reg : RegularDB db}.
Implicit Types (s t r run pending : list N) (c : N).

Lemma bullet_not_space c : in_chars bullet_chars c = true → isspace c = false.
Proof.
  intros H%bool_decide_eq_true. unfold bullet_chars in H.
  repeat (apply elem_of_cons in H as [->|H]; [reflexivity|]).
  by apply elem_of_nil in H.
Qed.

Lemma space_not_arrow c : isspace c = true → in_chars arrow_chars c = false.
Proof.
  intros Hc. destruct (in_chars arrow_chars c) eqn:E; [|done].
  apply arrow_not_space in E. congruence.
Qed.

Lemma digit_not_space c : is_digit c = true → isspace c = false.
Proof.
  unfold is_digit. intros H. destruct (isspace c) eqn:Hc; [|done].
  by rewrite (space_not_decimal c Hc) in H.
Qed.

Lemma _BULLET_RE_match_collapse_ws s :
  _BULLET_RE_match (collapse_ws s) = collapse_ws <$> _BULLET_RE_match s.
Proof.
  unfold _BULLET_RE_match. rewrite drop_while_collapse_ws.
  destruct (drop_while isspace s) as [|c r] eqn:E; [done|].
  pose proof (drop_while_head _ _ _ _ E) as Hc.
  rewrite collapse_ws_nonspace by done.
  destruct (in_chars bullet_chars c); [|done]. simpl.
  by rewrite drop_while_collapse_ws.
Qed.

Lemma _STEP_NUMBER_RE_match_collapse_ws s :
  _STEP_NUMBER_RE_match (collapse_ws s)
  = (λ m, (m.1, collapse_ws m.2)) <$> _STEP_NUMBER_RE_match s.
Proof.
  unfold _STEP_NUMBER_RE_match. cbv zeta.
  rewrite drop_while_collapse_ws.
  rewrite take_while_collapse_ws, drop_while_collapse_ws_class
    by apply digit_not_space.
  destruct (take_while is_digit _) as [|d ds]; [done|].
  destruct (drop_while is_digit _) as [|c rest]; [done|].
  destruct (isspace c) eqn:Hc.
  - destruct (collapse_ws_head_space c rest Hc) as (a & t & -> & Ha).
    assert (∀ x, isspace x = true → in_chars [46; 41] x = false) as Hdot.
    { intros x Hx. apply bool_decide_eq_false. intros Hin.
      repeat (apply elem_of_cons in Hin as [->|Hin]; [done|]).
      by apply elem_of_nil in Hin. }
    by rewrite !Hdot.
  - rewrite collapse_ws_nonspace by done.
    destruct (in_chars [46; 41] c); [|done]. simpl.
    by rewrite drop_while_collapse_ws.
Qed.

Lemma arrow_sub_go_nonspace_head pending r :
  starts_ws r = false →
  arrow_sub_go false pending r
  = if head_arrow r then arrow_sub_go false [] r
    else pending ++ arrow_sub_go false [] r.
Proof.
  destruct r as [|c r]; simpl; [by rewrite app_nil_r|].
  intros ->. by destruct (in_chars arrow_chars c).
Qed.

Lemma arrow_sub_go_pending r run run' t :
  run ≠ [] → forallb isspace run = true →
  run' ≠ [] → forallb isspace run' = true →
  collapse_ws (t ++ arrow_sub_go false run r)
  = collapse_ws (t ++ arrow_sub_go false run' r).
Proof.
  revert run run' t.
  induction r as [|c r IH]; intros run run' t H1 H2 H3 H4; simpl.
  { rewrite <- (app_nil_r run), <- (app_nil_r run').
    by apply collapse_ws_context. }
  destruct (in_chars arrow_chars c); [done|].
  destruct (isspace c) eqn:Hc.
  - apply IH.
    + by destruct run.
    + by rewrite forallb_app, H2; simpl; rewrite Hc.
    + by destruct run'.
    + by rewrite forallb_app, H4; simpl; rewrite Hc.
  - by apply collapse_ws_context.
Qed.

Lemma arrow_sub_go_collapse_ws s skip t :
  collapse_ws (t ++ arrow_sub_go skip [] (collapse_ws s))
  = collapse_ws (t ++ arrow_sub_go skip [] s).
Proof.
  revert skip t. induction s as [|c r IH]; intros skip t; [done|].
  destruct (isspace c) eqn:Hc.
  - rewrite collapse_ws_space by done.
    pose proof (space_not_arrow c Hc) as Hca.
    destruct (starts_ws r) eqn:Hr.
    + rewrite IH. simpl. rewrite Hca, Hc.
      destruct skip; [done|].
      destruct r as [|c' r]; [done|]. simpl in Hr. simpl.
      rewrite (space_not_arrow c' Hr), Hr. simpl.
      apply arrow_sub_go_pending; by try (simpl; rewrite ?Hc, ?Hr).
    + simpl arrow_sub_go. rewrite Hca, Hc. simpl.
      destruct skip; [apply IH|].
      rewrite (arrow_sub_go_nonspace_head [32] (collapse_ws r))
        by (by rewrite starts_ws_collapse_ws).
      rewrite (arrow_sub_go_nonspace_head [c] r) by done.
      assert (head_arrow (collapse_ws r) = head_arrow r) as ->.
      { destruct r as [|c' r]; [done|]. simpl in Hr.
        by rewrite collapse_ws_nonspace. }
      destruct (head_arrow r); [apply IH|].
      rewrite (app_assoc t [32] (arrow_sub_go false [] (collapse_ws r))), IH.
      rewrite <- (app_assoc t [32] (arrow_sub_go false [] r)).
      apply collapse_ws_context; [done|done|done|by simpl; rewrite Hc].
  - rewrite collapse_ws_nonspace by done. simpl.
    destruct (in_chars arrow_chars c).
    + pose proof (IH true (t ++ [32; 62; 32])) as H.
      by rewrite <- !app_assoc in H.
    + rewrite Hc. pose proof (IH false (t ++ [c])) as H.
      by rewrite <- !app_assoc in H.
Qed.

Lemma _ARROW_RE_sub_collapse_ws s :
  collapse_ws (_ARROW_RE_sub (collapse_ws s)) = collapse_ws (_ARROW_RE_sub s).
Proof. apply (arrow_sub_go_collapse_ws s false []). Qed.

End StageCollapse.

(** *** The steps of the normalizer under a renaming of characters *)

Section StageMap.
Context {db : UnicodeDB}.
Implicit Types (p : N → bool) (s pending : list N) (c : N).

Lemma _normalize_line_pre_lower line :
  _normalize_line line = lower (pre_lower (strip line)).
Proof.
  unfold _normalize_line. destruct (strip line) as [|c s]; [|done].
  by rewrite lower_ascii.
Qed.

Variable f : N → N.
Hypothesis f_space : ∀ c, isspace (f c) = isspace c.
Hypothesis f_bullet :
  ∀ c, in_chars bullet_chars (f c) = in_chars bullet_chars c.
Hypothesis f_digit : ∀ c, is_digit (f c) = is_digit c.
Hypothesis f_close : ∀ c, in_chars [46; 41] (f c) = in_chars [46; 41] c.

Lemma drop_while_fmap p s :
  (∀ c, p (f c) = p c) → drop_while p (f <$> s) = f <$> drop_while p s.
Proof.
  intros Hp. induction s as [|c s IH]; [done|].
  rewrite fmap_cons. cbn [drop_while]. rewrite Hp.
  by destruct (p c).
Qed.

Lemma take_while_fmap p s :
  (∀ c, p (f c) = p c) → take_while p (f <$> s) = f <$> take_while p s.
Proof.
  intros Hp. induction s as [|c s IH]; [done|].
  rewrite fmap_cons. cbn [take_while]. rewrite Hp.
  destruct (p c); [|done]. by rewrite fmap_cons, IH.
Qed.

Lemma strip_fmap s : strip (f <$> s) = f <$> strip s.
Proof.
  unfold strip, lstrip_by, rstrip_by.
  by rewrite drop_while_fmap, <- fmap_reverse, drop_while_fmap, fmap_reverse.
Qed.

Lemma _BULLET_RE_match_fmap s :
  _BULLET_RE_match (f <$> s)
  = (fmap f : list N → list N) <$> _BULLET_RE_match s.
Proof.
  unfold _BULLET_RE_match. rewrite drop_while_fmap by done.
  destruct (drop_while isspace s) as [|c r]; [done|]. simpl.
  rewrite f_bullet. destruct (in_chars bullet_chars c); [|done]. simpl.
  by rewrite drop_while_fmap.
Qed.

Lemma _STEP_NUMBER_RE_match_fmap s :
  _STEP_NUMBER_RE_match (f <$> s)
  = (λ m : list N * list N, (f <$> m.1, f <$> m.2))
      <$> _STEP_NUMBER_RE_match s.
Proof.
  unfold _STEP_NUMBER_RE_match. cbv zeta.
  rewrite (drop_while_fmap isspace) by done.
  rewrite take_while_fmap, (drop_while_fmap is_digit) by done.
  destruct (take_while is_digit _) as [|d ds]; [done|].
  destruct (drop_while is_digit _) as [|c rest]; [done|]. simpl.
  rewrite f_close. destruct (in_chars [46; 41] c); [|done]. simpl.
  by rewrite drop_while_fmap.
Qed.

Lemma strip_markers_fmap s : strip_markers (f <$> s) = f <$> strip_markers s.
Proof.
  unfold strip_markers. cbv zeta. rewrite _BULLET_RE_match_fmap.
  assert (default (f <$> s)
            ((fmap f : list N → list N) <$> _BULLET_RE_match s)
          = f <$> default s (_BULLET_RE_match s)) as ->
    by (by destruct (_BULLET_RE_match s)).
  rewrite _STEP_NUMBER_RE_match_fmap.
  by destruct (_STEP_NUMBER_RE_match _) as [[ds rest]|].
Qed.

Lemma collapse_ws_fmap s :
  f 32 = 32 → collapse_ws (f <$> s) = f <$> collapse_ws s.
Proof.
  intros H32. induction s as [|c s IH]; [done|].
  destruct (isspace c) eqn:Hc.
  - rewrite fmap_cons, !collapse_ws_space by by rewrite ?f_space.
    assert (starts_ws (f <$> s) = starts_ws s) as ->.
    { destruct s; [done|]. simpl. apply f_space. }
    destruct (starts_ws s); [done|]. by rewrite fmap_cons, H32, IH.
  - rewrite fmap_cons, !collapse_ws_nonspace by by rewrite ?f_space.
    by rewrite fmap_cons, IH.
Qed.

Lemma arrow_sub_go_fmap skip pending s :
  (∀ c, in_chars arrow_chars (f c) = in_chars arrow_chars c) →
  f 32 = 32 → f 62 = 62 →
  arrow_sub_go skip (f <$> pending) (f <$> s)
  = f <$> arrow_sub_go skip pending s.
Proof.
  intros Harrow H32 H62. revert skip pending.
  induction s as [|c s IH]; intros skip pending; [done|].
  rewrite fmap_cons. cbn [arrow_sub_go]. rewrite Harrow, f_space.
  destruct (in_chars arrow_chars c).
  { rewrite fmap_app, <- (IH true []). cbn [fmap list_fmap].
    by rewrite H32, H62. }
  destruct (isspace c).
  - destruct skip; [apply (IH true [])|].
    rewrite <- IH. by rewrite fmap_app.
  - rewrite !fmap_app, fmap_cons, <- (IH false []). done.
Qed.

(** A renaming of characters that keeps the classes of the patterns
    and the characters of the replacement text commutes with the
    steps before [lower]. *)
Lemma pre_lower_fmap s :
  (∀ c, in_chars arrow_chars (f c) = in_chars arrow_chars c) →
  f 32 = 32 → f 62 = 62 →
  pre_lower (f <$> s) = f <$> pre_lower s.
Proof.
  intros Harrow H32 H62. unfold pre_lower. rewrite strip_markers_fmap.
  unfold _ARROW_RE_sub.
  rewrite (arrow_sub_go_fmap false []) by done.
  by rewrite collapse_ws_fmap, strip_fmap.
Qed.

(** A renaming of arrows into arrows has no effect at all. *)
Lemma arrow_sub_go_rename skip pending s :
  (∀ c, in_chars arrow_chars c = false → f c = c) →
  (∀ c, in_chars arrow_chars c = true →
        in_chars arrow_chars (f c) = true) →
  arrow_sub_go skip pending (f <$> s) = arrow_sub_go skip pending s.
Proof.
  intros Hkeep Harrow. revert skip pending.
  induction s as [|c s IH]; intros skip pending; [done|].
  rewrite fmap_cons. cbn [arrow_sub_go].
  destruct (in_chars arrow_chars c) eqn:Hc.
  - by rewrite Harrow, IH.
  - by rewrite (Hkeep c), Hc, !IH.
Qed.

Lemma pre_lower_rename s :
  (∀ c, in_chars arrow_chars c = false → f c = c) →
  (∀ c, in_chars arrow_chars c = true →
        in_chars arrow_chars (f c) = true) →
  pre_lower (f <$> s) = pre_lower s.
Proof.
  intros Hkeep Harrow. unfold pre_lower. rewrite strip_markers_fmap.
  unfold _ARROW_RE_sub. by rewrite arrow_sub_go_rename.
Qed.

End StageMap.

(** *** The normalized form of the cosmetic form *)

Section CosmeticForm.
Context {db : UnicodeDB} {reg : RegularDB db} {cf : CaseFold db}.
Implicit Types (s line : list N) (c : N).

Lemma strip_markers_collapse_ws s :
  strip_markers (collapse_ws s) = collapse_ws (strip_markers s).
Proof.
  unfold strip_markers. cbv zeta. rewrite _BULLET_RE_match_collapse_ws.
  assert (default (collapse_ws s) (collapse_ws <$> _BULLET_RE_match s)
          = collapse_ws (default s (_BULLET_RE_match s))) as ->
    by (by destruct (_BULLET_RE_match s)).
  rewrite _STEP_NUMBER_RE_match_collapse_ws.
  by destruct (_STEP_NUMBER_RE_match _) as [[ds rest]|].
Qed.

(** White space: the length and the characters of a run of white
    space have no effect. *)
Lemma _normalize_line_collapse_ws s :
  _normalize_line (collapse_ws s) = _normalize_line s.
Proof.
  rewrite !_normalize_line_pre_lower, strip_collapse_ws. unfold pre_lower.
  by rewrite strip_markers_collapse_ws, _ARROW_RE_sub_collapse_ws.
Qed.

(** Bullets: the glyph of the leading bullet has no effect. *)
Lemma _normalize_line_canon_bullet s :
  _normalize_line (canon_bullet s) = _normalize_line s.
Proof.
  destruct s as [|b s]; [done|]. simpl.
  destruct (in_chars bullet_chars b) eqn:Hb; [|done].
  assert (∀ x, in_chars bullet_chars x = true →
               pre_lower (strip (x :: s))
               = strip (collapse_ws (_ARROW_RE_sub
                   (default (drop_while isspace (rstrip_by isspace s))
                      (snd <$> _STEP_NUMBER_RE_match
                                 (drop_while isspace (rstrip_by isspace s)))))))
    as Hx.
  { intros x Hx. pose proof (bullet_not_space x Hx) as Hxs.
    unfold strip, lstrip_by. simpl drop_while. rewrite Hxs.
    rewrite rstrip_by_cons by done.
    unfold pre_lower, strip_markers, _BULLET_RE_match. simpl drop_while.
    by rewrite Hxs, Hx. }
  by rewrite !_normalize_line_pre_lower, !Hx.
Qed.

Lemma canon_arrow_keep c : in_chars arrow_chars c = false → canon_arrow c = c.
Proof. unfold canon_arrow. by intros ->. Qed.

Lemma canon_arrow_arrow c :
  in_chars arrow_chars c = true → in_chars arrow_chars (canon_arrow c) = true.
Proof. unfold canon_arrow. by intros ->. Qed.

Lemma arrow_cases (P : N → Prop) c :
  in_chars arrow_chars c = true →
  P 8594 → P 9658 → P 9654 → P 10140 → P 10148 → P 187 → P c.
Proof.
  intros H%bool_decide_eq_true ??????. unfold arrow_chars in H.
  repeat (apply elem_of_cons in H as [->|H]; [done|]).
  by apply elem_of_nil in H.
Qed.

(** Arrows: the glyph of an arrow has no effect. *)
Lemma _normalize_line_canon_arrow s :
  _normalize_line (canon_arrow <$> s) = _normalize_line s.
Proof.
  assert (∀ (p : N → bool), p 8594 = false →
            (∀ c, in_chars arrow_chars c = true → p c = false) →
            ∀ c, p (canon_arrow c) = p c) as Hclass.
  { intros p H0 Hp c. unfold canon_arrow.
    destruct (in_chars arrow_chars c) eqn:Hc; [|done]. by rewrite H0, Hp. }
  rewrite !_normalize_line_pre_lower.
  rewrite strip_fmap by (apply Hclass; [done|apply arrow_not_space]).
  rewrite pre_lower_rename;
    [done| | | | |apply canon_arrow_keep|apply canon_arrow_arrow].
  - apply Hclass; [done|apply arrow_not_space].
  - apply Hclass; [done|]. intros c Hc.
    by apply (arrow_cases (λ c, in_chars bullet_chars c = false) c Hc).
  - apply Hclass.
    + unfold is_digit. by rewrite arrow_not_decimal.
    + intros c Hc. unfold is_digit. by rewrite arrow_not_decimal.
  - apply Hclass; [done|]. intros c Hc.
    by apply (arrow_cases (λ c, in_chars [46; 41] c = false) c Hc).
Qed.

Lemma plain_spec c :
  plain c = true →
  isspace c = false ∧ is_digit c = false
  ∧ in_chars bullet_chars c = false ∧ in_chars arrow_chars c = false
  ∧ in_chars [46; 41] c = false ∧ c ≠ 62.
Proof.
  unfold plain. rewrite !andb_true_iff, !negb_true_iff.
  intros [[Hs Hd] Hin]. apply bool_decide_eq_false in Hin.
  rewrite !elem_of_app in Hin.
  repeat split; try done; try apply bool_decide_eq_false.
  - intros ?. apply Hin. by left.
  - intros ?. apply Hin. right. by left.
  - intros H. apply Hin. right. right.
    apply elem_of_cons in H as [->|H]; [by left|].
    apply elem_of_cons in H as [->|H]; [by right; left|].
    by apply elem_of_nil in H.
  - intros ->. apply Hin. right. right. do 2 right. by left.
Qed.

Lemma casefold_class (p : N → bool) :
  (∀ x, plain x = true → p x = false) → ∀ c, p (casefold c) = p c.
Proof.
  intros Hp c. destruct (decide (casefold c = c)) as [->|Hne]; [done|].
  destruct (casefold_plain c Hne) as [H1 H2]. by rewrite !Hp.
Qed.

Lemma casefold_fixed c : plain c = false → casefold c = c.
Proof.
  intros Hc. destruct (decide (casefold c = c)) as [|Hne]; [done|].
  destruct (casefold_plain c Hne) as [H1 _]. congruence.
Qed.

(** Letter case: a case folding that [lower] absorbs has no effect. *)
Lemma _normalize_line_casefold s :
  _normalize_line (casefold <$> s) = _normalize_line s.
Proof.
  rewrite !_normalize_line_pre_lower.
  rewrite strip_fmap
    by (apply casefold_class; intros x Hx; apply plain_spec, Hx).
  rewrite pre_lower_fmap.
  - apply casefold_lower.
  - apply casefold_class. intros x Hx. apply plain_spec, Hx.
  - apply casefold_class. intros x Hx. apply plain_spec, Hx.
  - apply casefold_class. intros x Hx. apply plain_spec, Hx.
  - apply casefold_class. intros x Hx. apply plain_spec, Hx.
  - apply casefold_class. intros x Hx. apply plain_spec, Hx.
  - by apply casefold_fixed.
  - apply casefold_fixed. unfold plain, in_chars.
    rewrite (bool_decide_true
               (62 ∈ bullet_chars ++ arrow_chars ++ [46; 41; 62])).
    + by rewrite andb_false_r.
    + apply elem_of_app; right. apply elem_of_app; right.
      rewrite !elem_of_cons. auto.
Qed.

(** A line and its cosmetic form have the same normalized form. *)
Lemma _normalize_line_cosmetic_form line :
  _normalize_line (cosmetic_form line) = _normalize_line line.
Proof.
  unfold cosmetic_form.
  by rewrite _normalize_line_casefold, _normalize_line_canon_arrow,
    _normalize_line_collapse_ws, _normalize_line_canon_bullet,
    _normalize_line_strip.
Qed.

End CosmeticForm.

(** *** The ASCII database is regular and has a case folding *)

Ltac compare_cases :=
  repeat match goal with
    | |- context [N.leb ?a ?b] => destruct (N.leb_spec a b); try lia
    | |- context [N.eqb ?a ?b] => destruct (N.eqb_spec a b); try lia
    end.

Lemma ascii_decimal_not_space c :
  isspace c = true → decimal (UnicodeDB := ascii_db) c = None.
Proof.
  simpl. unfold ascii_decimal.
  destruct ((48 <=? c) && (c <=? 57)) eqn:E; [|done].
  apply andb_true_iff in E as [E1%N.leb_le E2%N.leb_le].
  unfold isspace. compare_cases; done.
Qed.

Lemma ascii_decimal_not_arrow c :
  in_chars arrow_chars c = true → decimal (UnicodeDB := ascii_db) c = None.
Proof.
  intros H. by apply (arrow_cases (λ c, ascii_decimal c = None) c H).
Qed.

Definition ascii_regular : RegularDB ascii_db :=
  {| space_not_decimal := ascii_decimal_not_space;
     arrow_not_decimal := ascii_decimal_not_arrow |}.

Lemma ascii_lower_char_idemp c :
  ascii_lower_char (ascii_lower_char c) = ascii_lower_char c.
Proof.
  unfold ascii_lower_char.
  destruct ((65 <=? c) && (c <=? 90)) eqn:E; [|by rewrite E].
  apply andb_true_iff in E as [E1%N.leb_le E2%N.leb_le].
  destruct (N.leb_spec 65 (c + 32)), (N.leb_spec (c + 32) 90);
    simpl; done || lia.
Qed.

Lemma ascii_lower_absorbed s :
  lower (UnicodeDB := ascii_db) (ascii_lower_char <$> s)
  = lower (UnicodeDB := ascii_db) s.
Proof.
  simpl. induction s as [|c s IH]; [done|].
  rewrite fmap_cons. simpl. by rewrite ascii_lower_char_idemp, IH.
Qed.

Lemma ascii_letter_plain c :
  (65 ≤ c ≤ 90 ∨ 97 ≤ c ≤ 122) → plain (db := ascii_db) c = true.
Proof.
  intros Hc. unfold plain. rewrite !andb_true_iff, !negb_true_iff.
  repeat split.
  - unfold isspace. destruct Hc; compare_cases; done.
  - unfold is_digit. simpl. unfold ascii_decimal.
    destruct Hc; compare_cases; done.
  - apply bool_decide_eq_false. unfold bullet_chars, arrow_chars. simpl.
    intros Hin.
    repeat (apply elem_of_cons in Hin as [->|Hin]; [lia|]).
    by apply elem_of_nil in Hin.
Qed.

Lemma ascii_lower_char_plain c :
  ascii_lower_char c ≠ c →
  plain (db := ascii_db) c = true
  ∧ plain (db := ascii_db) (ascii_lower_char c) = true.
Proof.
  unfold ascii_lower_char.
  destruct ((65 <=? c) && (c <=? 90)) eqn:E; [|done]. intros _.
  apply andb_true_iff in E as [E1%N.leb_le E2%N.leb_le].
  split; apply ascii_letter_plain; lia.
Qed.

Definition ascii_casefold : CaseFold ascii_db :=
  {| casefold := ascii_lower_char;
     casefold_lower := ascii_lower_absorbed;
     casefold_plain := ascii_lower_char_plain |}.

(** *** Cosmetic changes keep the cosmetic form *)

Section CosmeticEdits.
Context {db : UnicodeDB} {reg : RegularDB db} {cf : CaseFold db}.
Implicit Types (p : N → bool) (s t ws line : list N) (c : N).

Lemma drop_while_app_all p ws s :
  forallb p ws = true → drop_while p (ws ++ s) = drop_while p s.
Proof.
  induction ws as [|c ws IH]; [done|]. simpl.
  intros [-> Hws]%andb_true_iff. by apply IH.
Qed.

Lemma rstrip_by_app_all p s ws :
  forallb p ws = true → rstrip_by p (s ++ ws) = rstrip_by p s.
Proof.
  intros Hws. unfold rstrip_by.
  rewrite reverse_app, drop_while_app_all; [done|].
  apply forallb_forall. intros c Hc.
  rewrite <- list_elem_of_In, elem_of_reverse, list_elem_of_In in Hc.
  by apply (proj1 (forallb_forall _ _) Hws).
Qed.

Lemma strip_comm p s :
  rstrip_by p (drop_while p s) = drop_while p (rstrip_by p s).
Proof.
  induction s as [|c s IH]; [done|].
  destruct (p c) eqn:Hc.
  - simpl drop_while at 1. rewrite Hc, IH, rstrip_by_cons_eq, Hc.
    destruct (rstrip_by p s); [done|]. simpl. by rewrite Hc.
  - simpl drop_while at 1. rewrite Hc, !rstrip_by_cons by done.
    simpl. by rewrite Hc.
Qed.

Lemma strip_margin ws s ws' :
  forallb isspace ws = true → forallb isspace ws' = true →
  strip (ws ++ s ++ ws') = strip s.
Proof.
  intros Hws Hws'. unfold strip, lstrip_by.
  rewrite drop_while_app_all by done.
  by rewrite !strip_comm, rstrip_by_app_all.
Qed.

Lemma canon_bullet_collapse_ws s :
  canon_bullet (collapse_ws s) = collapse_ws (canon_bullet s).
Proof.
  destruct s as [|b s]; [done|]. cbn [canon_bullet].
  destruct (in_chars bullet_chars b) eqn:Hb.
  - pose proof (bullet_not_space b Hb) as Hbs.
    rewrite !collapse_ws_nonspace, ?Hb by done. simpl. by rewrite Hb.
  - destruct (isspace b) eqn:Hbs.
    + destruct (collapse_ws_head_space b s Hbs) as (a & t & -> & Ha).
      simpl. destruct (in_chars bullet_chars a) eqn:E; [|done].
      apply bullet_not_space in E. congruence.
    + rewrite collapse_ws_nonspace by done. simpl. by rewrite Hb.
Qed.

(** The cosmetic form of a line, from the line with its white space
    collapsed. *)
Lemma cosmetic_form_collapse_ws line :
  cosmetic_form line
  = casefold <$> (canon_arrow <$> canon_bullet (strip (collapse_ws line))).
Proof.
  unfold cosmetic_form.
  by rewrite strip_collapse_ws, canon_bullet_collapse_ws.
Qed.

Lemma canon_arrow_class (p : N → bool) :
  p 8594 = false → (∀ c, in_chars arrow_chars c = true → p c = false) →
  ∀ c, p (canon_arrow c) = p c.
Proof.
  intros H0 Hp c. unfold canon_arrow.
  destruct (in_chars arrow_chars c) eqn:Hc; [|done]. by rewrite H0, Hp.
Qed.

Lemma canon_char_space c : isspace (canon_char c) = isspace c.
Proof.
  unfold canon_char.
  rewrite (casefold_class isspace) by (intros x Hx; apply plain_spec, Hx).
  apply canon_arrow_class; [done|apply arrow_not_space].
Qed.

Lemma canon_char_bullet c :
  in_chars bullet_chars (canon_char c) = in_chars bullet_chars c.
Proof.
  unfold canon_char.
  rewrite (casefold_class (in_chars bullet_chars))
    by (intros x Hx; apply plain_spec, Hx).
  apply canon_arrow_class; [done|]. intros x Hx.
  by apply (arrow_cases (λ c, in_chars bullet_chars c = false) x Hx).
Qed.

Lemma plain_listed c :
  in_chars (bullet_chars ++ arrow_chars ++ [46; 41; 62]) c = true →
  plain c = false.
Proof. unfold plain. intros ->. by rewrite andb_false_r. Qed.

Lemma canon_char_fixed c :
  plain c = false → in_chars arrow_chars c = false → canon_char c = c.
Proof.
  intros Hp Ha. unfold canon_char. rewrite (canon_arrow_keep c Ha).
  by apply casefold_fixed.
Qed.

Lemma canon_bullet_fmap (f : N → N) s :
  (∀ c, in_chars bullet_chars (f c) = in_chars bullet_chars c) →
  f 8226 = 8226 →
  canon_bullet (f <$> s) = f <$> canon_bullet s.
Proof.
  intros Hf H0. destruct s as [|b s]; [done|].
  rewrite fmap_cons. cbn [canon_bullet]. rewrite Hf.
  destruct (in_chars bullet_chars b); [|done]. by rewrite fmap_cons, H0.
Qed.

(** The cosmetic form of a line, from the line with its arrows and
    its letter case made canonical. *)
Lemma cosmetic_form_canon_char line :
  cosmetic_form line
  = collapse_ws (canon_bullet (strip (canon_char <$> line))).
Proof.
  unfold cosmetic_form. rewrite <- list_fmap_compose.
  change (casefold ∘ canon_arrow) with canon_char.
  rewrite (strip_fmap canon_char) by apply canon_char_space.
  rewrite canon_bullet_fmap
    by (apply canon_char_bullet
        || (apply canon_char_fixed; [by apply plain_listed|done])).
  rewrite collapse_ws_fmap;
    [done|apply canon_char_space|by apply canon_char_fixed].
Qed.

Lemma casefold_canon_char x y :
  casefold x = casefold y → canon_char x = canon_char y.
Proof.
  intros Hxy. unfold canon_char, canon_arrow.
  assert (∀ a b, casefold a = casefold b →
                 in_chars arrow_chars a = true →
                 in_chars arrow_chars b = true) as Harrow.
  { intros a b Hab Ha.
    assert (casefold a = a) as Hfa.
    { apply casefold_fixed. destruct (plain a) eqn:E; [|done].
      apply plain_spec in E. naive_solver congruence. }
    destruct (decide (casefold b = b)) as [Hfb|Hne]; [congruence|].
    destruct (casefold_plain b Hne) as [_ Hp]. apply plain_spec in Hp.
    rewrite <- Hab, Hfa in Hp. naive_solver congruence. }
  destruct (in_chars arrow_chars x) eqn:Hx.
  - by rewrite (Harrow x y Hxy Hx).
  - destruct (in_chars arrow_chars y) eqn:Hy; [|done].
    by rewrite (Harrow y x (eq_sym Hxy) Hy) in Hx.
Qed.

(** Every cosmetic change keeps the cosmetic form. *)
Lemma cosmetic_edit_form line line' :
  cosmetic_edit line line' → cosmetic_form line = cosmetic_form line'.
Proof.
  destruct 1 as [ws b b' s Hws Hb Hb'|a x y s Hx Hy|a x y s Hxy
                 |a w w' s Hw Hw'|a w w' s Hw Hw'|a w w' s Hw Hw'
                 |ws s ws' Hws Hws'|ws s ws' Hws Hws'].
  - unfold cosmetic_form, strip, lstrip_by.
    rewrite !drop_while_app_all by done. simpl.
    rewrite (bullet_not_space b Hb), (bullet_not_space b' Hb').
    rewrite !rstrip_by_cons by by apply bullet_not_space.
    simpl. by rewrite Hb, Hb'.
  - rewrite !cosmetic_form_canon_char, !fmap_app, !fmap_cons.
    assert (canon_char x = canon_char y) as ->; [|done].
    unfold canon_char, canon_arrow. by rewrite Hx, Hy.
  - rewrite !cosmetic_form_canon_char, !fmap_app, !fmap_cons.
    by rewrite (casefold_canon_char x y).
  - rewrite !cosmetic_form_collapse_ws. do 4 f_equal.
    apply (collapse_ws_context a [w] [w'] s);
      done || by simpl; rewrite ?Hw, ?Hw'.
  - rewrite !cosmetic_form_collapse_ws. do 4 f_equal.
    apply (collapse_ws_context a [w] [w; w'] s);
      done || by simpl; rewrite ?Hw, ?Hw'.
  - rewrite !cosmetic_form_collapse_ws. do 4 f_equal.
    apply (collapse_ws_context a [w; w'] [w] s);
      done || by simpl; rewrite ?Hw, ?Hw'.
  - unfold cosmetic_form. by rewrite strip_margin.
  - unfold cosmetic_form. by rewrite strip_margin.
Qed.

Lemma rtc_cosmetic_edit_form line line' :
  rtc cosmetic_edit line line' → cosmetic_form line = cosmetic_form line'.
Proof.
  induction 1 as [|line line1 line' Hedit _ IH]; [done|].
  by rewrite (cosmetic_edit_form _ _ Hedit).
Qed.

End CosmeticEdits.

(** *** Cosmetic invariance of [compare] *)

Section CosmeticInvariance.
Context {db : UnicodeDB} {so : SetOrder} {lim : IntLimit}.
Context {reg : RegularDB db} {cf : CaseFold db}.
Implicit Types (line : list N) (lines : list (list N)).

Lemma line_key_cosmetic line line' :
  cosmetic_form line = cosmetic_form line' →
  _is_noise line = _is_noise line' →
  line_key line = line_key line'.
Proof.
  intros Hform Hnoise. unfold line_key. rewrite Hnoise.
  by rewrite <- (_normalize_line_cosmetic_form line), Hform,
    _normalize_line_cosmetic_form.
Qed.

Lemma drop_while_all p (s : list N) :
  forallb p s = true → drop_while p s = [].
Proof.
  induction s as [|c s IH]; [done|]. simpl.
  intros [-> Hs]%andb_true_iff. by apply IH.
Qed.

Lemma line_key_blank line : blank line = true → line_key line = None.
Proof.
  intros H. unfold line_key, _is_noise, strip, lstrip_by.
  by rewrite (drop_while_all _ _ H).
Qed.

Lemma omap_line_key_nonblank lines :
  omap line_key (List.filter (λ line, negb (blank line)) lines)
  = omap line_key lines.
Proof.
  induction lines as [|line lines IH]; [done|]. cbn [List.filter omap list_omap].
  destruct (blank line) eqn:E; simpl.
  - rewrite (line_key_blank line E). apply IH.
  - fold (omap line_key lines).
    fold (omap line_key (List.filter (λ line, negb (blank line)) lines)).
    by rewrite IH.
Qed.

(** C5, as amended. Cosmetic invariance: when the lines of [T'] that
    are not blank are, one for one, the lines of [T] that are not
    blank after cosmetic changes (the glyph of the leading bullet, the
    glyphs of arrows, letter case, white space), no line turning from
    noise into content or back, and [int] accepts the step numbers of
    both texts, [compare] returns a result with empty [added] and
    [removed] lists. *)
Theorem cosmetic_invariance (T T' : list N) :
  Forall2 (λ line line', rtc cosmetic_edit line line'
                         ∧ _is_noise line = _is_noise line')
    (nonblank_lines T) (nonblank_lines T') →
  step_numbers_accepted T = true → step_numbers_accepted T' = true →
  ∃ r, Raising.compare T T' = Some r ∧ added r = [] ∧ removed r = [].
Proof.
  intros Hlines HT HT'. exists (compare T T').
  rewrite Raising_compare, HT, HT'. split; [done|].
  apply compare_same_keys.
  rewrite <- (omap_line_key_nonblank (splitlines T)),
    <- (omap_line_key_nonblank (splitlines T')).
  fold (nonblank_lines T) (nonblank_lines T').
  induction Hlines as [|line line' lines lines' [Hedit Hnoise] _ IH]; [done|].
  cbn [omap list_omap].
  rewrite (line_key_cosmetic line line')
    by (done || by apply rtc_cosmetic_edit_form).
  destruct (line_key line'); [by constructor|done].
Qed.

End CosmeticInvariance.

Lemma cosmetic_invariance_witness :
  Forall2 (λ line line',
             rtc (cosmetic_edit (db := ascii_db) (cf := ascii_casefold))
               line line'
             ∧ _is_noise line = _is_noise line')
    (nonblank_lines rendering_a) (nonblank_lines rendering_b)
  ∧ step_numbers_accepted (db := ascii_db) (lim := default_int_limit)
      rendering_a = true
  ∧ step_numbers_accepted (db := ascii_db) (lim := default_int_limit)
      rendering_b = true
  ∧ ∃ r, Raising.compare (db := ascii_db) (so := ascending_order)
           (lim := default_int_limit) rendering_a rendering_b = Some r
         ∧ added r = [] ∧ removed r = [].
Proof.
  assert (Forall2 (λ line line',
             rtc (cosmetic_edit (db := ascii_db) (cf := ascii_casefold))
               line line'
             ∧ _is_noise line = _is_noise line')
            (nonblank_lines rendering_a) (nonblank_lines rendering_b)) as H.
  { change (nonblank_lines rendering_a)
      with [ [8226] ++ u " Choose  Save " ++ [8594] ++ u " Exit"; u "- Done" ].
    change (nonblank_lines rendering_b)
      with [ u "* choose Save " ++ [9658] ++ u " Exit";
             [183] ++ u " Done  " ].
    repeat constructor.
    - eapply rtc_l.
      { by apply (cosmetic_bullet [] 8226 42
                    (u " Choose  Save " ++ [8594] ++ u " Exit")). }
      eapply rtc_l.
      { by apply (cosmetic_case (u "* ") 67 99
                    (u "hoose  Save " ++ [8594] ++ u " Exit")). }
      eapply rtc_l.
      { by apply (cosmetic_space_shorter (u "* choose") 32 32
                    (u "Save " ++ [8594] ++ u " Exit")). }
      eapply rtc_l.
      { by apply (cosmetic_arrow (u "* choose Save ") 8594 9658 (u " Exit")). }
      apply rtc_refl.
    - eapply rtc_l.
      { by apply (cosmetic_bullet [] 45 183 (u " Done")). }
      eapply rtc_l.
      { by apply (cosmetic_margin [] ([183] ++ u " Done") (u "  ")). }
      apply rtc_refl. }
  assert (step_numbers_accepted (db := ascii_db) (lim := default_int_limit)
            rendering_a = true) as Ha by (vm_compute; reflexivity).
  assert (step_numbers_accepted (db := ascii_db) (lim := default_int_limit)
            rendering_b = true) as Hb by (vm_compute; reflexivity).
  split; [exact H|]. split; [exact Ha|]. split; [exact Hb|].
  exact (cosmetic_invariance (db := ascii_db) (so := ascending_order)
           (lim := default_int_limit) (reg := ascii_regular)
           (cf := ascii_casefold) rendering_a rendering_b H Ha Hb).
Defined.

(** *** A database with the Greek sigma

    [str.lower] turns the capital sigma (931) into the final sigma
    (962) after a cased letter at the end of a word, and into the small
    sigma (963) elsewhere.  The database below is the ASCII one with
    these three letters. *)

Definition sigma_cased (c : N) : bool :=
  ((65 <=? c) && (c <=? 90)) || ((97 <=? c) && (c <=? 122))
  || (c =? 931) || (c =? 962) || (c =? 963).

Fixpoint sigma_lower (after_cased : bool) (s : list N) : list N :=
  match s with
  | [] => []
  | c :: s' =>
      (if c =? 931 then
         if after_cased && negb (match s' with
                                 | c' :: _ => sigma_cased c'
                                 | [] => false
                                 end)
         then 962 else 963
       else ascii_lower_char c) :: sigma_lower (sigma_cased c) s'
  end.

Lemma sigma_lower_ascii (s : list N) :
  forallb is_ascii s = true →
  sigma_lower false s = List.map ascii_lower_char s.
Proof.
  generalize false. induction s as [|c s IH]; intros b; [done|]. simpl.
  intros [Hc Hs]%andb_true_iff. rewrite (IH _ Hs).
  destruct (N.eqb_spec c 931) as [->|]; done.
Qed.

Definition sigma_db : UnicodeDB :=
  {| lower := sigma_lower false;
     decimal := ascii_decimal;
     lower_ascii := sigma_lower_ascii;
     decimal_ascii := λ c _, eq_refl |}.

(** C5, as stated, fails, in five ways.  A change of a bullet glyph or
    of white space can turn noise into content: with its first dash
    changed to an asterisk, or its white space shortened, the table
    separator of two dashes is a line of content, which is reported as
    added.  White space changed into a line break makes two lines of
    one.  A bullet glyph that does not start its line is part of the
    text of the line.  [str.lower] is not a map on characters: the two
    sigmas have the same lower case, but not at the end of a word.  And
    a step number of more digits than [int] accepts makes [compare]
    raise, whatever else changes. *)
Lemma cosmetic_invariance_fails :
  (∀ db : UnicodeDB, spec_cosmetic_edit dashes_two_spaces star_two_spaces)
  ∧ (∀ (db : UnicodeDB) (so : SetOrder),
       added (compare dashes_two_spaces star_two_spaces)
       = [ {| text := u "*  -"; severity := MEDIUM; category := content |} ])
  ∧ (∀ db : UnicodeDB, spec_cosmetic_edit dashes_two_spaces dashes_one_space)
  ∧ (∀ (db : UnicodeDB) (so : SetOrder),
       added (compare dashes_two_spaces dashes_one_space)
       = [ {| text := u "- -"; severity := MEDIUM; category := content |} ])
  ∧ (∀ db : UnicodeDB, spec_cosmetic_edit words_one_line words_two_lines)
  ∧ (∀ (db : UnicodeDB) (so : SetOrder),
       added (compare words_one_line words_two_lines)
       = [ {| text := u "a"; severity := MEDIUM; category := content |};
           {| text := u "b"; severity := MEDIUM; category := content |} ])
  ∧ (∀ db : UnicodeDB, spec_cosmetic_edit dash_inside star_inside)
  ∧ (∀ (db : UnicodeDB) (so : SetOrder),
       added (compare dash_inside star_inside)
       = [ {| text := u "a * b"; severity := MEDIUM; category := content |} ])
  ∧ spec_cosmetic_edit (db := sigma_db) sigma_capital sigma_small
  ∧ added (compare (db := sigma_db) (so := ascending_order)
             sigma_capital sigma_small)
    = [ {| text := sigma_small; severity := MEDIUM; category := content |} ]
  ∧ (∀ db : UnicodeDB,
       spec_cosmetic_edit step_of_4301_digits step_of_4301_digits_spaced)
  ∧ (∀ (db : UnicodeDB) (so : SetOrder),
       Raising.compare (lim := default_int_limit)
         step_of_4301_digits step_of_4301_digits_spaced = None).
Proof.
  repeat apply conj.
  - intros db. apply (edit_bullet [] 45 42 (u "  -"));
      apply list_elem_of_In; simpl; auto 10.
  - intros db so. by compare_ascii_eval db so.
  - intros db. by apply (edit_space_shorter (u "-") 32 32 (u "-")).
  - intros db so. by compare_ascii_eval db so.
  - intros db. by apply (edit_space (u "a") 32 10 (u "b")).
  - intros db so. by compare_ascii_eval db so.
  - intros db. apply (edit_bullet (u "a ") 45 42 (u " b"));
      apply list_elem_of_In; simpl; auto 10.
  - intros db so. by compare_ascii_eval db so.
  - by apply (edit_case (db := sigma_db) (u "a") 931 963 []).
  - by vm_compute.
  - intros db.
    by apply (edit_space_longer (replicate 4301 57 ++ u ".") 32 32 (u "a")).
  - intros db so. rewrite Raising_compare.
    rewrite (step_numbers_accepted_ascii db default_int_limit
               step_of_4301_digits)
      by (apply ascii_forallb; vm_compute; reflexivity).
    assert (step_numbers_accepted (db := ascii_db) (lim := default_int_limit)
              step_of_4301_digits = false) as -> by (vm_compute; reflexivity).
    done.
Qed.
